(** * Pyrena: the match runner (pyrena.py) and the bracket engine
    (tournament_scheduler.py), embedded shallowly.

    Python objects that the code shares and mutates (the bracket's [Node]s)
    live in a store, the list [nodes] of the source, and are named by their
    position in it.  Exceptions are results of type [result]; the database
    is a record of tables that the queries read and rewrite. *)

From Stdlib Require Import ZArith QArith Ascii String List Lia Permutation.
From stdpp Require Import base numbers list strings gmap functions pretty.

#[local] Set Warnings "-clear-no-such-hyp".

Local Open Scope string_scope.
Local Open Scope list_scope.
Local Open Scope Z_scope.

(** ** Python values shared by the two programs *)

(** Exceptions, by class, with the message (or, for a [NameError], the name). *)
Inductive exn : Type :=
| ValueError (msg : string)
| TypeError (msg : string)
| IndexError (msg : string)
| NameError (name : string)
| KeyError (key : string)
| StopIteration
| Exception (msg : string).

(** What a call comes to: it returns, or it raises; [OutOfFuel] says that
    the bound this model puts on a recursion or on a loop of unknown length
    was reached before the code finished. *)
Inductive result (A : Type) : Type :=
| Ok (a : A)
| Raise (e : exn)
| OutOfFuel.
Arguments Ok {A} a.
Arguments Raise {A} e.
Arguments OutOfFuel {A}.

Global Instance result_ret : MRet result := λ A a, Ok a.
Global Instance result_bind : MBind result := λ A B k r,
  match r with
  | Ok a => k a
  | Raise e => Raise e
  | OutOfFuel => OutOfFuel
  end.

(** A Python number: an [int], or a [float].  Every float that the modelled
    code produces is a power of two times a small integer, which binary64
    holds exactly, so its value is given as a rational. *)
Inductive number : Type :=
| PyInt (z : Z)
| PyFloat (q : Q).

(** A row of [SELECT s.id, t.name, s.version, s.status, s.created_at]. *)
Record SubmissionRow : Type := {
  sub_id : Z;
  sub_name : string;
  sub_version : Z;
  sub_status : string;
  sub_created_at : Z
}.

Global Instance SubmissionRow_eq_dec : EqDecision SubmissionRow.
Proof. solve_decision. Defined.

(** A row of [games] as the queries return it: [id, status, winner_id,
    log_url]; a column that is NULL (or not selected) is [None]. *)
Record Game : Type := {
  game_id : Z;
  game_status : string;
  winner_id : option Z;
  log_url : option string
}.

Global Instance Game_eq_dec : EqDecision Game.
Proof. solve_decision. Defined.

(** The database: the tables [games] and [games_submissions] (game_id,
    submission_id), in row order, and the state of the [games.id] serial. *)
Record DB : Type := {
  db_games : list Game;
  db_games_submissions : list (Z * Z);
  db_games_id_seq : Z
}.

(** [sorted(l, key=key)]: ascending, and stable. *)
Fixpoint insert_by {A : Type} (key : A → Z) (a : A) (l : list A) : list A :=
  match l with
  | [] => [a]
  | b :: l' =>
      if decide (key a < key b) then a :: l else b :: insert_by key a l'
  end.

Definition sorted {A : Type} (key : A → Z) (l : list A) : list A :=
  foldl (λ acc a, insert_by key a acc) [] l.

(** ** tournament_scheduler.py *)
Module TournamentScheduler.

(** [class Submission] has one instance of its own, [BYE]; every other
    submission is a row of [get_latest_submissions].  The rows are fetched
    once and have pairwise distinct ids, so that two of them are the same
    object ([is]) exactly when they are equal ([==]); [BYE] is equal to
    itself only. *)
Inductive Submission : Type :=
| BYE
| Real (row : SubmissionRow).

Global Instance Submission_eq_dec : EqDecision Submission.
Proof. solve_decision. Defined.

Definition id (s : Submission) : Z :=
  match s with
  | BYE => -1
  | Real r => sub_id r
  end.

Definition name (s : Submission) : string :=
  match s with
  | BYE => "BYE"
  | Real r => sub_name r
  end.

(** [class Node]; [feeders], [inverted_feeders], [winner_child] and
    [loser_child] refer to nodes by their position in [nodes].  The fields
    [left_submission] ... [right_inverted] are never read or written after
    [__init__] and are left out. *)
Record Node : Type := {
  submissions : list Submission;
  feeders : list nat;
  inverted_feeders : list nat;
  games : list Game;
  winner : option Submission;
  loser : option Submission;
  winner_child : option nat;
  loser_child : option nat
}.

(** [Node()] *)
Definition Node_init : Node := {|
  submissions := [];
  feeders := [];
  inverted_feeders := [];
  games := [];
  winner := None;
  loser := None;
  winner_child := None;
  loser_child := None
|}.

Definition set_submissions (v : list Submission) (n : Node) : Node :=
  {| submissions := v; feeders := feeders n;
     inverted_feeders := inverted_feeders n; games := games n;
     winner := winner n; loser := loser n;
     winner_child := winner_child n; loser_child := loser_child n |}.

Definition set_feeders (v : list nat) (n : Node) : Node :=
  {| submissions := submissions n; feeders := v;
     inverted_feeders := inverted_feeders n; games := games n;
     winner := winner n; loser := loser n;
     winner_child := winner_child n; loser_child := loser_child n |}.

Definition set_inverted_feeders (v : list nat) (n : Node) : Node :=
  {| submissions := submissions n; feeders := feeders n;
     inverted_feeders := v; games := games n;
     winner := winner n; loser := loser n;
     winner_child := winner_child n; loser_child := loser_child n |}.

Definition set_games (v : list Game) (n : Node) : Node :=
  {| submissions := submissions n; feeders := feeders n;
     inverted_feeders := inverted_feeders n; games := v;
     winner := winner n; loser := loser n;
     winner_child := winner_child n; loser_child := loser_child n |}.

Definition set_winner_loser (w l : option Submission) (n : Node) : Node :=
  {| submissions := submissions n; feeders := feeders n;
     inverted_feeders := inverted_feeders n; games := games n;
     winner := w; loser := l;
     winner_child := winner_child n; loser_child := loser_child n |}.

Definition set_winner_child (v : option nat) (n : Node) : Node :=
  {| submissions := submissions n; feeders := feeders n;
     inverted_feeders := inverted_feeders n; games := games n;
     winner := winner n; loser := loser n;
     winner_child := v; loser_child := loser_child n |}.

Definition set_loser_child (v : option nat) (n : Node) : Node :=
  {| submissions := submissions n; feeders := feeders n;
     inverted_feeders := inverted_feeders n; games := games n;
     winner := winner n; loser := loser n;
     winner_child := winner_child n; loser_child := v |}.

(** *** Arithmetic of [generate_initial_pairing] *)

(** [math.ceil(math.log2(n))]: a [ValueError] for [n = 0], else the least
    [k] with [n <= 2^k].  ([math.log2] is a float; its ceiling is this [k]
    for every length a list of submissions can have, the float being exact
    at the powers of two and off by less than the distance to the next
    integer for [n] below [2^46].) *)
Definition ceil_log2 (n : Z) : result Z :=
  if decide (0 < n) then Ok (Z.log2_up n)
  else Raise (ValueError "math domain error").

(** [2**e] for an [int] exponent: an [int] when [e >= 0], else a [float]. *)
Definition pow2 (e : Z) : number :=
  if decide (0 ≤ e) then PyInt (2 ^ e) else PyFloat (Qpower 2 e).

Definition to_Q (a : number) : Q :=
  match a with
  | PyInt z => inject_Z z
  | PyFloat q => q
  end.

Definition num_mul (a b : number) : number :=
  match a, b with
  | PyInt x, PyInt y => PyInt (x * y)
  | _, _ => PyFloat (Qmult (to_Q a) (to_Q b))
  end.

Definition num_sub (a b : number) : number :=
  match a, b with
  | PyInt x, PyInt y => PyInt (x - y)
  | _, _ => PyFloat (Qminus (to_Q a) (to_Q b))
  end.

(** [l * k]: the list repeated [k] times (none for [k <= 0]); a float
    factor is a [TypeError]. *)
Definition seq_mul {A : Type} (l : list A) (k : number) : result (list A) :=
  match k with
  | PyInt z => Ok (mjoin (replicate (Z.to_nat z) l))
  | PyFloat _ =>
      Raise (TypeError "can't multiply sequence by non-int of type 'float'")
  end.

(** [range(k)] *)
Definition range (k : number) : result (list nat) :=
  match k with
  | PyInt z => Ok (seq 0 (Z.to_nat z))
  | PyFloat _ =>
      Raise (TypeError "'float' object cannot be interpreted as an integer")
  end.

(** One of the two loops [for node in nodes:
    node.submissions.append(shuffled_submissions[i]); i += 1], started at
    [i]; it returns the nodes and the value of [i] it ends with. *)
Fixpoint append_in_turn (shuffled : list Submission) (i : nat)
    (nodes : list Node) : result (list Node * nat) :=
  match nodes with
  | [] => Ok ([], i)
  | node :: rest =>
      match shuffled !! i with
      | None => Raise (IndexError "list index out of range")
      | Some s =>
          r ← append_in_turn shuffled (S i) rest ;
          Ok (set_submissions (submissions node ++ [s]) node :: r.1, r.2)
      end
  end.

Section with_shuffle.

(** [random.shuffle], as the rearrangement it makes of a list. *)
Variable shuffle : list Submission → list Submission.

Definition generate_initial_pairing (subs : list Submission)
    : result (list Node) :=
  c ← ceil_log2 (Z.of_nat (length subs)) ;
  let width := pow2 (c - 1) in
  let shuffled_submissions := shuffle subs in
  pad ← seq_mul [BYE]
          (num_sub (num_mul (PyInt 2) width)
                   (PyInt (Z.of_nat (length shuffled_submissions)))) ;
  let shuffled_submissions := shuffled_submissions ++ pad in
  idxs ← range width ;
  let nodes := map (λ _, Node_init) idxs in
  r1 ← append_in_turn shuffled_submissions 0 nodes ;
  r2 ← append_in_turn shuffled_submissions r1.2 r1.1 ;
  Ok r2.1.

End with_shuffle.

(** *** Growing the bracket *)

(** [wins] and [losses]: a [collections.defaultdict(lambda: 0)] is a
    function that is [0] wherever nothing was counted. *)
Definition count_losses (nodes : list Node) : Submission → nat :=
  foldl (λ losses node,
           match loser node with
           | Some l => alter S l losses
           | None => losses
           end) (λ _, 0%nat) nodes.

Definition count_wins (nodes : list Node) : Submission → nat :=
  foldl (λ wins node,
           match winner node with
           | Some w => alter S w wins
           | None => wins
           end) (λ _, 0%nat) nodes.

(** The pairs [(node, who)] of [available], nodes by position. *)
Definition available_of (max_losses : Z) (losses : Submission → nat)
    (j : nat) (node : Node) : list (nat * Submission) :=
  match winner node, winner_child node with
  | Some w, None => [(j, w)]
  | _, _ => []
  end ++
  match loser node, loser_child node with
  | Some l, None =>
      if decide (Z.of_nat (losses l) < max_losses) then [(j, l)] else []
  | _, _ => []
  end.

Definition available (max_losses : Z) (nodes : list Node)
    : list (nat * Submission) :=
  mjoin (imap (available_of max_losses (count_losses nodes)) nodes).

(** [pending_matches] before the groups are walked: some node has no
    winner. *)
Definition pending (nodes : list Node) : bool :=
  bool_decide (Exists (λ node, winner node = None) nodes).

(** A [collections.defaultdict(lambda: list())] filled by
    [d[key(a)].append(a)]: the keys stay in the order of their first
    appearance. *)
Fixpoint group_add {K A : Type} `{EqDecision K} (k : K) (a : A)
    (d : list (K * list A)) : list (K * list A) :=
  match d with
  | [] => [(k, [a])]
  | (k', l) :: d' =>
      if decide (k = k') then (k', l ++ [a]) :: d'
      else (k', l) :: group_add k a d'
  end.

Definition group_by {K A : Type} `{EqDecision K} (key : A → K)
    (l : list A) : list (K * list A) :=
  foldl (λ d a, group_add (key a) a d) [] l.

(** [pairwise(collection)]: [zip] of one iterator with itself. *)
Fixpoint pairwise {A : Type} (l : list A) : list (A * A) :=
  match l with
  | a :: b :: l' => (a, b) :: pairwise l'
  | _ => []
  end.

(** The values of [available_by_score], of [available_by_losses] and of
    the one-entry dict of the third group. *)
Definition available_by_score (max_losses : Z) (nodes : list Node)
    : list (list (nat * Submission)) :=
  (group_by (λ p, (count_losses nodes p.2, count_wins nodes p.2))
            (available max_losses nodes)).*2.

Definition available_by_losses (max_losses : Z) (nodes : list Node)
    : list (list (nat * Submission)) :=
  (group_by (λ p, count_losses nodes p.2) (available max_losses nodes)).*2.

Definition available_sorted (max_losses : Z) (nodes : list Node)
    : list (list (nat * Submission)) :=
  [sorted (λ p, - Z.of_nat (count_losses nodes p.2))
          (available max_losses nodes)].

(** [for node, who in pair: ...] for one of the two, [new] being the node
    under construction, which will stand at [new_ix]. *)
Definition attach (new_ix : nat) (st : list Node * Node)
    (src : nat * Submission) : list Node * Node :=
  match st.1 !! src.1 with
  | None => st
  | Some node =>
      if decide (Some src.2 = winner node) then
        (alter (set_winner_child (Some new_ix)) src.1 st.1,
         set_feeders (feeders st.2 ++ [src.1]) st.2)
      else if decide (Some src.2 = loser node) then
        (alter (set_loser_child (Some new_ix)) src.1 st.1,
         set_inverted_feeders (inverted_feeders st.2 ++ [src.1]) st.2)
      else st
  end.

(** The body of [for pair in pairwise(node_sources)]. *)
Definition make_node (nodes : list Node)
    (pair : (nat * Submission) * (nat * Submission)) : list Node :=
  let new_ix := length nodes in
  let st := attach new_ix (attach new_ix (nodes, Node_init) pair.1) pair.2 in
  st.1 ++ [st.2].

(** [for group in groups: ... if pending_matches: break] *)
Fixpoint walk_groups (groups : list (list (list (nat * Submission))))
    (st : list Node * bool) : list Node :=
  match groups with
  | [] => st.1
  | group :: rest =>
      let st :=
        foldl (λ st node_sources,
                 foldl (λ st pair, (make_node st.1 pair, true))
                       st (pairwise node_sources))
              st group in
      if st.2 then st.1 else walk_groups rest st
  end.

Section with_shuffle_online.

Variable shuffle : list Submission → list Submission.

(** [if not nodes: nodes.extend(generate_initial_pairing(submissions))] *)
Definition start (subs : list Submission) (nodes : list Node)
    : result (list Node) :=
  if decide (nodes = []) then
    leaves ← generate_initial_pairing shuffle subs; Ok (nodes ++ leaves)
  else Ok nodes.

(** [generate_n_elimination_bracket_online(submissions, nodes, max_losses)]:
    the nodes afterwards and what is returned, the position of the winner
    node or [None] for [False]. *)
Definition generate_n_elimination_bracket_online (subs : list Submission)
    (nodes : list Node) (max_losses : Z) : result (list Node * option nat) :=
  nodes ← start subs nodes;
  let available := available max_losses nodes in
  let pending_matches := pending nodes in
  if decide (pending_matches = false ∧ length available = 1%nat) then
    Ok (nodes, fst <$> head available)
  else if decide (pending_matches = false ∧ length available = 0%nat) then
    match nodes with
    | [] => Raise (IndexError "list index out of range")
    | _ => Ok (nodes, Some (pred (length nodes)))
    end
  else
    Ok (walk_groups [available_by_score max_losses nodes;
                     available_by_losses max_losses nodes;
                     available_sorted max_losses nodes]
                    (nodes, pending_matches), None).

End with_shuffle_online.

(** *** Game status and winners *)

(** [SELECT id, status, winner_id, log_url FROM games WHERE id IN game_ids] *)
Definition get_games (db : DB) (game_ids : list Z) : list Game :=
  filter (λ g, game_id g ∈ game_ids) (db_games db).

(** [{g.id: g for g in games}]: a later row replaces an earlier one. *)
Definition by_id (games : list Game) : gmap Z Game :=
  foldl (λ m g, <[game_id g := g]> m) ∅ games.

(** The ids [update_game_status] asks the database for. *)
Definition unfinished_game_ids (nodes : list Node) : list Z :=
  node ← nodes; game ← games node;
  if decide (game_status game ≠ "finished") then [game_id game] else [].

(** [update_game_status(conn, [nodes])] *)
Definition update_game_status (db : DB) (nodes : list Node) : list Node :=
  let game_ids := unfinished_game_ids nodes in
  if decide (game_ids = []) then nodes
  else
    let games_by_id := by_id (get_games db game_ids) in
    (λ node,
       set_games ((λ game, default game (games_by_id !! game_id game))
                    <$> games node) node) <$> nodes.

(** [propogate_winners(node)] for the node at [i]. *)
Definition propogate_winners (i : nat) (nodes : list Node) : list Node :=
  match nodes !! i with
  | None => nodes
  | Some node =>
      let kept :=
        if decide (feeders node = [] ∧ inverted_feeders node = [])
        then submissions node else [] in
      let winners :=
        omap (λ f, nodes !! f ≫= winner) (feeders node) in
      let losers :=
        omap (λ f, nodes !! f ≫= loser) (inverted_feeders node) in
      <[i := set_submissions (kept ++ winners ++ losers) node]> nodes
  end.

(** "Handle byes". *)
Definition handle_byes (node : Node) : Node :=
  match submissions node with
  | [s0; s1] =>
      let node :=
        if decide (s0 = BYE) then set_winner_loser (Some s1) (Some BYE) node
        else node in
      let node :=
        if decide (s1 = BYE) then set_winner_loser (Some s0) (Some BYE) node
        else node in
      if decide (s0 = BYE ∧ s1 = BYE)
      then set_winner_loser (Some BYE) (Some BYE) node
      else node
  | _ => node
  end.

(** "Handle playing yourself". *)
Definition handle_self (node : Node) : Node :=
  match submissions node with
  | [s0; s1] =>
      if decide (s0 = s1) then set_winner_loser (Some s0) (Some s1) node
      else node
  | _ => node
  end.

(** [collections.Counter]: the keys stay in the order of their first
    appearance. *)
Fixpoint counter_add (k : Z) (c : list (Z * nat)) : list (Z * nat) :=
  match c with
  | [] => [(k, 1%nat)]
  | (k', n) :: c' =>
      if decide (k = k') then (k', S n) :: c' else (k', n) :: counter_add k c'
  end.

Definition Counter (l : list Z) : list (Z * nat) :=
  foldl (λ c k, counter_add k c) [] l.

(** [g.winner_id for g in node.games if g.winner_id]: [None] and [0] are
    false. *)
Definition winner_ids (games : list Game) : list Z :=
  omap (λ g, match winner_id g with
             | Some w => if decide (w = 0) then None else Some w
             | None => None
             end) games.

(** The first [side] of [zip(node.submissions, reversed(node.submissions))]
    with [side[0].id == winner_id] (the loop variable [pair] of the source). *)
Definition find_side (subs : list Submission) (w : Z)
    : option (Submission * Submission) :=
  snd <$> list_find (λ side, id side.1 = w) (zip subs (reverse subs)).

Section with_best_of.

Variable BEST_OF : Z.

(** [for winner_id, wins in winners.items(): ...] *)
Fixpoint declare_from_counts (items : list (Z * nat)) (node : Node)
    : result Node :=
  match items with
  | [] => Ok node
  | (w, wins) :: rest =>
      if decide (BEST_OF `div` 2 < Z.of_nat wins) then
        match find_side (submissions node) w with
        | Some side =>
            declare_from_counts rest
              (set_winner_loser (Some side.1) (Some side.2) node)
        | None =>
            Raise (Exception ("Winner " +:+ pretty w +:+
                              " was not a member of this node"))
        end
      else declare_from_counts rest node
  end.

(** "Declare match winners from games played". *)
Definition declare_from_games (node : Node) : result Node :=
  match winner node with
  | None => declare_from_counts (Counter (winner_ids (games node))) node
  | Some _ => Ok node
  end.

(** [declare_and_propogate_winners(node)] for the node at [i]; [fuel]
    bounds the depth of the recursion through [feeders]. *)
Fixpoint declare_and_propogate_winners (fuel : nat) (i : nat)
    (nodes : list Node) : result (list Node) :=
  match fuel with
  | O => OutOfFuel
  | S fuel =>
      match nodes !! i with
      | None => Ok nodes
      | Some node =>
          if decide (is_Some (winner node) ∧ is_Some (loser node))
          then Ok nodes
          else
            nodes ← foldl (λ r f, r ≫= declare_and_propogate_winners fuel f)
                      (Ok nodes) (feeders node);
            let nodes := propogate_winners i nodes in
            match nodes !! i with
            | None => Ok nodes
            | Some node =>
                node ← declare_from_games (handle_self (handle_byes node));
                Ok (<[i := node]> nodes)
            end
      end
  end.

(** [for node in nodes: declare_and_propogate_winners(node)], of [main];
    the node at [i] is given the [i + 1] levels its feeders can need. *)
Definition declare_all (nodes : list Node) : result (list Node) :=
  foldl (λ r i, r ≫= declare_and_propogate_winners (S i) i)
        (Ok nodes) (seq 0 (length nodes)).

End with_best_of.

(** *** Enqueueing games *)

(** [get_unused_game]: the finished games that both submissions are linked
    to and whose id is none of [-1, *used_game_ids], highest id first, one
    at most. *)
Definition get_unused_game (db : DB) (left right : Submission)
    (used_game_ids : list Z) : list Game :=
  take 1
    (sorted (λ g, - game_id g)
       (filter (λ g, (game_id g, id left) ∈ db_games_submissions db ∧
                     (game_id g, id right) ∈ db_games_submissions db ∧
                     game_status g = "finished" ∧
                     game_id g ∉ -1 :: used_game_ids)
               (db_games db))).

(** [create_queued_game]: a row of [games] with the next id of the serial,
    and its two rows of [games_submissions], left first. *)
Definition create_queued_game (db : DB) (left right : Submission)
    : DB * Game :=
  let game := {| game_id := db_games_id_seq db + 1; game_status := "queued";
                 winner_id := None; log_url := None |} in
  ({| db_games := db_games db ++ [game];
      db_games_submissions :=
        db_games_submissions db
          ++ [(game_id game, id left); (game_id game, id right)];
      db_games_id_seq := game_id game |},
   game).

(** [game.id for node in nodes for game in node.games] *)
Definition attached_game_ids (nodes : list Node) : list Z :=
  node ← nodes; game ← games node; [game_id game].

Section with_reuse.

Variable REUSE_OLD_GAMES : bool.

(** [create_or_reuse_game], [nodes] being the global of that name. *)
Definition create_or_reuse_game (nodes : list Node) (db : DB)
    (left right : Submission) : DB * Game :=
  let reused :=
    if REUSE_OLD_GAMES
    then head (get_unused_game db left right (attached_game_ids nodes))
    else None in
  match reused with
  | Some game => (db, game)
  | None => create_queued_game db left right
  end.

(** The body of [for i in range(len(finished_or_queued_games), BEST_OF)]
    for the node at [ix]. *)
Definition add_game (ix : nat) (st : list Node * DB) (i : Z)
    : list Node * DB :=
  match st.1 !! ix with
  | Some node =>
      match submissions node with
      | [s0; s1] =>
          let sides := if decide (i `mod` 2 ≠ 0) then (s1, s0) else (s0, s1) in
          let r := create_or_reuse_game st.1 st.2 sides.1 sides.2 in
          (alter (λ node, set_games (games node ++ [r.2]) node) ix st.1, r.1)
      | _ => st
      end
  | None => st
  end.

End with_reuse.

(** [finished_or_queued_games] *)
Definition finished_or_queued (games : list Game) : list Game :=
  filter (λ g, game_status g ∈ ["finished"; "queued"; "playing"]) games.

Section with_reuse_best_of.

Variables (REUSE_OLD_GAMES : bool) (BEST_OF : Z).

(** The body of [for node in level] for the node at [ix]. *)
Definition create_games_of (st : list Node * DB) (ix : nat)
    : list Node * DB :=
  match st.1 !! ix with
  | Some node =>
      if decide (winner node = None ∧ length (submissions node) = 2%nat) then
        if decide (BYE ∈ submissions node) then st
        else
          let n := Z.of_nat (length (finished_or_queued (games node))) in
          foldl (add_game REUSE_OLD_GAMES ix) st (seqZ n (BEST_OF - n))
      else st
  | None => st
  end.

(** [create_needed_games(conn, [nodes])] *)
Definition create_needed_games (db : DB) (nodes : list Node)
    : list Node * DB :=
  foldl create_games_of (nodes, db) (seq 0 (length nodes)).

End with_reuse_best_of.

(** *** The single-elimination bracket *)

(** [for i in range(width): ...] of [generate_single_elimination_bracket]:
    every node made is put after the nodes [made] so far, and [level] is
    returned as the positions of its nodes. *)
Fixpoint make_level (made : list Node) (lower_level : list nat)
    (idxs : list nat) : result (list Node * list nat) :=
  match idxs with
  | [] => Ok (made, [])
  | i :: rest =>
      match lower_level !! (i * 2)%nat, lower_level !! (i * 2 + 1)%nat with
      | Some a, Some b =>
          r ← make_level (made ++ [set_feeders [a; b] Node_init])
                lower_level rest;
          Ok (r.1, length made :: r.2)
      | _, _ => Raise (IndexError "list index out of range")
      end
  end.

(** [while width > 1: ...]; [fuel] bounds the number of turns. *)
Fixpoint halve_levels (fuel : nat) (width : Z) (made : list Node)
    (lower_level : list nat) (levels : list (list nat))
    : result (list Node * list (list nat)) :=
  if decide (1 < width) then
    match fuel with
    | O => OutOfFuel
    | S fuel =>
        let width := width `div` 2 in
        r ← make_level made lower_level (seq 0 (Z.to_nat width));
        halve_levels fuel width r.1 r.2 (levels ++ [r.2])
    end
  else Ok (made, levels).

Section with_shuffle_single.

Variable shuffle : list Submission → list Submission.

(** [generate_single_elimination_bracket(submissions)]: the nodes it makes,
    the leaves first, and [levels], each level as the positions of its
    nodes.  ([print] writes to the terminal and is left out.)  A [width]
    that is a float is not halved: [range] would not take it. *)
Definition generate_single_elimination_bracket (subs : list Submission)
    : result (list Node * list (list nat)) :=
  c ← ceil_log2 (Z.of_nat (length subs));
  let width := pow2 (c - 1) in
  level ← generate_initial_pairing shuffle subs;
  let lower_level := seq 0 (length level) in
  match width with
  | PyInt w => halve_levels (Z.to_nat w) w level lower_level [lower_level]
  | PyFloat q =>
      if Qlt_le_dec 1 q then
        Raise (TypeError "'float' object cannot be interpreted as an integer")
      else Ok (level, [lower_level])
  end.

End with_shuffle_single.

(** *** The latest submissions *)

(** Rows of the tables [submissions] and [teams], with the columns that
    [get_latest_submissions] reads; [team_captain_id] may be NULL, and a
    NULL [is_eligible] counts as false, as [WHERE] takes it. *)
Record SubmissionsRow : Type := {
  s_id : Z;
  s_team_id : Z;
  s_version : Z;
  s_status : string;
  s_created_at : Z
}.

Record TeamsRow : Type := {
  t_id : Z;
  t_name : string;
  t_team_captain_id : option Z;
  t_is_eligible : bool
}.

(** [MAX(version)] of the rows of a group. *)
Definition MAX (versions : list Z) : option Z :=
  match versions with
  | [] => None
  | v :: vs => Some (foldl Z.max v vs)
  end.

(** [SELECT team_id, MAX(version) as version FROM submissions WHERE status
    != 'failed' GROUP BY team_id] *)
Definition latest_versions (submissions : list SubmissionsRow)
    : list (Z * option Z) :=
  (λ grp, (grp.1, MAX (s_version <$> grp.2)))
    <$> group_by s_team_id (filter (λ s, s_status s ≠ "failed") submissions).

(** [get_latest_submissions(conn)], the two joins as nested loops. *)
Definition get_latest_submissions (submissions : list SubmissionsRow)
    (teams : list TeamsRow) : list SubmissionRow :=
  s ← submissions; m ← latest_versions submissions; t ← teams;
  if decide (s_team_id s = m.1 ∧ Some (s_version s) = m.2 ∧
             s_team_id s = t_id t ∧
             is_Some (t_team_captain_id t) ∧ t_is_eligible t = true ∧
             s_status s ≠ "failed")
  then [{| sub_id := s_id s; sub_name := t_name t;
           sub_version := s_version s; sub_status := s_status s;
           sub_created_at := s_created_at s |}]
  else [].

(** *** The loop of [main] *)

Section with_settings.

(** [random.shuffle], and the settings [N_ELIMINATION], [BEST_OF] and
    [REUSE_OLD_GAMES]. *)
Variable shuffle : list Submission → list Submission.
Variables (N_ELIMINATION BEST_OF : Z) (REUSE_OLD_GAMES : bool).

(** [nodes = list(); generate_n_elimination_bracket_online(submissions,
    nodes, N_ELIMINATION)]: the nodes that [main] enters its loop with. *)
Definition main_start (submissions : list Submission) : result (list Node) :=
  r ← generate_n_elimination_bracket_online shuffle submissions []
         N_ELIMINATION;
  Ok r.1.

(** One turn of [while True:] in [main], on the database [db] as the turn
    finds it: the nodes and the database afterwards, and the winner node
    when the loop is left.  (What is logged, and the dot file, are left
    out.) *)
Definition main_turn (submissions : list Submission) (db : DB)
    (nodes : list Node) : result (list Node * DB * option nat) :=
  let nodes := update_game_status db nodes in
  nodes ← declare_all BEST_OF nodes;
  r ← generate_n_elimination_bracket_online shuffle submissions nodes
         N_ELIMINATION;
  match r.2 with
  | Some winner => Ok (r.1, db, Some winner)
  | None =>
      let st := create_needed_games REUSE_OLD_GAMES BEST_OF db r.1 in
      Ok (st.1, st.2, None)
  end.

End with_settings.

End TournamentScheduler.

(** ** pyrena.py *)
Module Pyrena.

(** *** Claiming a queued game *)

Definition set_status (status : string) (g : Game) : Game :=
  {| game_id := game_id g; game_status := status;
     winner_id := winner_id g; log_url := log_url g |}.

(** [SELECT id FROM games WHERE status = 'queued' ORDER BY id FOR UPDATE
    SKIP LOCKED LIMIT 1], no other session holding a lock. *)
Definition select_queued (db : DB) : option Z :=
  head (sorted (λ i, i)
          (game_id <$> filter (λ g, game_status g = "queued") (db_games db))).

(** [UPDATE games g SET status = 'playing' WHERE id = (...) RETURNING g.id]:
    the database afterwards and the rows returned. *)
Definition claim_queued (db : DB) : DB * list Z :=
  match select_queued db with
  | None => (db, [])
  | Some m =>
      ({| db_games :=
            (λ g, if decide (game_id g = m) then set_status "playing" g
                  else g) <$> db_games db;
          db_games_submissions := db_games_submissions db;
          db_games_id_seq := db_games_id_seq db |},
       game_id <$> filter (λ g, game_id g = m) (db_games db))
  end.

(** [grab_queued_game(conn, submissions)]: the database afterwards and the
    pair returned, [(None, None)] or [(result.id, pair)]. *)
Definition grab_queued_game (db : DB) (submissions : list SubmissionRow)
    : DB * (option Z * option (list SubmissionRow)) :=
  let claimed := claim_queued db in
  match head claimed.2 with
  | None => (claimed.1, (None, None))
  | Some result_id =>
      let submission_ids :=
        snd <$> filter (λ gs, gs.1 = result_id)
                       (db_games_submissions claimed.1) in
      (claimed.1,
       (Some result_id,
        Some (filter (λ s, sub_id s ∈ submission_ids) submissions)))
  end.

(** *** Pairings *)

(** A row of [get_recent_games]: [id, status, submission_ids], the last a
    [string_agg] of the ids with commas. *)
Record RecentGame : Type := {
  rg_id : Z;
  rg_status : string;
  rg_submission_ids : string
}.

(** [s.split(sep)] for a separator of one character. *)
Fixpoint split (sep : ascii) (s : string) : list string :=
  match s with
  | EmptyString => [EmptyString]
  | String c s' =>
      if decide (c = sep) then EmptyString :: split sep s'
      else match split sep s' with
           | h :: t => String c h :: t
           | [] => [String c EmptyString]
           end
  end.

Definition digit (c : ascii) : option Z :=
  let n := Z.of_N (N_of_ascii c) in
  if decide (48 ≤ n ≤ 57) then Some (n - 48) else None.

Fixpoint digits (acc : Z) (s : string) : option Z :=
  match s with
  | EmptyString => Some acc
  | String c s' => d ← digit c; digits (10 * acc + d) s'
  end.

(** [int(s)] for the text of an integer as the database writes it, an
    optional minus sign and decimal digits; anything else is a
    [ValueError] here. *)
Definition int (s : string) : result Z :=
  let invalid := Raise (ValueError "invalid literal for int() with base 10") in
  match s with
  | EmptyString => invalid
  | String c s' =>
      if decide (c = "-"%char) then
        match s' with
        | EmptyString => invalid
        | _ => from_option (λ z, Ok (- z)) invalid (digits 0 s')
        end
      else from_option Ok invalid (digits 0 s)
  end.

(** [for x in l], each step of which may raise. *)
Fixpoint for_each {A B : Type} (f : A → result B) (l : list A)
    : result (list B) :=
  match l with
  | [] => Ok []
  | a :: l' => b ← f a; bs ← for_each f l'; Ok (b :: bs)
  end.

(** The list [pairs] of [generate_nonrecent_pairing]. *)
Definition recent_pairs (games : list RecentGame) : result (list (list Z)) :=
  for_each (λ g, submission_ids ← for_each int
                                     (split ","%char (rg_submission_ids g));
                 Ok (sorted (λ i, i) submission_ids))
           (filter (λ g, rg_status g ≠ "queued") games).

(** The random numbers still to come; [random.choice(ids)] uses up one. *)
Definition tape : Type := list nat.

Definition choice (ids : list Z) (t : tape) : result (Z * tape) :=
  match t with
  | [] => OutOfFuel
  | r :: t' =>
      match ids !! (r `mod` length ids)%nat with
      | Some i => Ok (i, t')
      | None => Raise (IndexError "Cannot choose from an empty sequence")
      end
  end.

(** [while b == a: b = random.choice(ids)] *)
Fixpoint choose_other (ids : list Z) (a b : Z) (t : tape)
    : result (Z * tape) :=
  if decide (b = a) then
    match t with
    | [] => OutOfFuel
    | r :: t' =>
        match ids !! (r `mod` length ids)%nat with
        | Some b' => choose_other ids a b' t'
        | None => Raise (IndexError "Cannot choose from an empty sequence")
        end
    end
  else Ok (b, t).

(** [generate_pairing(submissions)] *)
Definition generate_pairing (submissions : list SubmissionRow) (t : tape)
    : result (list Z * tape) :=
  let ids := sub_id <$> submissions in
  if decide (length ids < 2)%nat then
    Raise (Exception ("Not enough submissions " +:+ pretty (length ids)))
  else
    a ← choice ids t;
    b ← choice ids a.2;
    b ← choose_other ids a.1 b.1 b.2;
    Ok (sorted (λ i, i) [a.1; b.1], b.2).

(** [while pair in pairs: ...], [tries] being the tries left. *)
Fixpoint try_again (submissions : list SubmissionRow) (pairs : list (list Z))
    (tries : nat) (pair : list Z) (t : tape) : result (list Z * tape) :=
  if decide (pair ∈ pairs) then
    p ← generate_pairing submissions t;
    match tries with
    | S (S _ as tries') => try_again submissions pairs tries' p.1 p.2
    | _ => Raise (Exception "Unable to generate non-recent pairing")
    end
  else Ok (pair, t).

(** [{s.id: s for s in submissions}] *)
Definition id_to_submissions (submissions : list SubmissionRow)
    : gmap Z SubmissionRow :=
  foldl (λ m s, <[sub_id s := s]> m) ∅ submissions.

(** [generate_nonrecent_pairing(submissions, games)] *)
Definition generate_nonrecent_pairing (submissions : list SubmissionRow)
    (games : list RecentGame) (t : tape)
    : result (list SubmissionRow * tape) :=
  pairs ← recent_pairs games;
  p ← generate_pairing submissions t;
  p ← try_again submissions pairs 200 p.1 p.2;
  found ← for_each (λ i, from_option Ok (Raise (KeyError (pretty i)))
                                     (id_to_submissions submissions !! i))
                   p.1;
  Ok (found, p.2).

(** *** Checking what a submission unpacks to *)

Definition KNOWN_LANGUAGE_EXTENSIONS : list string :=
  ["py"; "cpp"; "cs"; "lua"; "java"; "js"; "ts"].

(** The names that pyrena.py binds at module level: what it imports, its
    settings and its functions. *)
Definition module_names : list string :=
  ["psycopg2"; "base64"; "datetime"; "json"; "logging"; "os"; "pprint";
   "random"; "shutil"; "signal"; "string"; "subprocess"; "sys"; "time";
   "traceback"; "urllib"; "zipfile";
   "GAME_NAME"; "DB_HOST"; "DB_PORT"; "DB_NAME"; "DB_USER"; "DB_PASS";
   "GAMESERVER_HOST"; "GAMESERVER_TCPPORT"; "GAMESERVER_WEBPORT";
   "DROOPY_URL"; "DROOPY_CREDS"; "DOCKERFILE_PATH"; "RUN_FOREVER";
   "LOGFILE_PATH"; "SUBMISSION_CACHE_PATH"; "LOOKBACK_SECONDS";
   "CONTAINER_CPU"; "CONTAINER_RAM"; "MATCH_TIMEOUT"; "DOCKER_BIN";
   "KNOWN_LANGUAGE_EXTENSIONS";
   "main"; "sigint_handler"; "get_latest_submissions";
   "get_all_submissions"; "get_recent_games"; "grab_queued_game";
   "generate_nonrecent_pairing"; "generate_pairing"; "insert_new_game_row";
   "submission_filename"; "unzipped_submission_folder";
   "maybe_download_submission"; "download_submission";
   "maybe_unzip_submission"; "submission_joueur_folder";
   "verify_submission_contents"; "report_prebuild_failure";
   "replace_dockerfile"; "report_build_status"; "submission_docker_tag";
   "buildlog_filename"; "maybe_build_submission_container"; "session_name";
   "generate_password"; "setup_room"; "docker_name"; "match_stdout_path";
   "start_and_connect_client"; "wait_for_clients_to_finish";
   "kill_remaining_clients"; "upload_file_to_droopy"; "get_match_status";
   "wait_for_gameserver_gamelog"; "download_gamelog"; "update_game_failed";
   "update_game_succeeded"; "update_game_submission_logs"].

(** The double quote character. *)
Definition dquote : string := String (ascii_of_nat 34) EmptyString.

Section with_files.

(** The setting [SUBMISSION_CACHE_PATH]; the directories of the file
    system, [os_walk top] being the [dirnames] and [filenames] that
    [next(os.walk(top))] gives, if [top] is a directory; and the text of
    the value of each module-level name. *)
Variable SUBMISSION_CACHE_PATH : string.
Variable os_walk : string → option (list string * list string).
Variable global_text : string → string.

(** A name that a function reads and never assigns is a global: it is
    looked up in the module (no builtin has any of the names read so
    here), and a [NameError] is raised when it is not there. *)
Definition load_global (name : string) : result string :=
  if decide (name ∈ module_names) then Ok (global_text name)
  else Raise (NameError name).

(** [os.path.join(a, b)], [b] not being absolute. *)
Definition path_join (a b : string) : string :=
  if decide (a = "" ∨ last (list_ascii_of_string a) = Some "/"%char)
  then a +:+ b else a +:+ "/" +:+ b.

(** [next(os.walk(top))] *)
Definition next_walk (top : string)
    : result (string * list string * list string) :=
  match os_walk top with
  | Some w => Ok (top, w.1, w.2)
  | None => Raise StopIteration
  end.

Definition unzipped_submission_folder (submission_id : Z) : string :=
  path_join SUBMISSION_CACHE_PATH ("submission_" +:+ pretty submission_id).

(** [for dirname in dirnames: ... else: raise ...] of
    [submission_joueur_folder]. *)
Fixpoint find_joueur (submission_id : Z) (unzipped_folder dirpath : string)
    (dirnames : list string) : result string :=
  match dirnames with
  | [] =>
      Raise (Exception ("Submission " +:+ unzipped_folder +:+
                        " does not unzip to top-level Joueur.xx"))
  | dirname :: rest =>
      if String.prefix "Joueur." dirname then
        if decide (String.substring 7 (String.length dirname - 7) dirname
                   ∈ KNOWN_LANGUAGE_EXTENSIONS)
        then Ok (path_join dirpath dirname)
        else Raise (Exception ("Submission " +:+ pretty submission_id +:+
                               " using unkown language: " +:+ dirname))
      else find_joueur submission_id unzipped_folder dirpath rest
  end.

Definition submission_joueur_folder (submission_id : Z) : result string :=
  let unzipped_folder := unzipped_submission_folder submission_id in
  w ← next_walk unzipped_folder;
  find_joueur submission_id unzipped_folder w.1.1 w.1.2.

(** [verify_submission_contents(submission_id)]; the two messages read
    the name [unzipped_folder], which the function does not assign. *)
Definition verify_submission_contents (submission_id : Z) : result unit :=
  joueur_path ← submission_joueur_folder submission_id;
  w ← next_walk joueur_path;
  let filenames := w.2 in
  if decide (("Makefile" ∉ filenames) ∧ ("makefile" ∉ filenames)) then
    unzipped_folder ← load_global "unzipped_folder";
    Raise (Exception ("Submission " +:+ unzipped_folder +:+
                      " does not have " +:+ dquote +:+ "Makefile" +:+ dquote))
  else if decide ("run" ∉ filenames) then
    unzipped_folder ← load_global "unzipped_folder";
    Raise (Exception ("Submission " +:+ unzipped_folder +:+
                      " does not have " +:+ dquote +:+ "run" +:+ dquote +:+
                      " file"))
  else Ok ().

End with_files.

(** *** Recent games, and a game of the arena's own *)

(** [string_agg(text, ',')] over the rows of a group, of which a join has
    one at least. *)
Fixpoint string_agg (sep : string) (l : list string) : string :=
  match l with
  | [] => ""
  | s :: l' =>
      match l' with
      | [] => s
      | _ => s +:+ sep +:+ string_agg sep l'
      end
  end.

Section with_clock.

(** The column [created_at] of a row of [games], and [current_timestamp]. *)
Variable created_at : Game → Z.
Variable current_timestamp : Z.

(** [get_recent_games(conn, time_backward)]: the join as nested loops, the
    groups in the order in which their first rows come, the ids of a group
    in the order of its rows. *)
Definition get_recent_games (db : DB) (time_backward : Z)
    : list RecentGame :=
  let joined :=
    g ← db_games db; gs ← db_games_submissions db;
    if decide (game_id g = gs.1 ∧
               current_timestamp - time_backward < created_at g)
    then [(g, gs)] else [] in
  (λ grp : Z * string * list (Game * (Z * Z)),
     {| rg_id := grp.1.1; rg_status := grp.1.2;
        rg_submission_ids := string_agg "," ((λ r, pretty r.2.2) <$> grp.2) |})
    <$> TournamentScheduler.group_by
          (λ r, (game_id r.1, game_status r.1)) joined.

End with_clock.

(** [insert_new_game_row(conn, pair)]: the database afterwards and the id
    returned.  (A pair of less than two submissions raises after the row of
    [games] is inserted and before anything is committed.) *)
Definition insert_new_game_row (db : DB) (pair : list SubmissionRow)
    : result (DB * Z) :=
  let game_id := db_games_id_seq db + 1 in
  match pair with
  | s0 :: s1 :: _ =>
      Ok ({| db_games :=
               db_games db ++ [{| game_id := game_id;
                                  game_status := "playing";
                                  winner_id := None; log_url := None |}];
             db_games_submissions :=
               db_games_submissions db
                 ++ [(game_id, sub_id s0); (game_id, sub_id s1)];
             db_games_id_seq := game_id |},
          game_id)
  | _ => Raise (IndexError "tuple index out of range")
  end.

(** *** The Dockerfile of a submission *)

(** [os.path.join(a, b)] *)
Definition os_path_join (a b : string) : string :=
  if String.prefix "/" b then b else path_join a b.

Section with_dockerfiles.

(** The settings [SUBMISSION_CACHE_PATH] and [DOCKERFILE_PATH]; the file
    system: [os_walk] as above, [isfile] for [os.path.isfile], and
    [copy2 src dst] for what [os.path.isfile] is after [shutil.copy2(src,
    dst)], or what that raises. *)
Variables (SUBMISSION_CACHE_PATH DOCKERFILE_PATH : string).
Variable os_walk : string → option (list string * list string).
Variable isfile : string → bool.
Variable copy2 : string → string → result (string → bool).

(** [replace_dockerfile(submission_id)]: what [os.path.isfile] is
    afterwards. *)
Definition replace_dockerfile (submission_id : Z) : result (string → bool) :=
  joueur_path ← submission_joueur_folder SUBMISSION_CACHE_PATH os_walk
                  submission_id;
  let submission_dockerfile_path := os_path_join joueur_path "Dockerfile" in
  let language := default "" (last (split "."%char joueur_path)) in
  let safe_dockerfile_path :=
    os_path_join (os_path_join DOCKERFILE_PATH language) "Dockerfile" in
  if isfile safe_dockerfile_path then
    copy2 safe_dockerfile_path submission_dockerfile_path
      ≫= λ isfile' : string → bool,
           if isfile' submission_dockerfile_path then Ok isfile'
           else Raise (Exception ("Failed to copy dockerfile to " +:+
                                  submission_dockerfile_path))
  else Raise (Exception ("Dockerfile not found at " +:+ safe_dockerfile_path)).

End with_dockerfiles.

(** *** The names of a match *)

(** [session_name(game_id, pair)] *)
Definition session_name (game_id : Z) (pair : list SubmissionRow)
    : result string :=
  match pair with
  | s0 :: s1 :: _ =>
      Ok ("arena_" +:+ pretty game_id +:+ "_" +:+ pretty (sub_id s0) +:+
          "v" +:+ pretty (sub_id s1))
  | _ => Raise (IndexError "tuple index out of range")
  end.

(** [match_stdout_path(submission, session)], for the setting
    [LOGFILE_PATH]. *)
Definition match_stdout_path (LOGFILE_PATH : string)
    (submission : SubmissionRow) (session : string) : string :=
  os_path_join LOGFILE_PATH
    ("stdout_stderr_" +:+ pretty (sub_id submission) +:+ "_" +:+ session).

(** [droopy_filename = stdout_path.split('/')[-1]], of [main]. *)
Definition droopy_filename (stdout_path : string) : string :=
  default "" (last (split "/"%char stdout_path)).

(** *** The result of a match *)

(** What the game server says of a match, as [json.loads] gives it: the
    keys that are read, of the status and of each of its [clients]. *)
Record ClientInfo : Type := {
  ci_name : string;
  ci_won : bool;
  ci_lost : bool;
  ci_reason : string
}.

Record MatchStatus : Type := {
  ms_status : string;
  ms_gamelogFilename : option string;
  ms_clients : list ClientInfo
}.

(** What [urllib.request.urlopen] comes to: a response, or an
    [HTTPError] with the text of its body. *)
Inductive reply : Type :=
| Response (match_status : MatchStatus)
| HTTPError (text : string).

Section with_globals.

Variable global_text : string → string.

(** [get_match_status(session)], the game server being the replies it is
    going to give; the handler of [HTTPError] reads the name [body], which
    the function does not assign. *)
Definition get_match_status (server : list reply)
    : result (MatchStatus * list reply) :=
  match server with
  | [] => OutOfFuel
  | Response match_status :: server' => Ok (match_status, server')
  | HTTPError text :: _ =>
      body ← load_global global_text "body";
      Raise (Exception text)
  end.

(** [while match_status['status'] != 'over' or
    match_status['gamelogFilename'] is None: ...], with the seconds slept
    so far. *)
Fixpoint poll_gamelog (tries : nat) (match_status : MatchStatus)
    (st : list reply * Z) : result (MatchStatus * (list reply * Z)) :=
  if decide (ms_status match_status ≠ "over" ∨
             ms_gamelogFilename match_status = None) then
    match tries with
    | S (S _ as tries') =>
        r ← get_match_status st.1;
        poll_gamelog tries' r.1 (r.2, st.2 + Z.of_nat tries')
    | _ => Raise (Exception "Gameserver did not respond with match results")
    end
  else Ok (match_status, st).

(** [wait_for_gameserver_gamelog(session)] *)
Definition wait_for_gameserver_gamelog (st : list reply * Z)
    : result (MatchStatus * (list reply * Z)) :=
  r ← get_match_status st.1;
  poll_gamelog 5 r.1 (r.2, st.2).

End with_globals.

(** [winner_name] after [for client_info in match_status['clients']] of
    [main], from [winner_name]. *)
Definition winner_name_of (clients : list ClientInfo)
    (winner_name : option string) : option string :=
  foldl (λ winner_name client_info,
           if ci_won client_info then Some (ci_name client_info)
           else winner_name)
        winner_name clients.

(** [winner_id = next(s.id for s in pair if s.name == winner_name)], of
    [main], after that loop. *)
Definition winner_id_of (pair : list SubmissionRow)
    (match_status : MatchStatus) : result Z :=
  let winner_name := winner_name_of (ms_clients match_status) None in
  match filter (λ s, Some (sub_name s) = winner_name) pair with
  | s :: _ => Ok (sub_id s)
  | [] => Raise StopIteration
  end.

End Pyrena.

(** * Properties *)

(** ** Sorting *)
Module SortedProofs.

Lemma insert_by_elem {A} (key : A → Z) a l x :
  x ∈ insert_by key a l → x = a ∨ x ∈ l.
Proof.
  induction l as [|b l IH]; simpl.
  - rewrite list_elem_of_singleton. by left.
  - case_decide; rewrite !elem_of_cons; [tauto|].
    intros [->|Hx]; [tauto|]. destruct (IH Hx); tauto.
Qed.

Lemma sorted_elem {A} (key : A → Z) (l : list A) x :
  x ∈ sorted key l → x ∈ l.
Proof.
  unfold sorted.
  assert (∀ acc, x ∈ foldl (λ acc a, insert_by key a acc) acc l →
                 x ∈ acc ∨ x ∈ l) as H.
  { induction l as [|a l IH]; intros acc Hx; simpl in *; [by left|].
    destruct (IH _ Hx) as [Hacc|Hl]; [|right; by right].
    destruct (insert_by_elem _ _ _ _ Hacc) as [->|?];
      [right; left|by left]. }
  intros Hx. destruct (H [] Hx) as [Hnil|?]; [|done].
  by apply elem_of_nil in Hnil.
Qed.

Lemma length_insert_by {A} (key : A → Z) a l :
  length (insert_by key a l) = S (length l).
Proof.
  induction l as [|b l IH]; simpl; [done|].
  case_decide; simpl; by rewrite ?IH.
Qed.

Lemma length_sorted {A} (key : A → Z) (l : list A) :
  length (sorted key l) = length l.
Proof.
  unfold sorted.
  assert (∀ acc, length (foldl (λ acc a, insert_by key a acc) acc l)
                 = (length acc + length l)%nat) as H.
  { induction l as [|a l IH]; intros acc; simpl; [lia|].
    rewrite IH, length_insert_by. lia. }
  by rewrite H.
Qed.

Lemma insert_by_elem_2 {A} (key : A → Z) a l x :
  x = a ∨ x ∈ l → x ∈ insert_by key a l.
Proof.
  induction l as [|b l IH]; simpl.
  - intros [->|H]; [left|by apply elem_of_nil in H].
  - case_decide; rewrite !elem_of_cons; [tauto|].
    intros [->|[->|Hx]]; [right; apply IH; by left|by left|].
    right. apply IH. by right.
Qed.

Lemma sorted_elem_2 {A} (key : A → Z) (l : list A) x :
  x ∈ l → x ∈ sorted key l.
Proof.
  unfold sorted.
  assert (∀ acc, x ∈ acc ∨ x ∈ l →
                 x ∈ foldl (λ acc a, insert_by key a acc) acc l) as H.
  { induction l as [|a l IH]; intros acc Hx; simpl.
    - destruct Hx as [?|Hx]; [done|by apply elem_of_nil in Hx].
    - apply IH. rewrite elem_of_cons in Hx.
      destruct Hx as [?|[->|?]]; [left|left|by right];
        apply insert_by_elem_2; tauto. }
  intros Hx. apply H. by right.
Qed.

(** The first element of a sorted list has the least key. *)
Definition least_first {A} (key : A → Z) (l : list A) : Prop :=
  ∀ m x, head l = Some m → x ∈ l → key m ≤ key x.

Lemma insert_by_least_first {A} (key : A → Z) a l :
  least_first key l → least_first key (insert_by key a l).
Proof.
  intros Hl m x. destruct l as [|b l]; simpl.
  - intros [= <-] Hx. apply list_elem_of_singleton in Hx as ->. done.
  - case_decide as Hlt; simpl; intros [= <-] Hx.
    + apply elem_of_cons in Hx as [->|Hx]; [done|].
      specialize (Hl b x eq_refl Hx). lia.
    + apply elem_of_cons in Hx as [->|Hx]; [done|].
      apply insert_by_elem in Hx as [->|Hx]; [lia|].
      apply (Hl b x eq_refl). by right.
Qed.

Lemma sorted_least_first {A} (key : A → Z) (l : list A) :
  least_first key (sorted key l).
Proof.
  unfold sorted.
  assert (∀ acc, least_first key acc →
            least_first key (foldl (λ acc a, insert_by key a acc) acc l))
    as H.
  { induction l as [|a l IH]; intros acc Hacc; simpl; [done|].
    by apply IH, insert_by_least_first. }
  apply H. by intros m x [=].
Qed.

End SortedProofs.

(** ** The bracket engine *)
Module SchedulerProofs.
Import TournamentScheduler.
Import SortedProofs.

(** Submissions to try the definitions on. *)
Definition row (i : Z) : SubmissionRow :=
  {| sub_id := i; sub_name := "team"; sub_version := 1;
     sub_status := "finished"; sub_created_at := 0 |}.

Definition team (i : Z) : Submission := Real (row i).

Lemma seq_mul_singleton {A} (x : A) (z : Z) :
  seq_mul [x] (PyInt z) = Ok (replicate (Z.to_nat z) x).
Proof.
  unfold seq_mul. f_equal.
  induction (Z.to_nat z) as [|n IH]; simpl; [done|]. by rewrite IH.
Qed.

(** *** [generate_initial_pairing] *)

Lemma append_in_turn_spec shuffled nodes : ∀ i,
  (i + length nodes ≤ length shuffled)%nat →
  ∃ nodes',
    append_in_turn shuffled i nodes = Ok (nodes', (i + length nodes)%nat) ∧
    length nodes' = length nodes ∧
    ∀ k node, nodes !! k = Some node →
      ∃ s, shuffled !! (i + k)%nat = Some s ∧
           nodes' !! k =
             Some (set_submissions (submissions node ++ [s]) node).
Proof.
  induction nodes as [|node rest IH]; intros i Hlen; simpl in *.
  - exists []. rewrite Nat.add_0_r. by split_and!.
  - destruct (lookup_lt_is_Some_2 shuffled i) as [s Hs]; [lia|].
    rewrite Hs.
    destruct (IH (S i)) as (rest' & Hrun & Hl & Hk); [lia|].
    rewrite Hrun. simpl.
    eexists. split_and!.
    + do 2 f_equal. lia.
    + simpl. by rewrite Hl.
    + intros [|k] node' Hnode; simpl in *.
      * simplify_eq. exists s. by rewrite Nat.add_0_r.
      * destruct (Hk k node' Hnode) as (s' & Hs' & Hn').
        exists s'. split; [|done].
        by replace (i + S k)%nat with (S i + k)%nat by lia.
Qed.

Lemma interleave_perm {A} (l1 : list A) : ∀ l2,
  length l1 = length l2 →
  mjoin (zip_with (λ a b, [a; b]) l1 l2) ≡ₚ l1 ++ l2.
Proof.
  induction l1 as [|a l1 IH]; intros [|b l2] Hlen; simplify_eq/=; [done|].
  rewrite (IH l2) by done.
  constructor. by rewrite Permutation_middle.
Qed.

Lemma pow2_log2_up_bounds (n : Z) :
  2 ≤ n →
  let w := 2 ^ (Z.log2_up n - 1) in
  0 < w ∧ w < n ∧ n ≤ 2 * w.
Proof.
  intros Hn w.
  pose proof (Z.log2_up_spec n ltac:(lia)) as [Hlo Hhi].
  assert (0 < Z.log2_up n) by (apply Z.log2_up_pos; lia).
  replace (Z.pred (Z.log2_up n)) with (Z.log2_up n - 1) in Hlo by lia.
  assert (2 ^ Z.log2_up n = 2 * w) as Hw.
  { unfold w. rewrite <- Z.pow_succ_r by lia. f_equal. lia. }
  subst w. split_and!; [apply Z.pow_pos_nonneg; lia|lia|lia].
Qed.

Section initial_pairing.

Variable shuffle : list Submission → list Submission.
Hypothesis shuffle_perm : ∀ l, shuffle l ≡ₚ l.

(** C5.  For a list of [n >= 2] submissions [generate_initial_pairing]
    returns [width = 2^(ceil(log2 n) - 1)] nodes; leaf [k] holds exactly the
    entries at positions [k] and [k + width] of the shuffled list padded
    with [2*width - n] BYEs (and [n <= 2*width], so that this is the number
    of BYEs appended), and all the entries together are a rearrangement of
    the submissions and those BYEs. *)
Theorem generate_initial_pairing_leaves (subs : list Submission) :
  let n := length subs in
  (2 ≤ n)%nat →
  let width := Z.to_nat (2 ^ (Z.log2_up (Z.of_nat n) - 1)) in
  let padded := shuffle subs ++ replicate (2 * width - n) BYE in
  (n ≤ 2 * width)%nat ∧
  ∃ nodes,
    generate_initial_pairing shuffle subs = Ok nodes ∧
    length nodes = width ∧
    (∀ k, (k < width)%nat →
       ∃ node a b,
         nodes !! k = Some node ∧
         padded !! k = Some a ∧ padded !! (k + width)%nat = Some b ∧
         submissions node = [a; b]) ∧
    mjoin (submissions <$> nodes) ≡ₚ subs ++ replicate (2 * width - n) BYE.
Proof.
  intros n Hn width padded.
  destruct (pow2_log2_up_bounds (Z.of_nat n) ltac:(lia)) as (Hw0 & Hwn & Hn2w).
  assert (Hshuf : length (shuffle subs) = n) by by rewrite shuffle_perm.
  split; [lia|].
  unfold generate_initial_pairing, ceil_log2.
  rewrite decide_True by lia. cbn [mbind result_bind].
  unfold pow2. rewrite decide_True by (apply Z.lt_le_pred, Z.log2_up_pos; lia).
  cbn [num_mul num_sub]. rewrite seq_mul_singleton. cbn [mbind result_bind range].
  rewrite Hshuf. fold n.
  replace (Z.to_nat (2 * 2 ^ (Z.log2_up (Z.of_nat n) - 1) - Z.of_nat n))
    with (2 * width - n)%nat by lia.
  fold width padded.
  assert (Hpad : length padded = (2 * width)%nat).
  { unfold padded. rewrite length_app, length_replicate. lia. }
  set (nodes0 := map (λ _ : nat, Node_init) (seq 0 width)).
  assert (Hl0 : length nodes0 = width)
    by (unfold nodes0; by rewrite length_map, length_seq).
  destruct (append_in_turn_spec padded nodes0 0) as (n1 & Hr1 & Hl1 & Hk1);
    [lia|].
  rewrite Hr1. simpl. rewrite Hl0.
  destruct (append_in_turn_spec padded n1 width) as (n2 & Hr2 & Hl2 & Hk2);
    [lia|].
  rewrite Hr2. simpl.
  assert (Hnode : ∀ k, (k < width)%nat →
            ∃ a b, padded !! k = Some a ∧ padded !! (k + width)%nat = Some b ∧
                   n2 !! k = Some (set_submissions [a; b] Node_init)).
  { intros k Hk.
    assert (nodes0 !! k = Some Node_init) as H0.
    { unfold nodes0. rewrite list_lookup_fmap, lookup_seq_lt by done. done. }
    destruct (Hk1 k _ H0) as (a & Ha & H1).
    destruct (Hk2 k _ H1) as (b & Hb & H2).
    exists a, b. simpl in *. split_and!; [done| |done].
    by rewrite Nat.add_comm. }
  exists n2. split_and!; [done|lia| |].
  - intros k Hk. destruct (Hnode k Hk) as (a & b & Ha & Hb & H2).
    by exists (set_submissions [a; b] Node_init), a, b.
  - assert (submissions <$> n2
            = zip_with (λ a b, [a; b]) (take width padded) (drop width padded))
      as ->.
    { apply list_eq. intros k. rewrite list_lookup_fmap, lookup_zip_with.
      destruct (decide (k < width)%nat) as [Hk|Hk].
      - destruct (Hnode k Hk) as (a & b & Ha & Hb & ->).
        rewrite lookup_take_lt, Ha, lookup_drop by done. simpl.
        by rewrite Nat.add_comm, Hb.
      - rewrite lookup_ge_None_2 by lia.
        by rewrite lookup_take_ge by lia. }
    rewrite interleave_perm, take_drop.
    + unfold padded. by rewrite shuffle_perm.
    + rewrite length_take, length_drop. lia.
Qed.

End initial_pairing.

(** Five submissions. *)
Definition five_submissions : list Submission :=
  team <$> [1; 2; 3; 4; 5].

(** C5 at the five submissions 1..5, with [rev] for the shuffle: 4 leaves,
    3 BYEs. *)
Lemma generate_initial_pairing_leaves_witness :
  (5 ≤ 2 * 4)%nat ∧
  ∃ nodes,
    generate_initial_pairing (@rev _) five_submissions = Ok nodes ∧
    length nodes = 4%nat ∧
    (∀ k, (k < 4)%nat →
       ∃ node a b,
         nodes !! k = Some node ∧
         (rev five_submissions ++ replicate 3 BYE) !! k = Some a ∧
         (rev five_submissions ++ replicate 3 BYE) !! (k + 4)%nat = Some b ∧
         submissions node = [a; b]) ∧
    mjoin (submissions <$> nodes) ≡ₚ five_submissions ++ replicate 3 BYE.
Proof.
  exact (generate_initial_pairing_leaves (@rev _)
           (λ l, Permutation_sym (Permutation_rev l))
           five_submissions ltac:(simpl; lia)).
Defined.

(** C10, as the code has it.  One submission: [width] is the float
    [2**-1 = 0.5], the number of BYEs to append is the float [2*0.5 - 1],
    and repeating the list [[BYE]] that many times raises the [TypeError] of
    a sequence multiplied by a float; no nodes are returned, and
    [range(width)] is not reached. *)
Theorem generate_initial_pairing_one_submission
    (shuffle : list Submission → list Submission) (s : Submission)
    (shuffled : list Submission) :
  pow2 (Z.log2_up 1 - 1) = PyFloat (1 # 2) ∧
  (∃ q, num_sub (num_mul (PyInt 2) (pow2 (Z.log2_up 1 - 1)))
                (PyInt (Z.of_nat (length shuffled))) = PyFloat q) ∧
  generate_initial_pairing shuffle [s]
  = Raise (TypeError "can't multiply sequence by non-int of type 'float'").
Proof. split_and!; [done|by eexists|done]. Qed.

(** C10 as it was stated fails for where the exception comes from:
    [range(width)] would raise for the float [width], but what
    [generate_initial_pairing] raises for one submission is not that
    exception. *)
Lemma generate_initial_pairing_one_not_range :
  range (pow2 (Z.log2_up 1 - 1))
  = Raise (TypeError "'float' object cannot be interpreted as an integer") ∧
  generate_initial_pairing (λ l, l) [team 1]
  ≠ Raise (TypeError "'float' object cannot be interpreted as an integer").
Proof. split; [done|]. vm_compute. discriminate. Qed.

(** *** Loops over a result *)

Section fold_result.

Context {A B : Type} (step : B → A → result A).

Lemma foldl_bind_Raise e l :
  foldl (λ r b, r ≫= step b) (Raise e) l = Raise e.
Proof. by induction l. Qed.

Lemma foldl_bind_OutOfFuel l :
  foldl (λ r b, r ≫= step b) OutOfFuel l = OutOfFuel.
Proof. by induction l. Qed.

(** A property that every step of the loop keeps holds when the loop is
    over. *)
Lemma foldl_bind_inv (P : A → Prop) l :
  (∀ b a a', b ∈ l → P a → step b a = Ok a' → P a') →
  ∀ a a', P a → foldl (λ r b, r ≫= step b) (Ok a) l = Ok a' → P a'.
Proof.
  induction l as [|b l IH]; intros Hstep a a' Ha Hrun; simpl in *.
  - by simplify_eq.
  - destruct (step b a) as [a1| |] eqn:Hb; simpl in Hrun.
    + eapply (IH (λ b' x x' Hin, Hstep b' x x' (list_elem_of_further _ _ _ Hin)));
        [|done]. eapply Hstep; [|done..]. left.
    + by rewrite foldl_bind_Raise in Hrun.
    + by rewrite foldl_bind_OutOfFuel in Hrun.
Qed.

(** The loop does not run out of fuel when no step does, from any state
    the earlier steps can leave. *)
Lemma foldl_bind_fuel (P : A → Prop) l :
  (∀ b a a', b ∈ l → P a → step b a = Ok a' → P a') →
  (∀ b a, b ∈ l → P a → step b a ≠ OutOfFuel) →
  ∀ a, P a → foldl (λ r b, r ≫= step b) (Ok a) l ≠ OutOfFuel.
Proof.
  induction l as [|b l IH]; intros Hstep Hfuel a Ha; simpl; [done|].
  destruct (step b a) as [a1| |] eqn:Hb; simpl.
  - apply IH; [intros; eapply Hstep; [by right|done..]
              |intros; eapply Hfuel; [by right|done]|].
    eapply Hstep; [left|done..].
  - by rewrite foldl_bind_Raise.
  - exfalso. eapply Hfuel; [left|done..].
Qed.

End fold_result.

(** *** Decided nodes *)

Definition decided (node : Node) : Prop :=
  is_Some (winner node) ∧ is_Some (loser node).

(** Every node that is decided in [nodes] is the same node in [nodes']. *)
Definition keeps_decided (nodes nodes' : list Node) : Prop :=
  ∀ j node, nodes !! j = Some node → decided node → nodes' !! j = Some node.

(** The feeders of a node come before it in [nodes]: a node is made from
    nodes that exist already. *)
Definition feeders_before (nodes : list Node) : Prop :=
  ∀ i node f, nodes !! i = Some node → f ∈ feeders node → (f < i)%nat.

Lemma keeps_decided_refl nodes : keeps_decided nodes nodes.
Proof. by intros j node Hj _. Qed.

Lemma keeps_decided_trans n1 n2 n3 :
  keeps_decided n1 n2 → keeps_decided n2 n3 → keeps_decided n1 n3.
Proof. intros H12 H23 j node Hj Hd. apply H23; [|done]. by apply H12. Qed.

Lemma propogate_winners_lookup_ne i j nodes :
  i ≠ j → propogate_winners i nodes !! j = nodes !! j.
Proof.
  intros Hij. unfold propogate_winners.
  destruct (nodes !! i); [|done]. by rewrite list_lookup_insert_ne.
Qed.

Lemma propogate_winners_feeders i nodes :
  feeders <$> propogate_winners i nodes = feeders <$> nodes.
Proof.
  unfold propogate_winners. destruct (nodes !! i) as [node|] eqn:Hi; [|done].
  rewrite list_fmap_insert. simpl. apply list_insert_id.
  by rewrite list_lookup_fmap, Hi.
Qed.

Lemma handle_byes_feeders node :
  feeders (handle_byes node) = feeders node.
Proof. unfold handle_byes. by repeat case_match. Qed.

Lemma handle_self_feeders node :
  feeders (handle_self node) = feeders node.
Proof. unfold handle_self. by repeat case_match. Qed.

Section declare.

Variable BEST_OF : Z.

Lemma declare_from_counts_feeders items : ∀ node node',
  declare_from_counts BEST_OF items node = Ok node' →
  feeders node' = feeders node.
Proof.
  induction items as [|[w wins] items IH]; intros node node' Hrun;
    simpl in Hrun; [by simplify_eq|].
  case_decide; [|by apply IH].
  destruct (find_side _ _); [|done]. by rewrite (IH _ _ Hrun).
Qed.

Lemma declare_from_games_fuel node :
  declare_from_games BEST_OF node ≠ OutOfFuel.
Proof.
  unfold declare_from_games. destruct (winner node); [done|].
  generalize (Counter (winner_ids (games node))). intros items.
  revert node. induction items as [|[w wins] items IH]; intros node;
    cbn [declare_from_counts]; [done|].
  case_decide; [|done]. by destruct (find_side _ _).
Qed.

Lemma declare_keeps_decided fuel : ∀ i nodes nodes',
  declare_and_propogate_winners BEST_OF fuel i nodes = Ok nodes' →
  keeps_decided nodes nodes'.
Proof.
  induction fuel as [|fuel IH]; intros i nodes nodes' Hrun; [by simpl in Hrun|].
  simpl in Hrun.
  destruct (nodes !! i) as [node|] eqn:Hi;
    [|simplify_eq; apply keeps_decided_refl].
  case_decide as Hdec; [simplify_eq; apply keeps_decided_refl|].
  destruct (foldl _ _ _) as [nodes1| |] eqn:Hfold; try done.
  simpl in Hrun.
  assert (keeps_decided nodes nodes1) as H1.
  { eapply (foldl_bind_inv _ (keeps_decided nodes));
      [|apply keeps_decided_refl|exact Hfold].
    intros f a a' _ Ha Hstep. eapply keeps_decided_trans; [done|].
    by eapply IH. }
  intros j nodej Hj Hd.
  assert (i ≠ j) as Hij by (intros ->; by simplify_eq).
  destruct (propogate_winners i nodes1 !! i) as [node2|] eqn:Hi2.
  - destruct (declare_from_games _ _) as [node3| |]; simplify_eq/=.
    rewrite list_lookup_insert_ne, propogate_winners_lookup_ne by done.
    by apply H1.
  - simplify_eq. rewrite propogate_winners_lookup_ne by done. by apply H1.
Qed.

Lemma declare_feeders fuel : ∀ i nodes nodes',
  declare_and_propogate_winners BEST_OF fuel i nodes = Ok nodes' →
  feeders <$> nodes' = feeders <$> nodes.
Proof.
  induction fuel as [|fuel IH]; intros i nodes nodes' Hrun; [by simpl in Hrun|].
  simpl in Hrun.
  destruct (nodes !! i) as [node|] eqn:Hi; [|by simplify_eq].
  case_decide as Hdec; [by simplify_eq|].
  destruct (foldl _ _ _) as [nodes1| |] eqn:Hfold; try done.
  simpl in Hrun.
  assert (feeders <$> nodes1 = feeders <$> nodes) as H1.
  { eapply (foldl_bind_inv _ (λ a, feeders <$> a = feeders <$> nodes));
      [|done|exact Hfold].
    intros f a a' _ Ha Hstep. rewrite <- Ha. by eapply IH. }
  rewrite <- H1, <- (propogate_winners_feeders i nodes1).
  destruct (propogate_winners i nodes1 !! i) as [node2|] eqn:Hi2;
    [|by simplify_eq].
  destruct (declare_from_games _ _) as [node3| |] eqn:Hg; simplify_eq/=.
  rewrite list_fmap_insert. apply list_insert_id.
  rewrite list_lookup_fmap, Hi2. simpl. f_equal.
  unfold declare_from_games in Hg.
  assert (feeders node3 = feeders (handle_self (handle_byes node2))) as ->.
  { destruct (winner (handle_self (handle_byes node2)));
      [by simplify_eq|].
    by eapply declare_from_counts_feeders. }
  by rewrite handle_self_feeders, handle_byes_feeders.
Qed.

Lemma feeders_before_ext nodes nodes' :
  feeders <$> nodes' = feeders <$> nodes →
  feeders_before nodes → feeders_before nodes'.
Proof.
  intros Heq Hwf i node f Hi Hf.
  assert ((feeders <$> nodes) !! i = Some (feeders node)) as Hi'
    by (by rewrite <- Heq, list_lookup_fmap, Hi).
  rewrite list_lookup_fmap in Hi'.
  destruct (nodes !! i) as [node0|] eqn:Hi0; simplify_eq/=.
  eapply Hwf; [done|]. by rewrite Hi'.
Qed.

(** The recursion ends: [i + 1] levels are enough for the node at [i]. *)
Lemma declare_enough_fuel fuel : ∀ i nodes,
  feeders_before nodes → (i < fuel)%nat →
  declare_and_propogate_winners BEST_OF fuel i nodes ≠ OutOfFuel.
Proof.
  induction fuel as [|fuel IH]; intros i nodes Hwf Hfuel; [lia|].
  simpl.
  destruct (nodes !! i) as [node|] eqn:Hi; [|done].
  case_decide as Hdec; [done|].
  destruct (foldl _ _ _) as [nodes1| |] eqn:Hfold.
  - cbn [mbind result_bind].
    destruct (propogate_winners i nodes1 !! i) as [node2|]; [|done].
    pose proof (declare_from_games_fuel (handle_self (handle_byes node2))).
    by destruct (declare_from_games _ _).
  - done.
  - exfalso. revert Hfold.
    apply (foldl_bind_fuel _ (λ a, feeders <$> a = feeders <$> nodes));
      [| |done].
    + intros f a a' _ Ha Hstep. rewrite <- Ha. by eapply declare_feeders.
    + intros f a Hf Ha. apply IH.
      * by eapply feeders_before_ext.
      * specialize (Hwf i node f Hi Hf). lia.
Qed.

End declare.

(** *** [update_game_status] *)

Lemma by_id_lookup games : ∀ k g,
  by_id games !! k = Some g → g ∈ games ∧ game_id g = k.
Proof.
  unfold by_id.
  assert (∀ (m : gmap Z Game) k g,
            foldl (λ m g, <[game_id g := g]> m) m games !! k = Some g →
            (g ∈ games ∧ game_id g = k) ∨ m !! k = Some g) as H.
  { induction games as [|g0 games IH]; intros m k g Hk; simpl in *; [by right|].
    destruct (IH _ _ _ Hk) as [[Hin Hid]|Hm].
    - left. split; [by right|done].
    - destruct (decide (game_id g0 = k)) as [<-|Hne].
      + rewrite lookup_insert_eq in Hm. simplify_eq. left. split; [left|done].
      + rewrite lookup_insert_ne in Hm by done. by right. }
  intros k g Hk. destruct (H _ _ _ Hk) as [?|Hm]; [done|].
  by rewrite lookup_empty in Hm.
Qed.

Lemma elem_of_unfinished_game_ids nodes z :
  z ∈ unfinished_game_ids nodes ↔
  ∃ node game, node ∈ nodes ∧ game ∈ games node ∧
               game_status game ≠ "finished" ∧ game_id game = z.
Proof.
  unfold unfinished_game_ids. rewrite list_elem_of_bind. split.
  - intros (node & Hz & Hnode). apply list_elem_of_bind in Hz as (game & Hz & Hg).
    case_decide; [|by apply not_elem_of_nil in Hz].
    apply list_elem_of_singleton in Hz. by exists node, game.
  - intros (node & game & Hnode & Hg & Hst & <-).
    exists node. split; [|done]. apply list_elem_of_bind.
    exists game. split; [|done]. rewrite decide_True by done. left.
Qed.

(** *** Counting wins *)

(** The games of [games] that [w] won. *)
Definition wins_of (games : list Game) (w : Z) : nat :=
  length (filter (λ g, winner_id g = Some w) games).

(** The elements of a list, each once, in the order of first appearance. *)
Fixpoint first_seen (l : list Z) : list Z :=
  match l with
  | [] => []
  | x :: l => x :: filter (λ y, y ≠ x) (first_seen l)
  end.

Definition count (k : Z) (l : list Z) : nat :=
  length (filter (λ y, y = k) l).

Lemma elem_of_first_seen l x : x ∈ first_seen l ↔ x ∈ l.
Proof.
  induction l as [|y l IH]; simpl; [done|].
  rewrite !elem_of_cons, list_elem_of_filter, IH.
  destruct (decide (x = y)); naive_solver.
Qed.

Lemma NoDup_first_seen l : NoDup (first_seen l).
Proof.
  induction l as [|y l IH]; simpl; constructor.
  - rewrite list_elem_of_filter. naive_solver.
  - by apply NoDup_filter.
Qed.

Lemma counter_add_fresh k c :
  k ∉ c.*1 → counter_add k c = c ++ [(k, 1%nat)].
Proof.
  induction c as [|[k' n] c IH]; simpl; [done|].
  rewrite not_elem_of_cons. intros [Hne Hnot].
  rewrite decide_False by done. by rewrite IH.
Qed.

Lemma counter_add_seen k (f : Z → nat) ks :
  NoDup ks → k ∈ ks →
  counter_add k ((λ x, (x, f x)) <$> ks)
  = (λ x, (x, if decide (x = k) then S (f x) else f x)) <$> ks.
Proof.
  induction ks as [|y ks IH]; simpl; [by rewrite elem_of_nil|].
  rewrite NoDup_cons, elem_of_cons. intros [Hy Hnd] Hin.
  destruct (decide (k = y)) as [->|Hne].
  - rewrite decide_True by done. f_equal.
    apply list_fmap_ext. intros i x Hx.
    rewrite decide_False; [done|]. intros ->.
    by apply list_elem_of_lookup_2 in Hx.
  - rewrite (decide_False (P := y = k)) by done.
    destruct Hin as [?|Hin]; [done|]. f_equal. by apply IH.
Qed.

Lemma count_cons k x l :
  count k (x :: l) = if decide (x = k) then S (count k l) else count k l.
Proof. unfold count. rewrite filter_cons. by case_decide. Qed.

Lemma foldl_counter l : ∀ ks (f : Z → nat),
  NoDup ks → (∀ x, x ∉ ks → f x = 0%nat) →
  foldl (λ c k, counter_add k c) ((λ x, (x, f x)) <$> ks) l
  = (λ x, (x, (f x + count x l)%nat))
      <$> (ks ++ filter (λ x, x ∉ ks) (first_seen l)).
Proof.
  induction l as [|k l IH]; intros ks f Hnd Hf; cbn [foldl first_seen].
  - rewrite filter_nil, app_nil_r. apply list_fmap_ext. intros i x _.
    unfold count. simpl. by rewrite Nat.add_0_r.
  - set (f' := λ x, if decide (x = k) then S (f x) else f x).
    assert (∀ x, (f' x + count x l = f x + count x (k :: l))%nat) as Hcount.
    { intros x. rewrite count_cons. unfold f'.
      destruct (decide (x = k)) as [->|Hne].
      - rewrite decide_True by done. lia.
      - by rewrite decide_False by done. }
    destruct (decide (k ∈ ks)) as [Hin|Hnot].
    + rewrite counter_add_seen by done. fold f'.
      rewrite IH; [|done|].
      * rewrite filter_cons_False by naive_solver.
        rewrite list_filter_filter_l by (intros x Hx ->; done).
        apply list_fmap_ext. intros i x _. f_equal. apply Hcount.
      * intros x Hx. unfold f'. rewrite decide_False; [by apply Hf|].
        by intros ->.
    + rewrite counter_add_fresh
        by (rewrite <- list_fmap_compose; simpl; by rewrite list_fmap_id).
      assert (((λ x, (x, f x)) <$> ks) ++ [(k, 1%nat)]
              = (λ x, (x, f' x)) <$> (ks ++ [k])) as ->.
      { rewrite fmap_app. simpl. unfold f' at 2.
        rewrite decide_True, Hf by done. f_equal.
        apply list_fmap_ext. intros i x Hx. unfold f'.
        rewrite decide_False; [done|]. intros ->.
        by apply list_elem_of_lookup_2 in Hx. }
      rewrite IH.
      * rewrite filter_cons_True by done.
        rewrite <- (assoc_L (++)). simpl.
        rewrite list_filter_filter.
        rewrite (list_filter_iff (λ x, x ∉ ks ++ [k]) (λ x, (x ∉ ks) ∧ x ≠ k)).
        -- apply list_fmap_ext. intros i x _. f_equal. apply Hcount.
        -- intros x. rewrite elem_of_app, list_elem_of_singleton. tauto.
      * apply NoDup_app. split_and!; [done| |apply NoDup_singleton].
        intros x Hx. rewrite list_elem_of_singleton. by intros ->.
      * intros x. rewrite elem_of_app, list_elem_of_singleton.
        intros Hx. unfold f'. rewrite decide_False by tauto.
        apply Hf. tauto.
Qed.

(** [Counter(l)] holds each element of [l] once, in the order of first
    appearance, with the number of times it occurs. *)
Lemma Counter_first_seen l :
  Counter l = (λ x, (x, count x l)) <$> first_seen l.
Proof.
  pose proof (foldl_counter l [] (λ _, 0%nat) NoDup_nil_2
                (λ _ _, eq_refl)) as H.
  unfold Counter. simpl in H. rewrite H. f_equal.
  generalize (first_seen l). intros ks.
  induction ks as [|x ks IH]; [done|].
  rewrite filter_cons_True by apply not_elem_of_nil. by rewrite IH.
Qed.

Lemma count_winner_ids games w :
  w ≠ 0 → count w (winner_ids games) = wins_of games w.
Proof.
  intros Hw. unfold count, wins_of, winner_ids.
  induction games as [|g games IH]; [done|].
  rewrite filter_cons. csimpl.
  destruct (winner_id g) as [w'|]; csimpl.
  - destruct (decide (w' = 0)) as [->|Hne]; csimpl.
    + rewrite decide_False by (intros [=]; done). done.
    + rewrite filter_cons.
      destruct (decide (w' = w)) as [->|Hne'].
      * rewrite decide_True by done. csimpl. by rewrite IH.
      * rewrite decide_False by (intros [=]; done). done.
  - done.
Qed.

Lemma elem_of_winner_ids games w :
  w ∈ winner_ids games ↔ w ≠ 0 ∧ ∃ g, g ∈ games ∧ winner_id g = Some w.
Proof.
  unfold winner_ids. rewrite list_elem_of_omap. split.
  - intros (g & Hg & Hw). destruct (winner_id g) as [w'|] eqn:Hwg; [|done].
    case_decide; simplify_eq. split; [done|]. by exists g.
  - intros (Hne & g & Hg & Hw). exists g. split; [done|].
    rewrite Hw. by rewrite decide_False.
Qed.

(** *** Winners from games *)

(** The winner ids with more than [BEST_OF / 2] wins among [games], in the
    order in which their first win appears. *)
Definition over_half (BEST_OF : Z) (games : list Game) : list Z :=
  filter (λ w, BEST_OF < 2 * Z.of_nat (wins_of games w))
         (first_seen (winner_ids games)).

(** The submission of [x], [y] with id [w], and the other one. *)
Definition side_of (x y : Submission) (w : Z)
    : option (Submission * Submission) :=
  if decide (id x = w) then Some (x, y)
  else if decide (id y = w) then Some (y, x)
  else None.

Lemma find_side_pair x y w : find_side [x; y] w = side_of x y w.
Proof.
  unfold find_side, side_of. cbn.
  destruct (decide (id x = w)); [done|]. cbn.
  by destruct (decide (id y = w)).
Qed.

Lemma set_winner_loser_twice a b c d node :
  set_winner_loser a b (set_winner_loser c d node) = set_winner_loser a b node.
Proof. done. Qed.

Lemma half_lt (b : Z) (n : nat) :
  b `div` 2 < Z.of_nat n ↔ b < 2 * Z.of_nat n.
Proof.
  pose proof (Z.div_mod b 2 ltac:(lia)).
  pose proof (Z.mod_pos_bound b 2 ltac:(lia)). lia.
Qed.

Section winners.

Variable BEST_OF : Z.

Definition crowned (x y : Submission) (ids : list Z) (node : Node) : Node :=
  match last ids ≫= side_of x y with
  | Some side => set_winner_loser (Some side.1) (Some side.2) node
  | None => node
  end.

Lemma declare_from_counts_pair x y items : ∀ node,
  submissions node = [x; y] →
  let ids := (filter (λ kv, BEST_OF `div` 2 < Z.of_nat kv.2) items).*1 in
  (Forall (λ w, is_Some (side_of x y w)) ids →
   declare_from_counts BEST_OF items node = Ok (crowned x y ids node)) ∧
  (Exists (λ w, side_of x y w = None) ids →
   ∃ msg, declare_from_counts BEST_OF items node = Raise (Exception msg)).
Proof.
  induction items as [|[w wins] items IH]; intros node Hsubs ids.
  - split; [done|]. intros H. by apply Exists_nil in H.
  - subst ids. cbn [declare_from_counts]. rewrite filter_cons. cbn [snd].
    destruct (decide (BEST_OF `div` 2 < Z.of_nat wins)) as [Hmaj|Hmin];
      [|by apply IH].
    rewrite Hsubs, find_side_pair. rewrite fmap_cons. cbn [fst].
    destruct (side_of x y w) as [side|] eqn:Hside.
    + destruct (IH (set_winner_loser (Some side.1) (Some side.2) node) Hsubs)
        as [IHok IHraise].
      split.
      * intros Hall. apply Forall_cons in Hall as [_ Hall].
        rewrite (IHok Hall). f_equal. unfold crowned.
        rewrite last_cons.
        destruct (last _) as [w'|] eqn:Hlast; cbn [mbind option_bind].
        -- destruct (side_of x y w') eqn:Hside'.
           ++ by rewrite set_winner_loser_twice.
           ++ apply last_Some_elem_of in Hlast.
              rewrite Forall_forall in Hall.
              destruct (Hall _ Hlast) as [? ?]. congruence.
        -- by rewrite Hside.
      * intros Hex. apply Exists_cons in Hex as [Hex|Hex]; [congruence|].
        by apply IHraise.
    + split.
      * intros Hall. apply Forall_cons in Hall as [[? Hw] _]. congruence.
      * intros _. by eexists.
Qed.

Lemma over_half_Counter games :
  (filter (λ kv, BEST_OF `div` 2 < Z.of_nat kv.2)
          (Counter (winner_ids games))).*1
  = over_half BEST_OF games.
Proof.
  rewrite Counter_first_seen. unfold over_half.
  assert (∀ w, w ∈ first_seen (winner_ids games) → w ≠ 0) as Hne.
  { intros w. rewrite elem_of_first_seen, elem_of_winner_ids. tauto. }
  revert Hne. generalize (first_seen (winner_ids games)). intros ks.
  induction ks as [|w ks IH]; intros Hne; [done|].
  rewrite fmap_cons, !filter_cons. cbn [snd].
  rewrite count_winner_ids by (apply Hne; left).
  rewrite <- IH by (intros w' Hw'; apply Hne; by right).
  destruct (decide (BEST_OF `div` 2 < _)) as [Hlt|Hge].
  - rewrite decide_True by by apply half_lt. done.
  - rewrite decide_False by by rewrite <- half_lt. done.
Qed.

(** At most one winner id has more than half of [BEST_OF] wins when no
    more than [BEST_OF] games have a winner. *)
Lemma count_two a b l :
  a ≠ b → (count a l + count b l ≤ length l)%nat.
Proof.
  intros Hab. induction l as [|x l IH]; [done|].
  rewrite !count_cons. simpl.
  repeat case_decide; simplify_eq; lia.
Qed.

Lemma over_half_unique games :
  Z.of_nat (length (winner_ids games)) ≤ BEST_OF →
  (length (over_half BEST_OF games) ≤ 1)%nat.
Proof.
  intros Hlen.
  assert (NoDup (over_half BEST_OF games)) as Hnd
    by apply NoDup_filter, NoDup_first_seen.
  destruct (over_half BEST_OF games) as [|a [|b ids]] eqn:Hids;
    [simpl; lia..|exfalso].
  assert (a ∈ over_half BEST_OF games ∧ b ∈ over_half BEST_OF games)
    as [Ha Hb] by (rewrite Hids; split; [left|right; left]).
  unfold over_half in Ha, Hb.
  apply list_elem_of_filter in Ha as [Ha Ha'], Hb as [Hb Hb'].
  apply elem_of_first_seen, elem_of_winner_ids in Ha' as [Ha0 _].
  apply elem_of_first_seen, elem_of_winner_ids in Hb' as [Hb0 _].
  rewrite <- count_winner_ids in Ha, Hb by done.
  assert (a ≠ b) as Hab.
  { apply NoDup_cons in Hnd as [Hnd _]. intros ->. apply Hnd. left. }
  pose proof (count_two a b (winner_ids games) Hab). lia.
Qed.

End winners.

Lemma side_of_Real x y w :
  side_of (Real x) (Real y) w
  = if decide (w = sub_id x) then Some (Real x, Real y)
    else if decide (w = sub_id y) then Some (Real y, Real x)
    else None.
Proof. unfold side_of. simpl. by repeat case_decide. Qed.

(** C2, as the code has it.  Take a node that has, once its feeders are
    dealt with and [propogate_winners] has run, two distinct real
    submissions [x], [y] and no winner.  The games of the node are counted
    by [winner_id] (every game that has one, whatever its status).  When
    every winner id with more than [BEST_OF / 2] wins is the id of [x] or of
    [y], the call returns, and the LAST of these ids, in the order of their
    first wins, names [node.winner], the other submission being
    [node.loser]; with no such id the node stays without a winner.  When one
    of these ids is neither [x]'s nor [y]'s, the call raises.  There is at
    most one such id when no more than [BEST_OF] games have a winner. *)
Theorem declare_winner_from_games
    (BEST_OF : Z) (fuel i : nat) (nodes nodes1 : list Node)
    (node0 node : Node) (x y : SubmissionRow) :
  nodes !! i = Some node0 →
  ¬ decided node0 →
  foldl (λ r f, r ≫= declare_and_propogate_winners BEST_OF fuel f)
        (Ok nodes) (feeders node0) = Ok nodes1 →
  propogate_winners i nodes1 !! i = Some node →
  submissions node = [Real x; Real y] →
  x ≠ y →
  winner node = None →
  let ids := over_half BEST_OF (games node) in
  let run := declare_and_propogate_winners BEST_OF (S fuel) i nodes in
  ((∀ w, w ∈ ids → w = sub_id x ∨ w = sub_id y) →
   run = Ok (<[i := match last ids with
                    | None => node
                    | Some w =>
                        if decide (w = sub_id x)
                        then set_winner_loser (Some (Real x)) (Some (Real y))
                                              node
                        else set_winner_loser (Some (Real y)) (Some (Real x))
                                              node
                    end]> (propogate_winners i nodes1))) ∧
  ((∃ w, w ∈ ids ∧ w ≠ sub_id x ∧ w ≠ sub_id y) →
   ∃ msg, run = Raise (Exception msg)) ∧
  (Z.of_nat (length (winner_ids (games node))) ≤ BEST_OF →
   (length ids ≤ 1)%nat).
Proof.
  intros Hi Hund Hfold Hprop Hsubs Hxy Hwin ids run.
  assert (run = node' ← declare_from_counts BEST_OF
                          (Counter (winner_ids (games node))) node;
                Ok (<[i := node']> (propogate_winners i nodes1))) as Hrun.
  { unfold run. cbn [declare_and_propogate_winners]. rewrite Hi.
    rewrite decide_False by done. rewrite Hfold. cbn [mbind result_bind].
    rewrite Hprop.
    assert (handle_self (handle_byes node) = node) as ->.
    { unfold handle_byes. rewrite Hsubs.
      rewrite !decide_False by (try intros [? ?]; done).
      unfold handle_self. rewrite Hsubs.
      rewrite decide_False by (intros [=]; done). done. }
    unfold declare_from_games. by rewrite Hwin. }
  destruct (declare_from_counts_pair BEST_OF (Real x) (Real y)
              (Counter (winner_ids (games node))) node Hsubs)
    as [Hok Hraise].
  rewrite over_half_Counter in Hok, Hraise. fold ids in Hok, Hraise.
  split_and!.
  - intros Hall. rewrite Hrun, Hok.
    + cbn [mbind result_bind]. do 2 f_equal. unfold crowned.
      destruct (last ids) as [w|] eqn:Hlast; [|done].
      cbn [mbind option_bind]. rewrite side_of_Real.
      apply last_Some_elem_of, Hall in Hlast.
      destruct (decide (w = sub_id x)); [done|].
      rewrite decide_True by tauto. done.
    + apply Forall_forall. intros w Hw. rewrite side_of_Real.
      destruct (Hall w Hw) as [->| ->].
      * by rewrite decide_True.
      * by repeat case_decide.
  - intros (w & Hw & Hx & Hy).
    destruct Hraise as [msg Hmsg].
    + apply Exists_exists. exists w. split; [done|].
      rewrite side_of_Real. by rewrite !decide_False.
    + exists msg. by rewrite Hrun, Hmsg.
  - apply over_half_unique.
Qed.

(** A game that [who] won, and a leaf of the submissions 1 and 2 with
    given games. *)
Definition won_game (i who : Z) : Game :=
  {| game_id := i; game_status := "finished"; winner_id := Some who;
     log_url := Some "log" |}.

Definition leaf (games : list Game) : Node :=
  {| submissions := [Real (row 1); Real (row 2)]; feeders := [];
     inverted_feeders := []; games := games;
     winner := None; loser := None;
     winner_child := None; loser_child := None |}.

(** C2 on a leaf with the games won by 1, 2, 1 of a best of three: the
    submission 1 is the winner. *)
Lemma declare_winner_from_games_witness :
  declare_and_propogate_winners 3 1 0
    [leaf [won_game 1 1; won_game 2 2; won_game 3 1]]
  = Ok [set_winner_loser (Some (Real (row 1))) (Some (Real (row 2)))
          (leaf [won_game 1 1; won_game 2 2; won_game 3 1])].
Proof.
  set (games := [won_game 1 1; won_game 2 2; won_game 3 1]).
  destruct (declare_winner_from_games 3 0 0 [leaf games] [leaf games]
              (leaf games) (leaf games) (row 1) (row 2)
              eq_refl) as (Hok & _ & _).
  - by intros [[? ?] _].
  - reflexivity.
  - reflexivity.
  - reflexivity.
  - by intros [=].
  - reflexivity.
  - rewrite Hok; [reflexivity|].
    intros w Hw. vm_compute in Hw.
    apply list_elem_of_singleton in Hw. by left.
Defined.

(** C2 as it was stated fails for the FIRST winner id over the half: of the
    games 1, 2 of a best of one, both ids have more than half a win, id 1
    has the first, and the node's winner is the submission 2.  And a game
    need not be finished to count: a failed game that kept a winner id
    decides the node. *)
Lemma declare_winner_not_the_first :
  head (over_half 1 [won_game 1 1; won_game 2 2]) = Some 1 ∧
  declare_and_propogate_winners 1 1 0 [leaf [won_game 1 1; won_game 2 2]]
  = Ok [set_winner_loser (Some (Real (row 2))) (Some (Real (row 1)))
          (leaf [won_game 1 1; won_game 2 2])] ∧
  declare_and_propogate_winners 1 1 0
    [leaf [{| game_id := 1; game_status := "failed"; winner_id := Some 2;
              log_url := None |}]]
  = Ok [set_winner_loser (Some (Real (row 2))) (Some (Real (row 1)))
          (leaf [{| game_id := 1; game_status := "failed";
                    winner_id := Some 2; log_url := None |}])].
Proof. split_and!; vm_compute; reflexivity. Qed.

(** An entry recorded as finished, whose id no unfinished entry shares, is
    not asked for and stays what it was. *)
Lemma update_game_status_finished (db : DB) (nodes : list Node)
    (k : nat) (nodek : Node) (p : nat) (g : Game) :
  nodes !! k = Some nodek →
  games nodek !! p = Some g →
  game_status g = "finished" →
  (∀ node' g', node' ∈ nodes → g' ∈ games node' →
               game_id g' = game_id g → game_status g' = "finished") →
  (game_id g ∉ unfinished_game_ids nodes) ∧
  (∃ nodek', update_game_status db nodes !! k = Some nodek' ∧
             games nodek' !! p = Some g).
Proof.
  intros Hk Hp Hfin Hsame.
  assert (game_id g ∉ unfinished_game_ids nodes) as Hnot.
  { rewrite elem_of_unfinished_game_ids.
    intros (node' & g' & Hn' & Hg' & Hst & Hid). apply Hst. by eapply Hsame. }
  split; [done|].
  unfold update_game_status. case_decide; [by exists nodek|].
  rewrite list_lookup_fmap, Hk. simpl. eexists. split; [done|]. simpl.
  rewrite list_lookup_fmap, Hp. simpl. f_equal.
  destruct (by_id _ !! game_id g) as [g'|] eqn:Hby; [|done].
  apply by_id_lookup in Hby as [Hin Hid].
  apply list_elem_of_filter in Hin as [Hin _]. by rewrite Hid in Hin.
Qed.

(** C8.  A node whose winner and loser are both set is left as it is
    (winner, loser, submissions and all) by every call of
    [declare_and_propogate_winners], on itself or on any other node, and
    such a call comes to an end when feeders come before the nodes they
    feed.  [update_game_status] neither asks the database for a game
    recorded as finished nor overwrites it: for a game recorded as finished
    wherever its id is attached, the id is not among the ids fetched and the
    entry stays what it was.  (An id is attached once in the brackets that
    the engine builds, see [create_needed_games_ids_distinct].) *)
Theorem decided_nodes_and_finished_games_stay
    (BEST_OF : Z) (db : DB) (nodes : list Node) (j : nat) (node : Node) :
  nodes !! j = Some node →
  is_Some (winner node) →
  is_Some (loser node) →
  (∀ fuel i nodes',
     declare_and_propogate_winners BEST_OF fuel i nodes = Ok nodes' →
     nodes' !! j = Some node) ∧
  declare_and_propogate_winners BEST_OF (S j) j nodes = Ok nodes ∧
  (feeders_before nodes →
   ∀ i, declare_and_propogate_winners BEST_OF (S i) i nodes ≠ OutOfFuel) ∧
  (∀ k nodek p g,
     nodes !! k = Some nodek →
     games nodek !! p = Some g →
     game_status g = "finished" →
     (∀ node' g', node' ∈ nodes → g' ∈ games node' →
                  game_id g' = game_id g → game_status g' = "finished") →
     (game_id g ∉ unfinished_game_ids nodes) ∧
     (∃ nodek', update_game_status db nodes !! k = Some nodek' ∧
                games nodek' !! p = Some g)).
Proof.
  intros Hj Hw Hl. split_and!.
  - intros fuel i nodes' Hrun.
    by eapply declare_keeps_decided.
  - simpl. rewrite Hj. by rewrite decide_True.
  - intros Hwf i. apply declare_enough_fuel; [done|lia].
  - intros k nodek p g. apply update_game_status_finished.
Qed.

(** A bracket of two nodes: a decided leaf with a finished game, and a
    node it feeds, whose game is still queued. *)
Definition finished_game : Game :=
  {| game_id := 1; game_status := "finished"; winner_id := Some 10;
     log_url := Some "log" |}.

Definition queued_game : Game :=
  {| game_id := 2; game_status := "queued"; winner_id := None;
     log_url := None |}.

Definition decided_leaf : Node :=
  {| submissions := [team 10; team 20]; feeders := [];
     inverted_feeders := []; games := [finished_game];
     winner := Some (team 10); loser := Some (team 20);
     winner_child := Some 1%nat; loser_child := None |}.

Definition fed_node : Node :=
  {| submissions := [team 10; team 30]; feeders := [0%nat];
     inverted_feeders := []; games := [queued_game];
     winner := None; loser := None;
     winner_child := None; loser_child := None |}.

Definition two_games_db : DB :=
  {| db_games := [finished_game;
                  {| game_id := 2; game_status := "playing";
                     winner_id := None; log_url := None |}];
     db_games_submissions := [(1, 10); (1, 20); (2, 10); (2, 30)];
     db_games_id_seq := 2 |}.

(** C8 on that bracket: the leaf stays, and so does its finished game. *)
Lemma decided_nodes_and_finished_games_stay_witness :
  (∃ nodes',
     declare_and_propogate_winners 7 2 1 [decided_leaf; fed_node]
     = Ok nodes' ∧
     nodes' !! 0%nat = Some decided_leaf) ∧
  (game_id finished_game ∉ unfinished_game_ids [decided_leaf; fed_node]) ∧
  (∃ node',
     update_game_status two_games_db [decided_leaf; fed_node] !! 0%nat
     = Some node' ∧
     games node' !! 0%nat = Some finished_game).
Proof.
  pose proof (decided_nodes_and_finished_games_stay 7 two_games_db
                [decided_leaf; fed_node] 0 decided_leaf
                eq_refl (mk_is_Some _ _ eq_refl) (mk_is_Some _ _ eq_refl))
    as (Hdecl & _ & _ & Hupd).
  split.
  - eexists. split; [vm_compute; reflexivity|].
    apply (Hdecl 2%nat 1%nat). vm_compute; reflexivity.
  - apply (Hupd 0%nat decided_leaf 0%nat finished_game
             eq_refl eq_refl eq_refl).
    intros node' g' Hn Hg Hid.
    rewrite !elem_of_cons, elem_of_nil in Hn.
    destruct Hn as [->|[->|[]]]; simpl in Hg;
      rewrite !elem_of_cons, elem_of_nil in Hg;
      destruct Hg as [->|[]]; done.
Defined.

(** *** [generate_n_elimination_bracket_online]: the groups *)

(** What walking one list of sources, and one group, does to the nodes. *)
Definition walk_sources (nodes : list Node)
    (node_sources : list (nat * Submission)) : list Node :=
  foldl make_node nodes (pairwise node_sources).

Definition walk_group (nodes : list Node)
    (group : list (list (nat * Submission))) : list Node :=
  foldl walk_sources nodes group.

(** The new nodes a group makes: one for every two sources of a class. *)
Definition new_nodes (group : list (list (nat * Submission))) : nat :=
  sum_list ((λ node_sources, length (pairwise node_sources)) <$> group).

Lemma length_pairwise {A} (l : list A) :
  length (pairwise l) = (length l / 2)%nat.
Proof.
  assert (∀ n (l : list A), (length l ≤ n)%nat →
            length (pairwise l) = (length l / 2)%nat) as H.
  { induction n as [|n IH]; intros [|a [|b k]] Hk;
      cbn [pairwise length] in *; try done; try lia.
    rewrite IH by lia.
    change (S (S (length k))) with (1 * 2 + length k)%nat.
    rewrite Nat.div_add_l by lia. lia. }
  by apply (H (length l)).
Qed.

Lemma length_attach new_ix st src :
  length (attach new_ix st src).1 = length st.1.
Proof.
  unfold attach. destruct (st.1 !! src.1); [|done].
  repeat case_decide; simpl; by rewrite ?length_alter.
Qed.

Lemma length_make_node nodes pair :
  length (make_node nodes pair) = S (length nodes).
Proof.
  unfold make_node. rewrite length_app, !length_attach. simpl. lia.
Qed.

Lemma length_walk_sources srcs : ∀ nodes,
  length (walk_sources nodes srcs)
  = (length nodes + length (pairwise srcs))%nat.
Proof.
  unfold walk_sources. induction (pairwise srcs) as [|pair pairs IH];
    intros nodes; simpl; [lia|].
  rewrite IH, length_make_node. lia.
Qed.

Lemma new_nodes_cons srcs group :
  new_nodes (srcs :: group)
  = (length (pairwise srcs) + new_nodes group)%nat.
Proof. done. Qed.

Lemma walk_group_cons nodes srcs group :
  walk_group nodes (srcs :: group)
  = walk_group (walk_sources nodes srcs) group.
Proof. done. Qed.

Lemma length_walk_group group : ∀ nodes,
  length (walk_group nodes group) = (length nodes + new_nodes group)%nat.
Proof.
  induction group as [|srcs group IH]; intros nodes.
  - unfold new_nodes. simpl. lia.
  - rewrite walk_group_cons, new_nodes_cons, IH, length_walk_sources. lia.
Qed.

Lemma walk_group_nothing group : ∀ nodes,
  new_nodes group = 0%nat → walk_group nodes group = nodes.
Proof.
  induction group as [|srcs group IH]; intros nodes Hnew; [done|].
  rewrite new_nodes_cons in Hnew.
  assert (pairwise srcs = []) as Hnil by (apply length_zero_iff_nil; lia).
  rewrite walk_group_cons. unfold walk_sources. rewrite Hnil. simpl.
  apply IH. lia.
Qed.

(** The two nested loops of the source, with [pending_matches] carried
    along. *)
Lemma walk_pairs_flag pairs : ∀ st : list Node * bool,
  foldl (λ st pair, (make_node st.1 pair, true)) st pairs
  = (foldl make_node st.1 pairs,
     if decide (pairs = []) then st.2 else true).
Proof.
  induction pairs as [|pair pairs IH]; intros [nodes b]; simpl; [done|].
  rewrite IH. simpl. f_equal. by case_decide.
Qed.

Lemma walk_group_flag group : ∀ st : list Node * bool,
  foldl (λ st node_sources,
           foldl (λ st pair, (make_node st.1 pair, true))
                 st (pairwise node_sources)) st group
  = (walk_group st.1 group,
     if decide (new_nodes group = 0%nat) then st.2 else true).
Proof.
  induction group as [|srcs group IH]; intros [nodes b]; [done|].
  cbn [foldl]. rewrite walk_pairs_flag, IH. cbn [fst snd].
  rewrite walk_group_cons, new_nodes_cons. f_equal.
  destruct (decide (pairwise srcs = [])) as [->|Hne]; [done|].
  assert (length (pairwise srcs) ≠ 0%nat)
    by by rewrite length_zero_iff_nil.
  rewrite (decide_False (P := (_ + _)%nat = 0%nat)) by lia.
  by case_decide.
Qed.

Lemma walk_groups_first group groups (st : list Node * bool) :
  walk_groups (group :: groups) st
  = if decide (st.2 = true ∨ new_nodes group ≠ 0%nat)
    then walk_group st.1 group
    else walk_groups groups (st.1, false).
Proof.
  cbn [walk_groups]. rewrite walk_group_flag. cbn [fst snd].
  destruct st as [nodes [|]]; cbn [fst snd].
  - rewrite (decide_True (P := _ ∨ _)) by by left. by case_decide.
  - destruct (decide (new_nodes group = 0%nat)) as [Hnone|Hsome].
    + rewrite (decide_False (P := _ ∨ _)) by (intros [?|?]; done).
      by rewrite walk_group_nothing.
    + by rewrite (decide_True (P := _ ∨ _)) by by right.
Qed.

(** *** [generate_n_elimination_bracket_online]: who is paired *)

(** The losses of [who] counted over all of [nodes]. *)
Definition losses_of (nodes : list Node) (who : Submission) : nat :=
  length (filter (λ node, loser node = Some who) nodes).

Lemma count_losses_losses_of nodes who :
  count_losses nodes who = losses_of nodes who.
Proof.
  unfold count_losses, losses_of.
  assert (∀ d : Submission → nat,
            foldl (λ losses node,
                     match loser node with
                     | Some l => alter S l losses
                     | None => losses
                     end) d nodes who
            = (d who + length (filter (λ node, loser node = Some who) nodes))%nat)
    as H.
  { induction nodes as [|node nodes IH]; intros d; simpl; [lia|].
    rewrite IH, filter_cons.
    destruct (loser node) as [l|]; [|by rewrite decide_False].
    destruct (decide (l = who)) as [->|Hne].
    - rewrite fn_lookup_alter, decide_True by done. simpl. lia.
    - rewrite fn_lookup_alter_ne, decide_False by congruence. done. }
  by rewrite H.
Qed.

Lemma elem_of_available max_losses nodes j who :
  (j, who) ∈ available max_losses nodes ↔
  ∃ node, nodes !! j = Some node ∧
    ((winner node = Some who ∧ winner_child node = None) ∨
     (loser node = Some who ∧ loser_child node = None ∧
      Z.of_nat (losses_of nodes who) < max_losses)).
Proof.
  unfold available. rewrite list_elem_of_join.
  setoid_rewrite elem_of_lookup_imap. split.
  - intros (l & Hin & i & node & -> & Hi). exists node.
    unfold available_of in Hin. apply elem_of_app in Hin as [Hin|Hin].
    + destruct (winner node) as [w|] eqn:Hw; [|by apply elem_of_nil in Hin].
      destruct (winner_child node); [by apply elem_of_nil in Hin|].
      apply list_elem_of_singleton in Hin. simplify_eq. split; [done|by left].
    + destruct (loser node) as [l|] eqn:Hl; [|by apply elem_of_nil in Hin].
      destruct (loser_child node); [by apply elem_of_nil in Hin|].
      case_decide as Hlt; [|by apply elem_of_nil in Hin].
      apply list_elem_of_singleton in Hin. simplify_eq.
      rewrite count_losses_losses_of in Hlt. split; [done|by right].
  - intros (node & Hj & Hcase). eexists. split; [|by exists j, node].
    unfold available_of. apply elem_of_app.
    destruct Hcase as [[Hw Hc]|(Hl & Hc & Hlt)].
    + left. rewrite Hw, Hc. by apply list_elem_of_singleton.
    + right. rewrite Hl, Hc, count_losses_losses_of.
      rewrite decide_True by done. by apply list_elem_of_singleton.
Qed.

Lemma elem_of_pairwise {A} (l : list A) a b :
  (a, b) ∈ pairwise l → a ∈ l ∧ b ∈ l.
Proof.
  assert (∀ n (l : list A), (length l ≤ n)%nat →
            (a, b) ∈ pairwise l → a ∈ l ∧ b ∈ l) as H.
  { induction n as [|n IH]; intros [|x [|y k]] Hk Hin;
      cbn [pairwise length] in *;
      try (by apply elem_of_nil in Hin); try lia.
    apply elem_of_cons in Hin as [[= -> ->]|Hin].
    - split; [left|right; left].
    - destruct (IH k ltac:(lia) Hin). split; by do 2 right. }
  by apply (H (length l)).
Qed.

Lemma group_add_elem {K A} `{EqDecision K} (k : K) (a : A) d l x :
  l ∈ (group_add k a d).*2 → x ∈ l → x = a ∨ ∃ l', l' ∈ d.*2 ∧ x ∈ l'.
Proof.
  induction d as [|[k' l'] d IH] in l |- *; simpl.
  - rewrite list_elem_of_singleton. intros -> Hx.
    apply list_elem_of_singleton in Hx. by left.
  - case_decide; simpl; rewrite !elem_of_cons.
    + intros [->|Hl] Hx.
      * apply elem_of_app in Hx as [Hx|Hx].
        -- right. exists l'. split; [by left|done].
        -- apply list_elem_of_singleton in Hx. by left.
      * right. exists l. split; [by right|done].
    + intros [->|Hl] Hx.
      * right. exists l'. split; [by left|done].
      * destruct (IH _ Hl Hx) as [?|(l0 & Hl0 & Hx0)]; [by left|].
        right. exists l0. split; [by right|done].
Qed.

Lemma group_by_elem {K A} `{EqDecision K} (key : A → K) (all : list A) l x :
  l ∈ (group_by key all).*2 → x ∈ l → x ∈ all.
Proof.
  unfold group_by.
  assert (∀ d, (∀ l x, l ∈ d.*2 → x ∈ l → x ∈ all) →
            ∀ rest, rest ⊆ all →
            ∀ l x, l ∈ (foldl (λ d a, group_add (key a) a d) d rest).*2 →
                   x ∈ l → x ∈ all) as H.
  { intros d Hd rest. revert d Hd.
    induction rest as [|a rest IH]; intros d Hd Hsub l' x' Hl Hx; simpl in *.
    - by eapply Hd.
    - eapply (IH (group_add (key a) a d)); [| |done..].
      + intros l0 x0 Hl0 Hx0.
        destruct (group_add_elem _ _ _ _ _ Hl0 Hx0) as [->|(l1 & ? & ?)].
        * apply Hsub. left.
        * by eapply Hd.
      + intros z Hz. apply Hsub. by right. }
  intros Hl Hx. eapply (H []); [|done|done..].
  intros l0 x0 Hl0. by apply elem_of_nil in Hl0.
Qed.

Section pairing.

Variables (nodes0 : list Node) (max_losses : Z).









Lemma groups_of_available group srcs src :
  group ∈ [available_by_score max_losses nodes0;
           available_by_losses max_losses nodes0;
           available_sorted max_losses nodes0] →
  srcs ∈ group → src ∈ srcs → src ∈ available max_losses nodes0.
Proof.
  rewrite !elem_of_cons, elem_of_nil.
  intros [->|[->|[->|[]]]] Hsrcs Hsrc.
  - by eapply group_by_elem.
  - by eapply group_by_elem.
  - apply list_elem_of_singleton in Hsrcs as ->. by eapply sorted_elem.
Qed.

End pairing.

Section online.

Variable shuffle : list Submission → list Submission.


(** C6, as the code has it.  When the call does not return early, the
    sources are paired within the classes of equal (losses, wins), and the
    walk stops there when this made a node, and also when some node had no
    winner as the call began, whether or not a node was made.  The classes
    of equal losses are walked exactly when no node was without a winner
    and the first grouping made no node, and the single class sorted by
    descending losses exactly when, moreover, the second made none.  A
    group makes one node for every two sources of a class. *)
Theorem groups_walked_in_turn (subs : list Submission)
    (nodes nodes0 : list Node) (max_losses : Z) :
  start shuffle subs nodes = Ok nodes0 →
  ¬ (pending nodes0 = false ∧
     (length (available max_losses nodes0) ≤ 1)%nat) →
  let by_score := available_by_score max_losses nodes0 in
  let by_losses := available_by_losses max_losses nodes0 in
  let all_sorted := available_sorted max_losses nodes0 in
  ∃ nodes',
    generate_n_elimination_bracket_online shuffle subs nodes max_losses
    = Ok (nodes', None) ∧
    (pending nodes0 = true ∨ new_nodes by_score ≠ 0%nat →
     nodes' = walk_group nodes0 by_score) ∧
    (pending nodes0 = false → new_nodes by_score = 0%nat →
     new_nodes by_losses ≠ 0%nat →
     nodes' = walk_group nodes0 by_losses) ∧
    (pending nodes0 = false → new_nodes by_score = 0%nat →
     new_nodes by_losses = 0%nat →
     nodes' = walk_group nodes0 all_sorted) ∧
    (∀ group,
       length (walk_group nodes0 group)
       = (length nodes0 + new_nodes group)%nat).
Proof.
  intros Hstart Hearly by_score by_losses all_sorted.
  unfold generate_n_elimination_bracket_online.
  rewrite Hstart. cbn [mbind result_bind].
  rewrite decide_False by (intros [? ?]; apply Hearly; split; [done|lia]).
  rewrite decide_False by (intros [? ?]; apply Hearly; split; [done|lia]).
  eexists. split; [done|].
  fold by_score by_losses all_sorted.
  rewrite !walk_groups_first. cbn [fst snd walk_groups].
  split_and!.
  - intros H. by rewrite decide_True.
  - intros Hp H1 H2.
    rewrite decide_False by (rewrite Hp; intros [?|?]; done).
    by rewrite decide_True by by right.
  - intros Hp H1 H2.
    rewrite decide_False by (rewrite Hp; intros [?|?]; done).
    rewrite decide_False by (intros [?|?]; done).
    case_decide; [done|]. symmetry. apply walk_group_nothing. lia.
  - intros group. apply length_walk_group.
Qed.

End online.

Definition decided_node (subs : list Submission) (fs : list nat)
    (w l : Submission) (wc : option nat) : Node :=
  {| submissions := subs; feeders := fs; inverted_feeders := [];
     games := []; winner := Some w; loser := Some l;
     winner_child := wc; loser_child := None |}.

(** Two decided leaves. *)
Definition two_leaves : list Node :=
  [ decided_node [team 1; team 2] [] (team 1) (team 2) None;
    decided_node [team 3; team 4] [] (team 3) (team 4) None ].




(** A bracket of six teams with one loss allowed: team 1 has won its
    leaf, team 3 has won a bye and then team 4, and the leaf of teams 2 and
    6 is still open. *)
Definition waiting_bracket : list Node :=
  [ decided_node [team 1; team 5] [] (team 1) (team 5) None;
    set_submissions [team 2; team 6] Node_init;
    decided_node [team 3; BYE] [] (team 3) BYE (Some 4%nat);
    decided_node [team 4; BYE] [] (team 4) BYE (Some 4%nat);
    decided_node [team 3; team 4] [2%nat; 3%nat] (team 3) (team 4) None ].

(** The engine gets there (games aside) from the initial pairing of six
    teams, best of one: two calls, then team 1 wins the game of the first
    leaf and team 3 that of the node 4, and the winners are declared. *)
Lemma waiting_bracket_reached :
  (r0 ← generate_n_elimination_bracket_online (λ l, l)
          (team <$> [1; 2; 3; 4; 5; 6]) [] 1;
   nodes1 ← declare_all 1 r0.1;
   r1 ← generate_n_elimination_bracket_online (λ l, l)
          (team <$> [1; 2; 3; 4; 5; 6]) nodes1 1;
   nodes2 ← declare_all 1
              (alter (set_games [won_game 1 1]) 0%nat
                 (alter (set_games [won_game 2 3]) 4%nat r1.1));
   Ok ((set_games [] <$> nodes2) : list Node))
  = Ok waiting_bracket.
Proof. vm_compute. reflexivity. Qed.

(** C6 on that bracket: a match is pending, and the first group is what is
    walked. *)
Lemma groups_walked_in_turn_witness :
  ∃ nodes',
    generate_n_elimination_bracket_online (λ l, l) [] waiting_bracket 1
    = Ok (nodes', None) ∧
    nodes' = walk_group waiting_bracket (available_by_score 1 waiting_bracket).
Proof.
  destruct (groups_walked_in_turn (λ l, l) [] waiting_bracket
              waiting_bracket 1 eq_refl) as (nodes' & Hrun & H1 & _).
  - by intros [[=] _].
  - exists nodes'. split; [done|]. apply H1. by left.
Defined.

(** C6 as it was stated fails there: the first grouping makes no node
    (teams 1 and 3 differ in wins), the grouping by losses would make one,
    and yet no node is made, for the walk stops after the first group while
    a match is pending. *)
Lemma fallback_not_used_while_pending :
  new_nodes (available_by_score 1 waiting_bracket) = 0%nat ∧
  new_nodes (available_by_losses 1 waiting_bracket) = 1%nat ∧
  generate_n_elimination_bracket_online (λ l, l) [] waiting_bracket 1
  = Ok (waiting_bracket, None).
Proof. split_and!; vm_compute; reflexivity. Qed.

(** *** [create_needed_games] *)

Lemma elem_of_attached_game_ids nodes z :
  z ∈ attached_game_ids nodes ↔
  ∃ node game, node ∈ nodes ∧ game ∈ games node ∧ game_id game = z.
Proof.
  unfold attached_game_ids. rewrite list_elem_of_bind. split.
  - intros (node & Hz & Hnode).
    apply list_elem_of_bind in Hz as (game & Hz & Hg).
    apply list_elem_of_singleton in Hz. by exists node, game.
  - intros (node & game & Hnode & Hg & <-).
    exists node. split; [|done]. apply list_elem_of_bind.
    exists game. split; [|done]. left.
Qed.

(** A game is linked to a submission by a row of [games_submissions]. *)
Definition linked (db : DB) (g : Game) (s : Submission) : Prop :=
  (game_id g, id s) ∈ db_games_submissions db.

(** The finished games of the database that link both submissions and are
    not excluded: what [get_unused_game] chooses from. *)
Definition reusable (db : DB) (left right : Submission)
    (used : list Z) (g : Game) : Prop :=
  g ∈ db_games db ∧ linked db g left ∧ linked db g right ∧
  game_status g = "finished" ∧ game_id g ∉ -1 :: used.

Lemma get_unused_game_Some db left right used g :
  head (get_unused_game db left right used) = Some g →
  reusable db left right used g.
Proof.
  unfold get_unused_game. intros Hhead.
  assert (g ∈ take 1 (sorted (λ g, - game_id g)
            (filter (λ g, (game_id g, id left) ∈ db_games_submissions db ∧
                          (game_id g, id right) ∈ db_games_submissions db ∧
                          game_status g = "finished" ∧
                          game_id g ∉ -1 :: used) (db_games db)))) as Hin.
  { destruct (take 1 _) as [|g' ?]; simplify_eq/=. left. }
  apply subseteq_take, sorted_elem, list_elem_of_filter in Hin
    as [(? & ? & ? & ?) ?].
  by split_and!.
Qed.

Lemma get_unused_game_None db left right used g :
  head (get_unused_game db left right used) = None →
  ¬ reusable db left right used g.
Proof.
  unfold get_unused_game. intros Hhead (Hg & Hl & Hr & Hf & Hu).
  set (rows := filter _ (db_games db)) in Hhead.
  assert (g ∈ rows) as Hin by (apply list_elem_of_filter; by split_and!).
  assert (length (sorted (λ g, - game_id g) rows) ≠ 0%nat) as Hlen.
  { rewrite length_sorted. destruct rows; [by apply elem_of_nil in Hin|done]. }
  destruct (sorted _ rows); simplify_eq/=.
Qed.

Definition more_games (extra : list Game) (node : Node) : Node :=
  set_games (games node ++ extra) node.

Lemma more_games_nil node : more_games [] node = node.
Proof. destruct node. unfold more_games, set_games. simpl. by rewrite app_nil_r. Qed.

Lemma more_games_more e1 e2 node :
  more_games e2 (more_games e1 node) = more_games (e1 ++ e2) node.
Proof. unfold more_games, set_games. simpl. by rewrite (assoc_L (++)). Qed.

(** From [st] to [st'] nodes are only given more games, those at the
    positions [changed] at most, and the tables only get more rows, the new
    games being queued. *)
Record extends (changed : nat → Prop) (st st' : list Node * DB) : Prop := {
  ext_same : ∀ j, ¬ changed j → st'.1 !! j = st.1 !! j;
  ext_node : ∀ j, ∃ extra, st'.1 !! j = more_games extra <$> st.1 !! j;
  ext_games : ∃ new,
    db_games st'.2 = db_games st.2 ++ new ∧
    Forall (λ g, game_status g = "queued") new;
  ext_links : ∃ new,
    db_games_submissions st'.2 = db_games_submissions st.2 ++ new
}.

Lemma extends_refl changed st : extends changed st st.
Proof.
  split.
  - done.
  - intros j. exists []. destruct (st.1 !! j); simpl; [|done].
    by rewrite more_games_nil.
  - exists []. by rewrite app_nil_r.
  - exists []. by rewrite app_nil_r.
Qed.

Lemma extends_trans (c1 c2 c : nat → Prop) st1 st2 st3 :
  (∀ j, c1 j → c j) → (∀ j, c2 j → c j) →
  extends c1 st1 st2 → extends c2 st2 st3 → extends c st1 st3.
Proof.
  intros H1 H2 [Hs1 Hn1 (g1 & Hg1 & Hq1) (l1 & Hl1)]
               [Hs2 Hn2 (g2 & Hg2 & Hq2) (l2 & Hl2)].
  split.
  - intros j Hj. rewrite Hs2, Hs1; [done|naive_solver..].
  - intros j. destruct (Hn1 j) as [e1 He1], (Hn2 j) as [e2 He2].
    exists (e1 ++ e2). rewrite He2, He1.
    destruct (st1.1 !! j); simpl; [|done]. by rewrite more_games_more.
  - exists (g1 ++ g2). rewrite Hg2, Hg1, (assoc_L (++)).
    split; [done|]. by apply Forall_app.
  - exists (l1 ++ l2). by rewrite Hl2, Hl1, (assoc_L (++)).
Qed.

Lemma foldl_extends {B} (f : list Node * DB → B → list Node * DB)
    (changed : nat → Prop) (l : list B) : ∀ st,
  (∀ st b, b ∈ l → extends changed st (f st b)) →
  extends changed st (foldl f st l).
Proof.
  induction l as [|b l IH]; intros st Hf; simpl; [apply extends_refl|].
  eapply (extends_trans changed changed); [done|done| |].
  - apply Hf. left.
  - apply IH. intros st' b' Hb'. apply Hf. by right.
Qed.

Lemma extends_attached changed st st' z :
  extends changed st st' →
  z ∈ attached_game_ids st.1 → z ∈ attached_game_ids st'.1.
Proof.
  intros [_ Hn _ _]. rewrite !elem_of_attached_game_ids.
  intros (node & game & Hnode & Hg & Hz).
  apply list_elem_of_lookup in Hnode as [j Hj].
  destruct (Hn j) as [extra Hextra]. rewrite Hj in Hextra. simpl in Hextra.
  exists (more_games extra node), game. split_and!; [|by apply elem_of_app; left|done].
  by eapply list_elem_of_lookup_2.
Qed.

Lemma extends_reusable changed st st' l r used g :
  extends changed st st' →
  reusable st.2 l r used g → reusable st'.2 l r used g.
Proof.
  intros [_ _ (gn & Hg & _) (ln & Hl)] (? & ? & ? & ? & ?).
  unfold reusable, linked in *. rewrite Hg, Hl.
  split_and!; try done; apply elem_of_app; by left.
Qed.

Section enqueue.

Variables (REUSE_OLD_GAMES : bool) (BEST_OF : Z).

(** What [create_or_reuse_game] comes to. *)
Lemma create_or_reuse_game_cases nodes db left right :
  let r := create_or_reuse_game REUSE_OLD_GAMES nodes db left right in
  (REUSE_OLD_GAMES = true ∧ r.1 = db ∧
   reusable db left right (attached_game_ids nodes) r.2) ∨
  (r = create_queued_game db left right ∧
   (REUSE_OLD_GAMES = true →
    ∀ g, ¬ reusable db left right (attached_game_ids nodes) g)).
Proof.
  unfold create_or_reuse_game.
  destruct REUSE_OLD_GAMES; [|by right].
  destruct (head _) as [g|] eqn:Hhead; simpl.
  - left. split_and!; [done..|]. by apply get_unused_game_Some.
  - right. split; [done|]. intros _ g. by apply get_unused_game_None.
Qed.

Lemma add_game_extends ix st i :
  extends (λ j, j = ix) st (add_game REUSE_OLD_GAMES ix st i).
Proof.
  unfold add_game.
  destruct (st.1 !! ix) as [node|] eqn:Hix; [|apply extends_refl].
  destruct (submissions node) as [|s0 [|s1 [|]]]; try apply extends_refl.
  set (sides := if decide (i `mod` 2 ≠ 0) then _ else _).
  set (r := create_or_reuse_game _ _ _ _ _).
  split; cbn [fst snd].
  - intros j Hj. by rewrite list_lookup_alter_ne.
  - intros j. destruct (decide (ix = j)) as [<-|Hne].
    + exists [r.2]. by rewrite list_lookup_alter_eq.
    + exists []. rewrite list_lookup_alter_ne by done.
      destruct (st.1 !! j); simpl; [|done]. by rewrite more_games_nil.
  - destruct (create_or_reuse_game_cases st.1 st.2 sides.1 sides.2)
      as [(_ & Hdb & _)|[Hr _]]; [fold r in Hdb|fold r in Hr].
    + exists []. by rewrite Hdb, app_nil_r.
    + rewrite Hr. simpl. eexists. split; [done|]. by repeat constructor.
  - destruct (create_or_reuse_game_cases st.1 st.2 sides.1 sides.2)
      as [(_ & Hdb & _)|[Hr _]]; [fold r in Hdb|fold r in Hr].
    + exists []. by rewrite Hdb, app_nil_r.
    + rewrite Hr. simpl. by eexists.
Qed.

Lemma create_games_of_extends st ix :
  extends (λ j, j = ix) st (create_games_of REUSE_OLD_GAMES BEST_OF st ix).
Proof.
  unfold create_games_of.
  destruct (st.1 !! ix) as [node|]; [|apply extends_refl].
  repeat case_decide; try apply extends_refl.
  apply foldl_extends. intros st' i _. apply add_game_extends.
Qed.

End enqueue.

Section slots.

Variables (REUSE_OLD_GAMES : bool) (x y : Submission).
Variables (st0 : list Node * DB) (k : nat) (node : Node).
Hypothesis node_subs : submissions node = [x; y].

(** [left, right] of the game of number [i]. *)
Definition sides_of (i : Z) : Submission * Submission :=
  if decide (i `mod` 2 ≠ 0) then (y, x) else (x, y).

(** The game [g] that was attached as game number [i], after the games
    [earlier], seen from a later state [st]: either a finished game that the
    database had as the call began, linked to both submissions, whose id
    was attached nowhere in the bracket as the call began and is the id of
    none of [earlier]; or a new queued game, its two rows of
    [games_submissions] in the order [left], [right] - and then, with
    [REUSE_OLD_GAMES], every finished game that the database had for the two
    submissions is attached somewhere in the bracket. *)
Definition slot_ok (earlier : list Game) (i : Z) (g : Game)
    (st : list Node * DB) : Prop :=
  (REUSE_OLD_GAMES = true ∧ game_status g = "finished" ∧
   g ∈ db_games st0.2 ∧ linked st.2 g x ∧ linked st.2 g y ∧
   (game_id g ∉ attached_game_ids st0.1) ∧
   (game_id g ∉ game_id <$> earlier)) ∨
  (game_status g = "queued" ∧ winner_id g = None ∧ g ∈ db_games st.2 ∧
   (∃ pre post,
      db_games_submissions st.2
      = pre ++ [(game_id g, id (sides_of i).1);
                (game_id g, id (sides_of i).2)] ++ post) ∧
   (REUSE_OLD_GAMES = true →
    ∀ g0, reusable st0.2 x y [] g0 →
          game_id g0 ∈ attached_game_ids st.1)).

Lemma slot_ok_extends changed earlier i g st st' :
  extends changed st st' → slot_ok earlier i g st → slot_ok earlier i g st'.
Proof.
  intros Hext [(? & ? & ? & Hx & Hy & ? & ?)|(? & ? & Hg & Hrows & Hall)].
  - destruct Hext as [_ _ _ (ln & Hl)]. left. unfold linked in *.
    rewrite Hl. split_and!; try done; apply elem_of_app; by left.
  - right. split_and!; [done|done| | |].
    + destruct Hext as [_ _ (gn & Hgn & _) _]. rewrite Hgn.
      apply elem_of_app. by left.
    + destruct Hext as [_ _ _ (ln & Hl)].
      destruct Hrows as (pre & post & Hrows).
      exists pre, (post ++ ln). rewrite Hl, Hrows.
      by rewrite <- !(assoc_L (++)).
    + intros Hreuse g0 Hg0. eapply extends_attached; [done|]. by apply Hall.
Qed.

Lemma sides_reusable db i used g :
  reusable db (sides_of i).1 (sides_of i).2 used g ↔ reusable db x y used g.
Proof. unfold sides_of, reusable. case_decide; simpl; tauto. Qed.

Lemma add_games_spec l : ∀ st done,
  extends (λ _, True) st0 st →
  st.1 !! k = Some (more_games done node) →
  let st' := foldl (add_game REUSE_OLD_GAMES k) st l in
  ∃ added,
    length added = length l ∧
    st'.1 !! k = Some (more_games (done ++ added) node) ∧
    ∀ j i g, l !! j = Some i → added !! j = Some g →
             slot_ok (done ++ take j added) i g st'.
Proof.
  induction l as [|i l IH]; intros st done Hext Hk st'.
  - exists []. rewrite app_nil_r. split_and!; [done..|]. by intros [|].
  - subst st'. cbn [foldl].
    set (st1 := add_game REUSE_OLD_GAMES k st i).
    assert (extends (λ j, j = k) st st1) as Hstep by apply add_game_extends.
    assert (extends (λ _, True) st0 st1) as Hext1
      by exact (extends_trans (λ _, True) (λ j, j = k) (λ _, True) _ _ _
                  (λ _ _, I) (λ _ _, I) Hext Hstep).
    set (r := create_or_reuse_game REUSE_OLD_GAMES st.1 st.2
                (sides_of i).1 (sides_of i).2).
    assert (st1 = (alter (λ n, set_games (games n ++ [r.2]) n) k st.1, r.1))
      as Hst1.
    { unfold st1, add_game. rewrite Hk. simpl. rewrite node_subs.
      unfold r, sides_of. by case_decide. }
    assert (st1.1 !! k = Some (more_games (done ++ [r.2]) node)) as Hk1.
    { rewrite Hst1. cbn [fst]. rewrite list_lookup_alter_eq, Hk. simpl.
      f_equal. apply more_games_more. }
    destruct (IH st1 (done ++ [r.2]) Hext1 Hk1) as (added & Hlen & Hk' & Hslots).
    set (st' := foldl (add_game REUSE_OLD_GAMES k) st1 l) in *.
    assert (extends (λ j, j = k) st1 st') as Hrest.
    { apply foldl_extends. intros ? ? _. apply add_game_extends. }
    exists (r.2 :: added). split_and!.
    + simpl. by rewrite Hlen.
    + by rewrite <- (assoc_L (++)) in Hk'.
    + intros [|j] i' g Hi Hg; cbn [lookup list_lookup] in Hi, Hg.
      * injection Hi as <-. injection Hg as <-. cbn [take].
        rewrite app_nil_r. apply (slot_ok_extends _ _ _ _ _ _ Hrest).
        destruct (create_or_reuse_game_cases REUSE_OLD_GAMES st.1 st.2
                    (sides_of i).1 (sides_of i).2)
          as [(Hreuse & Hdb & Hr)|[Hr Hnone]]; fold r in Hr; try fold r in Hdb.
        -- left. apply sides_reusable in Hr as (Hg & Hx & Hy & Hf & Hu).
           rewrite Hst1. cbn [snd]. rewrite Hdb.
           apply not_elem_of_cons in Hu as [_ Hu].
           split_and!; try done.
           ++ destruct Hext as [_ _ (gn & Hgn & Hq) _]. rewrite Hgn in Hg.
              apply elem_of_app in Hg as [?|Hg]; [done|].
              rewrite Forall_forall in Hq. apply Hq in Hg. congruence.
           ++ intros Hin. apply Hu.
              exact (extends_attached _ _ _ _ Hext Hin).
           ++ intros Hin. apply Hu. apply elem_of_attached_game_ids.
              apply list_elem_of_fmap in Hin as (g' & Hid & Hg').
              exists (more_games done node), g'. split_and!; [|simpl|done].
              ** by eapply list_elem_of_lookup_2.
              ** apply elem_of_app. by right.
        -- assert (st1.2 = (create_queued_game st.2 (sides_of i).1
                                                 (sides_of i).2).1) as Hdb1
             by (rewrite Hst1; cbn [snd]; by rewrite Hr).
           right. rewrite Hdb1, Hr. cbn [fst snd].
           split_and!; [done|done| | |].
           ++ simpl. apply elem_of_app. right. left.
           ++ exists (db_games_submissions st.2), []. by rewrite app_nil_r.
           ++ intros Hreuse g0 Hg0.
              assert (reusable st.2 x y [] g0) as Hg0'
                by exact (extends_reusable _ _ _ _ _ _ _ Hext Hg0).
              destruct (decide (game_id g0 ∈ attached_game_ids st.1))
                as [Hin|Hnot]; [exact (extends_attached _ _ _ _ Hstep Hin)|].
              exfalso. apply (Hnone Hreuse g0), sides_reusable.
              destruct Hg0' as (? & ? & ? & ? & Hu).
              split_and!; try done.
              apply not_elem_of_cons in Hu as [? _].
              by apply not_elem_of_cons.
      * specialize (Hslots j i' g Hi Hg). cbn [take].
        by rewrite <- (assoc_L (++)) in Hslots.
Qed.

End slots.

Lemma filter_all {A} (P : A → Prop) `{∀ a, Decision (P a)} (l : list A) :
  Forall P l → filter P l = l.
Proof.
  induction 1 as [|a l Ha _ IH]; [done|].
  by rewrite filter_cons_True, IH.
Qed.

Lemma extends_weaken (c c' : nat → Prop) st st' :
  (∀ j, c j → c' j) → extends c st st' → extends c' st st'.
Proof.
  intros Hc Hext.
  exact (extends_trans c c c' _ _ _ Hc Hc Hext (extends_refl c st')).
Qed.

Lemma create_games_extends REUSE_OLD_GAMES BEST_OF (c : nat → Prop) l st :
  (∀ j, j ∈ l → c j) →
  extends c st (foldl (create_games_of REUSE_OLD_GAMES BEST_OF) st l).
Proof.
  intros Hc. apply foldl_extends. intros st' ix Hix.
  apply (extends_weaken (λ j, j = ix)); [by intros j ->; apply Hc|].
  apply create_games_of_extends.
Qed.

(** C7.  Take a node with two real submissions, no winner, and fewer than
    [BEST_OF] games that are finished, queued or playing.
    [create_needed_games] appends games to it, [BEST_OF] less that number
    of them, after which it has [BEST_OF] such games.  The game of number
    [i] (counting from that number) is made for [left, right] the two
    submissions, swapped when [i] is odd: it is a new queued game whose two
    rows of [games_submissions] are [left]'s, then [right]'s; or, with
    [REUSE_OLD_GAMES], a finished game that the database had, linked to
    both submissions, whose id was attached nowhere in the bracket and is
    the id of no game appended before it.  With [REUSE_OLD_GAMES] a new
    game is queued only when every finished game that the database had for
    the two submissions is attached in the bracket. *)
Theorem create_needed_games_fills
    (REUSE_OLD_GAMES : bool) (BEST_OF : Z) (db : DB) (nodes : list Node)
    (k : nat) (node : Node) (x y : SubmissionRow) :
  nodes !! k = Some node →
  winner node = None →
  submissions node = [Real x; Real y] →
  let n := Z.of_nat (length (finished_or_queued (games node))) in
  n < BEST_OF →
  let st' := create_needed_games REUSE_OLD_GAMES BEST_OF db nodes in
  ∃ added,
    st'.1 !! k = Some (set_games (games node ++ added) node) ∧
    Z.of_nat (length added) = BEST_OF - n ∧
    Z.of_nat (length (finished_or_queued (games node ++ added))) = BEST_OF ∧
    ∀ j g, added !! j = Some g →
           slot_ok REUSE_OLD_GAMES (Real x) (Real y) (nodes, db)
                   (take j added) (n + Z.of_nat j) g st'.
Proof.
  intros Hk Hwin Hsubs n Hn st'.
  assert (k < length nodes)%nat as Hlt by by eapply lookup_lt_Some.
  unfold st', create_needed_games.
  replace (length nodes) with (k + S (length nodes - S k))%nat by lia.
  rewrite seq_app. cbn [seq]. rewrite foldl_app. cbn [foldl].
  set (st1 := foldl _ (nodes, db) (seq 0 k)).
  assert (extends (λ j, j ≠ k) (nodes, db) st1) as Hext1.
  { apply create_games_extends. intros j Hj. apply elem_of_seq in Hj. lia. }
  assert (st1.1 !! k = Some node) as Hk1.
  { rewrite (ext_same _ _ _ Hext1) by (intros H; by apply H). done. }
  set (st2 := create_games_of REUSE_OLD_GAMES BEST_OF st1 (0 + k)).
  set (st3 := foldl _ st2 _).
  assert (extends (λ j, j ≠ k) st2 st3) as Hext3.
  { apply create_games_extends. intros j Hj. apply elem_of_seq in Hj. lia. }
  assert (st2 = foldl (add_game REUSE_OLD_GAMES k) st1 (seqZ n (BEST_OF - n)))
    as Hst2.
  { unfold st2, create_games_of. simpl. rewrite Hk1.
    rewrite decide_True by (by rewrite Hsubs).
    rewrite decide_False; [done|]. rewrite Hsubs.
    rewrite !elem_of_cons, elem_of_nil. intros [?|[?|[]]]; done. }
  destruct (add_games_spec REUSE_OLD_GAMES (Real x) (Real y) (nodes, db) k
              node Hsubs (seqZ n (BEST_OF - n)) st1 [])
    as (added & Hlen & Hk2 & Hslots).
  { exact (extends_weaken _ _ _ _ (λ _ _, I) Hext1). }
  { by rewrite more_games_nil. }
  rewrite <- Hst2 in Hk2, Hslots. rewrite length_seqZ in Hlen.
  assert (∀ j g, added !! j = Some g →
            slot_ok REUSE_OLD_GAMES (Real x) (Real y) (nodes, db)
                    (take j added) (n + Z.of_nat j) g st3) as Hall.
  { intros j g Hg. apply (slot_ok_extends _ _ _ _ _ _ _ _ _ _ Hext3).
    apply (Hslots j); [|done]. apply lookup_seqZ. split; [done|].
    apply lookup_lt_Some in Hg. lia. }
  exists added. split_and!; [|lia| |done].
  - rewrite (ext_same _ _ _ Hext3) by (intros H; by apply H). done.
  - unfold finished_or_queued. rewrite filter_app, length_app.
    fold (finished_or_queued (games node)).
    assert (filter (λ g, game_status g ∈ ["finished"; "queued"; "playing"])
              added = added) as ->; [|lia].
    apply filter_all. apply Forall_lookup. intros j g Hg.
    destruct (Hall j g Hg) as [(_ & -> & _)|(-> & _)].
    + left.
    + right. left.
Qed.

(** A database with one finished game 5 of the submissions 1 and 2. *)
Definition one_game_db : DB :=
  {| db_games := [won_game 5 1];
     db_games_submissions := [(5, 1); (5, 2)];
     db_games_id_seq := 5 |}.

(** C7 on a leaf of teams 1 and 2 without games, best of three, the
    database holding one finished game 5 of the two: the game 5 is taken
    first, then two games are queued, for (2, 1) and for (1, 2). *)
Lemma create_needed_games_fills_witness :
  (Z.of_nat (length (finished_or_queued (games (leaf [])))) < 3) ∧
  (∃ added,
     (create_needed_games true 3 one_game_db [leaf []]).1 !! 0%nat
     = Some (set_games (games (leaf []) ++ added) (leaf [])) ∧
     Z.of_nat (length added) = 3 - 0 ∧
     Z.of_nat (length (finished_or_queued (games (leaf []) ++ added))) = 3 ∧
     ∀ j g, added !! j = Some g →
            slot_ok true (Real (row 1)) (Real (row 2)) ([leaf []], one_game_db)
                    (take j added) (0 + Z.of_nat j) g
                    (create_needed_games true 3 one_game_db [leaf []])) ∧
  (create_needed_games true 3 one_game_db [leaf []]).2
  = {| db_games :=
         [won_game 5 1;
          {| game_id := 6; game_status := "queued"; winner_id := None;
             log_url := None |};
          {| game_id := 7; game_status := "queued"; winner_id := None;
             log_url := None |}];
       db_games_submissions :=
         [(5, 1); (5, 2); (6, 2); (6, 1); (7, 1); (7, 2)];
       db_games_id_seq := 7 |}.
Proof.
  split_and!.
  - simpl. lia.
  - exact (create_needed_games_fills true 3 one_game_db [leaf []] 0 (leaf [])
             (row 1) (row 2) eq_refl eq_refl eq_refl
             ltac:(simpl; lia)).
  - vm_compute. reflexivity.
Defined.

(** *** The ids of the attached games stay distinct *)

(** The games attached in the bracket have distinct ids, and the serial of
    [games.id] is ahead of them and of the rows of [games]. *)
Definition ids_distinct (st : list Node * DB) : Prop :=
  NoDup (attached_game_ids st.1) ∧
  (∀ z, z ∈ attached_game_ids st.1 → z ≤ db_games_id_seq st.2) ∧
  (∀ g, g ∈ db_games st.2 → game_id g ≤ db_games_id_seq st.2).

Lemma attached_game_ids_cons node nodes :
  attached_game_ids (node :: nodes)
  = (game_id <$> games node) ++ attached_game_ids nodes.
Proof.
  unfold attached_game_ids. csimpl. f_equal.
Qed.

Lemma attached_game_ids_alter g : ∀ nodes k node,
  nodes !! k = Some node →
  attached_game_ids (alter (λ n, set_games (games n ++ [g]) n) k nodes)
  ≡ₚ game_id g :: attached_game_ids nodes.
Proof.
  induction nodes as [|n nodes IH]; intros [|k] node Hk; [done|done| |];
    csimpl in *.
  - rewrite bind_app. csimpl. rewrite <- (assoc_L (++)). simpl.
    by rewrite <- Permutation_middle.
  - rewrite (IH k node Hk). by rewrite <- Permutation_middle.
Qed.

(** [update_game_status] keeps the ids of the attached games. *)
Lemma update_game_status_ids db nodes :
  attached_game_ids (update_game_status db nodes) = attached_game_ids nodes.
Proof.
  unfold update_game_status. case_decide as Hids; [done|]. clear Hids.
  assert (∀ k g, by_id (get_games db (unfinished_game_ids nodes)) !! k
                 = Some g → True ∧ game_id g = k) as Hm.
  { intros k g Hk. by apply by_id_lookup in Hk as [_ ?]. }
  revert Hm. generalize (by_id (get_games db (unfinished_game_ids nodes))).
  intros m Hm.
  induction nodes as [|node nodes IH]; [done|].
  rewrite fmap_cons, !attached_game_ids_cons, IH. f_equal. simpl.
  rewrite <- list_fmap_compose. apply list_fmap_ext. intros j g _. simpl.
  destruct (m !! game_id g) as [g'|] eqn:Hg; [|done]. simpl.
  by apply Hm in Hg as [_ ?].
Qed.

Lemma add_game_ids_distinct REUSE_OLD_GAMES ix st i :
  ids_distinct st → ids_distinct (add_game REUSE_OLD_GAMES ix st i).
Proof.
  intros (Hnd & Hatt & Hdb). unfold add_game.
  destruct (st.1 !! ix) as [node|] eqn:Hix; [|done].
  destruct (submissions node) as [|s0 [|s1 [|]]]; try done.
  set (sides := if decide (i `mod` 2 ≠ 0) then _ else _).
  set (r := create_or_reuse_game _ _ _ _ _).
  assert (∀ z, z ∈ attached_game_ids
                     (alter (λ n, set_games (games n ++ [r.2]) n) ix st.1) ↔
               z = game_id r.2 ∨ z ∈ attached_game_ids st.1) as Hin.
  { intros z. rewrite (attached_game_ids_alter _ _ _ _ Hix).
    by rewrite elem_of_cons. }
  destruct (create_or_reuse_game_cases REUSE_OLD_GAMES st.1 st.2
              sides.1 sides.2) as [(_ & Heq & Hr)|[Hr _]].
  - fold r in Heq, Hr. destruct Hr as (Hg & _ & _ & _ & Hu).
    apply not_elem_of_cons in Hu as [_ Hu].
    split_and!; cbn [fst snd].
    + rewrite (attached_game_ids_alter _ _ _ _ Hix). by constructor.
    + intros z. rewrite Hin, Heq. intros [->|?]; [by apply Hdb|by apply Hatt].
    + by rewrite Heq.
  - fold r in Hr.
    assert (game_id r.2 = db_games_id_seq st.2 + 1) as Hid
      by by rewrite Hr.
    assert (db_games_id_seq r.1 = db_games_id_seq st.2 + 1) as Hseq
      by by rewrite Hr.
    assert (db_games r.1 = db_games st.2 ++ [r.2]) as Hgames
      by by rewrite Hr.
    split_and!; cbn [fst snd].
    + rewrite (attached_game_ids_alter _ _ _ _ Hix). constructor; [|done].
      intros Hz. apply Hatt in Hz. lia.
    + intros z Hz. apply Hin in Hz as [->|Hz]; [lia|].
      apply Hatt in Hz. lia.
    + intros g. rewrite Hgames, elem_of_app, list_elem_of_singleton.
      intros [Hg| ->]; [apply Hdb in Hg|]; lia.
Qed.

(** [create_needed_games] keeps the ids of the attached games distinct. *)
Lemma create_needed_games_ids_distinct REUSE_OLD_GAMES BEST_OF db nodes :
  ids_distinct (nodes, db) →
  ids_distinct (create_needed_games REUSE_OLD_GAMES BEST_OF db nodes).
Proof.
  unfold create_needed_games. generalize (seq 0 (length nodes)).
  generalize (nodes, db). intros st l. revert st.
  induction l as [|ix l IH]; intros st Hst; [done|].
  cbn [foldl]. apply IH. unfold create_games_of.
  destruct (st.1 !! ix); [|done]. repeat case_decide; try done.
  generalize (seqZ (Z.of_nat (length (finished_or_queued (games n))))
                (BEST_OF - Z.of_nat (length (finished_or_queued (games n))))).
  intros slots. revert st Hst.
  induction slots as [|i slots IHs]; intros st Hst; [done|].
  cbn [foldl]. by apply IHs, add_game_ids_distinct.
Qed.

(** With distinct ids, a game recorded as finished shares its id with no
    other attached game. *)
Lemma ids_distinct_finished nodes (node node' : Node) (g g' : Game) :
  NoDup (attached_game_ids nodes) →
  node ∈ nodes → g ∈ games node → node' ∈ nodes → g' ∈ games node' →
  game_id g' = game_id g → g' = g.
Proof.
  induction nodes as [|n nodes IH]; intros Hnd Hn Hg Hn' Hg' Hid.
  - by apply elem_of_nil in Hn.
  - rewrite attached_game_ids_cons in Hnd.
    apply NoDup_app in Hnd as (Hnd1 & Hdisj & Hnd2).
    assert (∀ m (h : Game), m ∈ nodes → h ∈ games m →
              game_id h ∈ attached_game_ids nodes) as Hrest.
    { intros m h ? ?. apply elem_of_attached_game_ids. by exists m, h. }
    apply elem_of_cons in Hn as [->|Hn], Hn' as [->|Hn'].
    + assert (∀ l : list Game, NoDup (game_id <$> l) → g ∈ l → g' ∈ l →
                g' = g) as Hin.
      { induction l as [|h l IHl]; intros Hl H1 H2;
          [by apply elem_of_nil in H1|].
        rewrite fmap_cons in Hl. apply NoDup_cons in Hl as [Hh Hl].
        apply elem_of_cons in H1 as [->|H1], H2 as [->|H2]; try done.
        - exfalso. apply Hh. rewrite <- Hid. by apply list_elem_of_fmap_2.
        - exfalso. apply Hh. rewrite Hid. by apply list_elem_of_fmap_2.
        - by apply IHl. }
      by eapply Hin.
    + exfalso. apply (Hdisj (game_id g)).
      * by apply list_elem_of_fmap_2.
      * rewrite <- Hid. by eapply Hrest.
    + exfalso. apply (Hdisj (game_id g')).
      * by apply list_elem_of_fmap_2.
      * rewrite Hid. by eapply Hrest.
    + by eapply IH.
Qed.

(** With distinct ids, every game recorded as finished is left alone by
    [update_game_status], which keeps the ids distinct. *)
Lemma update_game_status_distinct_ids (db : DB) (nodes : list Node)
    (k : nat) (nodek : Node) (p : nat) (g : Game) :
  NoDup (attached_game_ids nodes) →
  nodes !! k = Some nodek →
  games nodek !! p = Some g →
  game_status g = "finished" →
  NoDup (attached_game_ids (update_game_status db nodes)) ∧
  (game_id g ∉ unfinished_game_ids nodes) ∧
  (∃ nodek', update_game_status db nodes !! k = Some nodek' ∧
             games nodek' !! p = Some g).
Proof.
  intros Hnd Hk Hp Hfin. split; [by rewrite update_game_status_ids|].
  apply (update_game_status_finished db nodes k nodek p g Hk Hp Hfin).
  intros node' g' Hn' Hg' Hid.
  rewrite (ids_distinct_finished nodes nodek node' g g' Hnd); try done.
  - by eapply list_elem_of_lookup_2.
  - by eapply list_elem_of_lookup_2.
Qed.

End SchedulerProofs.

(** ** The match runner *)
Module PyrenaProofs.
Import Pyrena.
Import SortedProofs.

(** *** [grab_queued_game] *)

(** [m] is the lowest id of a queued game. *)
Definition lowest_queued (games : list Game) (m : Z) : Prop :=
  (∃ g, g ∈ games ∧ game_status g = "queued" ∧ game_id g = m) ∧
  ∀ g, g ∈ games → game_status g = "queued" → m ≤ game_id g.

(** A row of [games] after the game [m] was claimed. *)
Definition claimed (m : Z) (g : Game) : Game :=
  if decide (game_id g = m) then set_status "playing" g else g.

Lemma select_queued_Some db m :
  select_queued db = Some m → lowest_queued (db_games db) m.
Proof.
  unfold select_queued. intros Hhead.
  set (ids := game_id <$> filter _ (db_games db)) in Hhead.
  assert (m ∈ ids) as Hm.
  { apply (sorted_elem (λ i, i)). destruct (sorted _ ids); simplify_eq/=. left. }
  split.
  - apply list_elem_of_fmap in Hm as (g & -> & Hg).
    apply list_elem_of_filter in Hg as [? ?]. by exists g.
  - intros g Hg Hq.
    apply (sorted_least_first (λ i, i) ids m (game_id g) Hhead).
    apply sorted_elem_2, list_elem_of_fmap. exists g. split; [done|].
    by apply list_elem_of_filter.
Qed.

Lemma select_queued_None db g :
  select_queued db = None → g ∈ db_games db → game_status g ≠ "queued".
Proof.
  unfold select_queued. intros Hhead Hg Hq.
  set (ids := game_id <$> filter _ (db_games db)) in Hhead.
  assert (game_id g ∈ sorted (λ i, i) ids) as Hin.
  { apply sorted_elem_2, list_elem_of_fmap. exists g. split; [done|].
    by apply list_elem_of_filter. }
  destruct (sorted _ ids); [by apply elem_of_nil in Hin|done].
Qed.

Lemma filter_none {A} (P : A → Prop) `{∀ a, Decision (P a)} (l : list A) :
  (∀ a, a ∈ l → ¬ P a) → filter P l = [].
Proof.
  induction l as [|a l IH]; intros Hl; [done|].
  rewrite filter_cons_False by (apply Hl; left).
  apply IH. intros b Hb. apply Hl. by right.
Qed.

(** Of submissions with distinct ids, those with one of two ids that both
    occur are two. *)
Lemma filter_one (subs : list SubmissionRow) (c d : Z) :
  NoDup (sub_id <$> subs) → c ∈ sub_id <$> subs → d ∉ sub_id <$> subs →
  ∃ s, filter (λ s, sub_id s = c ∨ sub_id s = d) subs = [s] ∧ sub_id s = c.
Proof.
  induction subs as [|s subs IH]; csimpl; intros Hnd Hc Hd.
  - by apply elem_of_nil in Hc.
  - apply NoDup_cons in Hnd as [Hs Hnd].
    apply not_elem_of_cons in Hd as [Hds Hd].
    rewrite filter_cons.
    destruct (decide (sub_id s = c)) as [Hsc|Hsc].
    + rewrite decide_True by by left. exists s. split; [|done]. f_equal.
      apply filter_none. intros s' Hs' [Hc'|Hd'].
      * apply Hs. rewrite Hsc, <- Hc'. by apply list_elem_of_fmap_2.
      * apply Hd. rewrite <- Hd'. by apply list_elem_of_fmap_2.
    + rewrite decide_False by (intros [?|?]; congruence).
      apply elem_of_cons in Hc as [?|Hc]; [congruence|]. by apply IH.
Qed.

Lemma filter_two (subs : list SubmissionRow) (a b : Z) :
  a ≠ b → NoDup (sub_id <$> subs) →
  a ∈ sub_id <$> subs → b ∈ sub_id <$> subs →
  ∃ s1 s2,
    filter (λ s, sub_id s = a ∨ sub_id s = b) subs = [s1; s2] ∧
    ((sub_id s1 = a ∧ sub_id s2 = b) ∨ (sub_id s1 = b ∧ sub_id s2 = a)).
Proof.
  intros Hab. induction subs as [|s subs IH]; csimpl; intros Hnd Ha Hb.
  - by apply elem_of_nil in Ha.
  - apply NoDup_cons in Hnd as [Hs Hnd].
    rewrite filter_cons.
    destruct (decide (sub_id s = a)) as [Hsa|Hsa];
      [|destruct (decide (sub_id s = b)) as [Hsb|Hsb]].
    + rewrite decide_True by by left.
      apply elem_of_cons in Hb as [?|Hb]; [congruence|].
      destruct (filter_one subs b a Hnd Hb) as (s2 & Hf & Hs2);
        [by rewrite <- Hsa|].
      exists s, s2. split; [|by left]. f_equal. rewrite <- Hf.
      apply list_filter_iff. tauto.
    + rewrite decide_True by by right.
      apply elem_of_cons in Ha as [?|Ha]; [congruence|].
      destruct (filter_one subs a b Hnd Ha) as (s2 & Hf & Hs2);
        [by rewrite <- Hsb|].
      exists s, s2. split; [|by right]. by f_equal.
    + rewrite decide_False by (intros [?|?]; congruence).
      apply elem_of_cons in Ha as [?|Ha]; [congruence|].
      apply elem_of_cons in Hb as [?|Hb]; [congruence|]. by apply IH.
Qed.

(** C1.  Either no game is queued, and [grab_queued_game] returns
    [(None, None)] and leaves the database as it is; or, [m] being the
    lowest id of a queued game, every row of [games] with the id [m] gets
    the status [playing] and every other row, and the other tables, stay
    as they are, and what is returned is [m] with the submissions of the
    given list whose id is linked to the game [m], in the order of that
    list: two of them, with the two ids of the game, when the game has two
    rows of [games_submissions], of distinct ids that both occur in the
    list, whose ids are distinct. *)
Theorem grab_queued_game_claims_lowest
    (db : DB) (submissions : list SubmissionRow) :
  let r := grab_queued_game db submissions in
  ((∀ g, g ∈ db_games db → game_status g ≠ "queued") ∧
   r = (db, (None, None))) ∨
  (∃ m pair,
     lowest_queued (db_games db) m ∧
     r.2 = (Some m, Some pair) ∧
     db_games r.1 = claimed m <$> db_games db ∧
     db_games_submissions r.1 = db_games_submissions db ∧
     db_games_id_seq r.1 = db_games_id_seq db ∧
     (∀ g, g ∈ db_games r.1 → game_id g = m → game_status g = "playing") ∧
     (∀ i g, db_games db !! i = Some g → game_id g ≠ m →
             db_games r.1 !! i = Some g) ∧
     pair = filter (λ s, (m, sub_id s) ∈ db_games_submissions db)
                   submissions ∧
     (∀ a b,
        snd <$> filter (λ gs, gs.1 = m) (db_games_submissions db) = [a; b] →
        a ≠ b →
        NoDup (sub_id <$> submissions) →
        a ∈ sub_id <$> submissions → b ∈ sub_id <$> submissions →
        ∃ s1 s2, pair = [s1; s2] ∧
          ((sub_id s1 = a ∧ sub_id s2 = b) ∨
           (sub_id s1 = b ∧ sub_id s2 = a)))).
Proof.
  intros r. subst r. unfold grab_queued_game, claim_queued.
  destruct (select_queued db) as [m|] eqn:Hsel.
  - right. pose proof (select_queued_Some db m Hsel) as Hlow.
    assert (head (game_id <$> filter (λ g, game_id g = m) (db_games db))
            = Some m) as Hhead.
    { destruct Hlow as [(g & Hg & _ & Hid) _].
      assert (g ∈ filter (λ g, game_id g = m) (db_games db)) as Hin
        by by apply list_elem_of_filter.
      destruct (filter _ (db_games db)) as [|g0 l] eqn:Hf;
        [by apply elem_of_nil in Hin|].
      assert (g0 ∈ filter (λ g, game_id g = m) (db_games db)) as Hg0
        by (rewrite Hf; left).
      apply list_elem_of_filter in Hg0 as [Hg0 _]. csimpl. by rewrite Hg0. }
    cbn [fst snd]. rewrite Hhead. cbn [fst snd db_games db_games_submissions
                                      db_games_id_seq].
    set (pair := filter _ submissions).
    assert (pair = filter (λ s, (m, sub_id s) ∈ db_games_submissions db)
                          submissions) as Hpair.
    { unfold pair. apply list_filter_iff. intros s.
      rewrite list_elem_of_fmap. setoid_rewrite list_elem_of_filter. split.
      - intros ([gid sid] & Hsid & Hgid & Hin). simpl in *. by subst.
      - intros Hin. by exists (m, sub_id s). }
    exists m, pair. split_and!; try done.
    + intros g Hg Hid. apply list_elem_of_fmap in Hg as (g0 & -> & _).
      unfold claimed in *. by case_decide.
    + intros i g Hi Hne. rewrite list_lookup_fmap, Hi. simpl.
      unfold claimed. by rewrite decide_False.
    + intros a b Hrows Hab Hnd Ha Hb.
      destruct (filter_two submissions a b Hab Hnd Ha Hb)
        as (s1 & s2 & Hf & Hids).
      exists s1, s2. split; [|done]. rewrite <- Hf. unfold pair.
      apply list_filter_iff. intros s. cbn [db_games_submissions].
      rewrite Hrows, !elem_of_cons, elem_of_nil. tauto.
  - left. split.
    + intros g. by apply select_queued_None.
    + done.
Qed.

(** A database with the queued games 4 and 3. *)
Definition queue_db : DB :=
  {| db_games :=
       [{| game_id := 2; game_status := "finished"; winner_id := Some 10;
           log_url := None |};
        {| game_id := 4; game_status := "queued"; winner_id := None;
           log_url := None |};
        {| game_id := 3; game_status := "queued"; winner_id := None;
           log_url := None |}];
     db_games_submissions :=
       [(2, 10); (2, 20); (4, 10); (4, 20); (3, 30); (3, 10)];
     db_games_id_seq := 4 |}.

Definition submission (i : Z) : SubmissionRow :=
  {| sub_id := i; sub_name := "team"; sub_version := 1;
     sub_status := "finished"; sub_created_at := 0 |}.

(** C1 on the queued games 4, of submissions 10 and 20, and 3, of 30 and
    10: the game 3 is claimed, with the submissions 10 and 30. *)
Lemma grab_queued_game_claims_lowest_witness :
  (grab_queued_game queue_db (submission <$> [10; 20; 30])).2
  = (Some 3, Some [submission 10; submission 30]) ∧
  ∃ s1 s2,
    [submission 10; submission 30] = [s1; s2] ∧
    ((sub_id s1 = 30 ∧ sub_id s2 = 10) ∨ (sub_id s1 = 10 ∧ sub_id s2 = 30)).
Proof.
  split; [vm_compute; reflexivity|].
  destruct (grab_queued_game_claims_lowest queue_db
              (submission <$> [10; 20; 30]))
    as [[Hnone _]|(m & pair & _ & Hr & _ & _ & _ & _ & _ & _ & Htwo)].
  - exfalso. apply (Hnone (Build_Game 3 "queued" None None)); [|done].
    do 2 right. left.
  - injection Hr as <- <-.
    apply (Htwo 30 10); [vm_compute; reflexivity|done| | |].
    + vm_compute. repeat constructor; set_solver.
    + do 2 right. left.
    + left.
Defined.

(** *** [generate_nonrecent_pairing] *)

Lemma for_each_Ok {A B} (f : A → result B) (l : list A) (bs : list B) :
  for_each f l = Ok bs →
  Forall2 (λ a b, f a = Ok b) l bs.
Proof.
  revert bs. induction l as [|a l IH]; intros bs Hrun; simpl in Hrun.
  - injection Hrun as <-. constructor.
  - destruct (f a) as [b| |] eqn:Hb; try done. simpl in Hrun.
    destruct (for_each f l) as [bs'| |]; try done. simpl in Hrun.
    injection Hrun as <-. constructor; [done|by apply IH].
Qed.

Lemma choice_elem ids t i t' : choice ids t = Ok (i, t') → i ∈ ids.
Proof.
  unfold choice. destruct t as [|r t]; [done|].
  destruct (ids !! _) as [j|] eqn:Hj; [|done].
  intros [= <- <-]. by eapply list_elem_of_lookup_2.
Qed.

Lemma choose_other_elem ids a : ∀ t b b' t',
  b ∈ ids → choose_other ids a b t = Ok (b', t') → b' ∈ ids ∧ b' ≠ a.
Proof.
  induction t as [|r t IH]; intros b b' t' Hb; simpl; case_decide; try done.
  - by intros [= <- <-].
  - destruct (ids !! _) as [j|] eqn:Hj; [|done].
    apply IH. by eapply list_elem_of_lookup_2.
  - by intros [= <- <-].
Qed.

(** Two distinct ids of the submissions, the lower one first. *)
Definition pair_of (submissions : list SubmissionRow) (pair : list Z) : Prop :=
  ∃ c d, pair = [c; d] ∧ c < d ∧
         c ∈ sub_id <$> submissions ∧ d ∈ sub_id <$> submissions.

Lemma sorted_two (a b : Z) :
  sorted (λ i, i) [a; b] = if decide (b < a) then [b; a] else [a; b].
Proof. done. Qed.

Lemma generate_pairing_pair submissions t pair t' :
  generate_pairing submissions t = Ok (pair, t') → pair_of submissions pair.
Proof.
  unfold generate_pairing. case_decide; [done|].
  destruct (choice _ t) as [[a ta]| |] eqn:Ha; try done.
  cbn [mbind result_bind fst snd].
  destruct (choice _ ta) as [[b tb]| |] eqn:Hb; try done.
  cbn [mbind result_bind fst snd].
  destruct (choose_other _ a b tb) as [[b' tb']| |] eqn:Hb'; try done.
  cbn [mbind result_bind fst snd]. intros [= <- <-].
  apply choice_elem in Ha, Hb.
  apply choose_other_elem in Hb' as [Hin Hne]; [|done].
  rewrite sorted_two. case_decide.
  - exists b', a. by split_and!.
  - exists a, b'. split_and!; [done|lia|done..].
Qed.

Lemma try_again_fresh submissions pairs tries : ∀ pair t pair' t',
  pair_of submissions pair →
  try_again submissions pairs tries pair t = Ok (pair', t') →
  pair_of submissions pair' ∧ pair' ∉ pairs.
Proof.
  induction tries as [|tries IH]; intros pair t pair' t' Hpair;
    cbn [try_again]; case_decide.
  - by destruct (generate_pairing submissions t).
  - by intros [= <- <-].
  - destruct (generate_pairing submissions t) as [[p tp]| |] eqn:Hp;
      try done.
    cbn [mbind result_bind fst snd]. destruct tries as [|tries']; [done|].
    apply IH. by eapply generate_pairing_pair.
  - by intros [= <- <-].
Qed.

Lemma id_to_submissions_lookup submissions i s :
  id_to_submissions submissions !! i = Some s →
  s ∈ submissions ∧ sub_id s = i.
Proof.
  unfold id_to_submissions.
  assert (∀ m : gmap Z SubmissionRow,
            foldl (λ m s, <[sub_id s := s]> m) m submissions !! i = Some s →
            (s ∈ submissions ∧ sub_id s = i) ∨ m !! i = Some s) as H.
  { induction submissions as [|s0 l IH]; intros m Hi; simpl in *; [by right|].
    destruct (IH _ Hi) as [[Hin Hid]|Hm].
    - left. split; [by right|done].
    - destruct (decide (sub_id s0 = i)) as [<-|Hne].
      + rewrite lookup_insert_eq in Hm. simplify_eq. left. split; [left|done].
      + rewrite lookup_insert_ne in Hm by done. by right. }
  intros Hi. destruct (H _ Hi) as [?|Hm]; [done|].
  by rewrite lookup_empty in Hm.
Qed.

(** C4.  When [generate_nonrecent_pairing] returns, it returns two
    submissions of the given list, distinct and of distinct ids; and every
    given game that is not queued has ids that were read, and they are not
    the two ids returned, in either order. *)
Theorem generate_nonrecent_pairing_fresh
    (submissions : list SubmissionRow) (games : list RecentGame)
    (t t' : tape) (found : list SubmissionRow) :
  generate_nonrecent_pairing submissions games t = Ok (found, t') →
  ∃ s1 s2,
    found = [s1; s2] ∧
    s1 ∈ submissions ∧ s2 ∈ submissions ∧
    s1 ≠ s2 ∧ sub_id s1 ≠ sub_id s2 ∧
    ∀ g, g ∈ games → rg_status g ≠ "queued" →
      ∃ ids,
        for_each int (split ","%char (rg_submission_ids g)) = Ok ids ∧
        ids ≠ [sub_id s1; sub_id s2] ∧ ids ≠ [sub_id s2; sub_id s1].
Proof.
  unfold generate_nonrecent_pairing.
  destruct (recent_pairs games) as [pairs| |] eqn:Hpairs; try done.
  cbn [mbind result_bind].
  destruct (generate_pairing submissions t) as [[p tp]| |] eqn:Hp; try done.
  cbn [mbind result_bind fst snd].
  destruct (try_again submissions pairs 200 p tp) as [[q tq]| |] eqn:Hq;
    try done.
  cbn [mbind result_bind fst snd].
  apply generate_pairing_pair in Hp.
  apply try_again_fresh in Hq as [(c & d & -> & Hcd & _ & _) Hfresh];
    [|done].
  destruct (for_each _ [c; d]) as [ss| |] eqn:Hss; try done.
  cbn [mbind result_bind]. intros [= <- <-].
  apply for_each_Ok in Hss.
  apply Forall2_cons_inv_l in Hss as (s1 & ss1 & Hs1 & Hss & ->).
  apply Forall2_cons_inv_l in Hss as (s2 & ss2 & Hs2 & Hss & ->).
  apply Forall2_nil_inv_l in Hss as ->.
  destruct (id_to_submissions submissions !! c) as [s1'|] eqn:Hc; [|done].
  destruct (id_to_submissions submissions !! d) as [s2'|] eqn:Hd; [|done].
  simpl in Hs1, Hs2. simplify_eq.
  apply id_to_submissions_lookup in Hc as [Hin1 Hid1], Hd as [Hin2 Hid2].
  exists s1, s2. split_and!; [done|done|done| |lia|].
  { intros ->. lia. }
  intros g Hg Hstatus.
  unfold recent_pairs in Hpairs. apply for_each_Ok in Hpairs.
  assert (g ∈ filter (λ g, rg_status g ≠ "queued") games) as Hin
    by by apply list_elem_of_filter.
  apply list_elem_of_lookup in Hin as [j Hj].
  destruct (Forall2_lookup_l _ _ _ _ _ Hpairs Hj) as (pair & Hpair & Hread).
  destruct (for_each int _) as [ids| |] eqn:Hids; try done.
  cbn [mbind result_bind] in Hread. injection Hread as <-.
  apply list_elem_of_lookup_2 in Hpair.
  exists ids. split; [done|].
  split; intros ->; apply Hfresh; revert Hpair; rewrite sorted_two, Hid1, Hid2.
  - by rewrite decide_False by lia.
  - by rewrite decide_True by lia.
Qed.

(** Two recent games. *)
Definition recent : list RecentGame :=
  [{| rg_id := 1; rg_status := "finished"; rg_submission_ids := "20,10" |};
   {| rg_id := 2; rg_status := "queued"; rg_submission_ids := "10,30" |}].

(** C4 on three submissions, a finished game of 20 and 10, a queued game
    of 10 and 30, and the random numbers 0, 1, 0, 2: the pair (10, 20) is
    drawn and dropped, then the pair (10, 30) is returned. *)
Lemma generate_nonrecent_pairing_fresh_witness :
  generate_nonrecent_pairing (submission <$> [10; 20; 30]) recent
    [0; 1; 0; 2]%nat
  = Ok ([submission 10; submission 30], []) ∧
  ∃ s1 s2,
    [submission 10; submission 30] = [s1; s2] ∧
    s1 ∈ submission <$> [10; 20; 30] ∧ s2 ∈ submission <$> [10; 20; 30] ∧
    s1 ≠ s2 ∧ sub_id s1 ≠ sub_id s2 ∧
    ∀ g, g ∈ recent → rg_status g ≠ "queued" →
      ∃ ids,
        for_each int (split ","%char (rg_submission_ids g)) = Ok ids ∧
        ids ≠ [sub_id s1; sub_id s2] ∧ ids ≠ [sub_id s2; sub_id s1].
Proof.
  assert (generate_nonrecent_pairing (submission <$> [10; 20; 30]) recent
            [0; 1; 0; 2]%nat
          = Ok ([submission 10; submission 30], [])) as Hrun
    by (vm_compute; reflexivity).
  split; [exact Hrun|].
  exact (generate_nonrecent_pairing_fresh _ _ _ _ _ Hrun).
Defined.

(** *** [verify_submission_contents] *)

(** C9.  When the Joueur directory of a submission is found and it has no
    file [Makefile] or [makefile], or no file [run],
    [verify_submission_contents] raises, and what it raises is the
    [NameError] of the name [unzipped_folder], which the messages read and
    the function never assigns: not an [Exception] with a message that
    names the submission or the file. *)
Theorem verify_submission_contents_name_error
    (SUBMISSION_CACHE_PATH : string)
    (os_walk : string → option (list string * list string))
    (global_text : string → string)
    (submission_id : Z) (joueur_path : string)
    (dirnames filenames : list string) :
  submission_joueur_folder SUBMISSION_CACHE_PATH os_walk submission_id
  = Ok joueur_path →
  os_walk joueur_path = Some (dirnames, filenames) →
  (("Makefile" ∉ filenames) ∧ ("makefile" ∉ filenames)) ∨
  ("run" ∉ filenames) →
  verify_submission_contents SUBMISSION_CACHE_PATH os_walk global_text
    submission_id
  = Raise (NameError "unzipped_folder") ∧
  ∀ msg,
    verify_submission_contents SUBMISSION_CACHE_PATH os_walk global_text
      submission_id
    ≠ Raise (Exception msg).
Proof.
  intros Hfolder Hwalk Hmissing.
  assert (verify_submission_contents SUBMISSION_CACHE_PATH os_walk
            global_text submission_id
          = Raise (NameError "unzipped_folder")) as Hraise.
  { unfold verify_submission_contents. rewrite Hfolder.
    cbn [mbind result_bind]. unfold next_walk. rewrite Hwalk.
    cbn [mbind result_bind fst snd].
    assert (load_global global_text "unzipped_folder"
            = Raise (NameError "unzipped_folder")) as Hname
      by (vm_compute; reflexivity).
    destruct (decide (("Makefile" ∉ filenames) ∧ ("makefile" ∉ filenames)))
      as [?|Hmake]; [by rewrite Hname|].
    destruct (decide ("run" ∉ filenames)) as [?|Hrun]; [by rewrite Hname|].
    by destruct Hmissing. }
  split; [done|]. intros msg. by rewrite Hraise.
Qed.

(** The directories of a submission 7. *)
Definition files_of_7 (top : string) : option (list string * list string) :=
  if decide (top = "/tmp/submission_cache/submission_7")
  then Some (["Joueur.py"], [])
  else if decide (top = "/tmp/submission_cache/submission_7/Joueur.py")
  then Some ([], ["main.py"])
  else None.

(** C9 on a submission 7 that unpacks to [Joueur.py] holding only
    [main.py]. *)
Lemma verify_submission_contents_name_error_witness :
  verify_submission_contents "/tmp/submission_cache" files_of_7 (λ n, n) 7
  = Raise (NameError "unzipped_folder").
Proof.
  refine (proj1 (verify_submission_contents_name_error
                   "/tmp/submission_cache" files_of_7 (λ n, n) 7
                   "/tmp/submission_cache/submission_7/Joueur.py"
                   [] ["main.py"] _ _ _)).
  - vm_compute. reflexivity.
  - vm_compute. reflexivity.
  - left. split; rewrite list_elem_of_singleton; discriminate.
Defined.

End PyrenaProofs.


(** ** The bracket: pairing, refreshing, declaring, enqueueing *)

Module BracketProofs.
Import TournamentScheduler.
Import SortedProofs.
Import SchedulerProofs.

(** *** [pairwise] *)

(** X1.  [pairwise] pairs the entries [2 k] and [2 k + 1] of a list: its
    entry [k] is [(a, b)] exactly when the list has [a] at [2 k] and [b]
    at [2 k + 1].  It has half as many entries as the list, rounded down:
    the last entry of a list of odd length is in no pair. *)
Theorem pairwise_lookup {A} (l : list A) :
  (∀ k a b,
     pairwise l !! k = Some (a, b) ↔
     l !! (2 * k)%nat = Some a ∧ l !! (2 * k + 1)%nat = Some b) ∧
  length (pairwise l) = (length l / 2)%nat.
Proof.
  split; [|apply length_pairwise].
  intros k. revert l. induction k as [|k IH]; intros [|x [|y l]] a b;
    cbn [pairwise]; try (split; [done|intros [? ?]; done]).
  - simpl. split; [by intros [= -> ->]|by intros [[= ->] [= ->]]].
  - replace (2 * S k)%nat with (S (S (2 * k))) by lia.
    replace (S (S (2 * k)) + 1)%nat with (S (S (2 * k + 1))) by lia.
    simpl. apply IH.
Qed.

(** *** The first call *)

Lemma append_in_turn_fields shuffled nodes : ∀ i r,
  append_in_turn shuffled i nodes = Ok r →
  Forall2 (λ node node', node' = set_submissions (submissions node') node)
          nodes r.1.
Proof.
  induction nodes as [|node nodes IH]; intros i r Hrun; simpl in Hrun.
  - injection Hrun as <-. constructor.
  - destruct (shuffled !! i) as [s|]; [|done].
    destruct (append_in_turn shuffled (S i) nodes) as [r'| |] eqn:Hr; try done.
    cbn [mbind result_bind] in Hrun. injection Hrun as <-. cbn [fst].
    constructor; [done|]. by eapply IH.
Qed.

(** What [generate_initial_pairing] returns: at least one node, and nodes
    that have nothing but submissions. *)
Definition bare (node : Node) : Prop :=
  node = set_submissions (submissions node) Node_init.

Lemma generate_initial_pairing_width shuffle subs leaves :
  generate_initial_pairing shuffle subs = Ok leaves →
  1 ≤ Z.log2_up (Z.of_nat (length subs)) ∧
  length leaves
  = Z.to_nat (2 ^ (Z.log2_up (Z.of_nat (length subs)) - 1)).
Proof.
  unfold generate_initial_pairing.
  destruct (ceil_log2 _) as [c| |] eqn:Hc; try done.
  cbn [mbind result_bind].
  unfold ceil_log2 in Hc. case_decide as Hn; [|done]. injection Hc as <-.
  unfold pow2. case_decide as Hpos; cbn [num_mul num_sub seq_mul]; [|done].
  cbn [mbind result_bind range].
  destruct (append_in_turn _ 0 _) as [r1| |] eqn:H1; try done.
  cbn [mbind result_bind].
  destruct (append_in_turn _ r1.2 _) as [r2| |] eqn:H2; try done.
  cbn [mbind result_bind]. intros [= <-].
  apply append_in_turn_fields in H1, H2.
  pose proof (Forall2_length _ _ _ H1) as Hl1.
  pose proof (Forall2_length _ _ _ H2) as Hl2.
  rewrite length_map, length_seq in Hl1. split; [lia|congruence].
Qed.

Lemma generate_initial_pairing_bare shuffle subs leaves :
  generate_initial_pairing shuffle subs = Ok leaves →
  leaves ≠ [] ∧ Forall bare leaves.
Proof.
  unfold generate_initial_pairing.
  destruct (ceil_log2 _) as [c| |] eqn:Hc; try done.
  cbn [mbind result_bind].
  unfold ceil_log2 in Hc. case_decide as Hn; [|done]. injection Hc as <-.
  unfold pow2. case_decide as Hpos; cbn [num_mul num_sub seq_mul]; [|done].
  cbn [mbind result_bind range].
  set (width := Z.to_nat (2 ^ (Z.log2_up (Z.of_nat (length subs)) - 1))).
  assert (0 < width)%nat as Hwidth.
  { unfold width.
    pose proof (Z.pow_pos_nonneg 2
                  (Z.log2_up (Z.of_nat (length subs)) - 1)). lia. }
  destruct (append_in_turn _ 0 _) as [r1| |] eqn:H1; try done.
  cbn [mbind result_bind].
  destruct (append_in_turn _ r1.2 _) as [r2| |] eqn:H2; try done.
  cbn [mbind result_bind]. intros [= <-].
  apply append_in_turn_fields in H1, H2.
  pose proof (Forall2_length _ _ _ H1) as Hl1.
  pose proof (Forall2_length _ _ _ H2) as Hl2.
  rewrite length_map, length_seq in Hl1.
  split.
  - intros Hnil. rewrite Hnil in Hl2. simpl in Hl2. lia.
  - apply Forall_lookup. intros j node Hj.
    destruct (Forall2_lookup_r _ _ _ _ _ H2 Hj) as (n1 & Hn1 & Heq).
    destruct (Forall2_lookup_r _ _ _ _ _ H1 Hn1) as (n0 & Hn0 & Heq1).
    assert (n0 = Node_init) as ->.
    { revert Hn0. generalize (seq 0 width). clear. intros l. revert j.
      induction l as [|x l IH]; intros [|j]; simpl; try done.
      - by intros [= <-].
      - apply IH. }
    unfold bare. rewrite Heq at 1. by rewrite Heq1.
Qed.

Lemma available_bare max_losses nodes :
  Forall bare nodes → available max_losses nodes = [].
Proof.
  intros Hbare. unfold available.
  generalize (count_losses nodes). intros losses.
  assert (∀ k, mjoin (imap (λ j, available_of max_losses losses (k + j))
                           nodes) = []) as H.
  { induction Hbare as [|node nodes Hnode _ IH]; intros k; [done|].
    csimpl. rewrite Hnode. simpl.
    rewrite <- (IH (S k)). f_equal. apply imap_ext. intros j ? _. simpl.
    f_equal. lia. }
  apply (H 0%nat).
Qed.

Lemma online_from_nothing (shuffle : list Submission → list Submission)
    (subs : list Submission) (max_losses : Z) :
  generate_n_elimination_bracket_online shuffle subs [] max_losses
  = (leaves ← generate_initial_pairing shuffle subs; Ok (leaves, None)).
Proof.
  unfold generate_n_elimination_bracket_online, start.
  rewrite decide_True by done.
  destruct (generate_initial_pairing shuffle subs) as [leaves| |] eqn:Hl;
    [|done..].
  cbn [mbind result_bind app].
  destruct (generate_initial_pairing_bare _ _ _ Hl) as [Hne Hbare].
  rewrite (available_bare _ _ Hbare).
  assert (pending leaves = true) as Hpending.
  { unfold pending. apply bool_decide_eq_true.
    destruct leaves as [|node leaves]; [done|].
    apply Exists_cons_hd. apply Forall_cons in Hbare as [-> _]. done. }
  rewrite Hpending.
  rewrite decide_False by (by intros [? _]).
  rewrite decide_False by (by intros [? _]).
  rewrite walk_groups_first. cbn [fst snd].
  rewrite decide_True by by left.
  unfold available_by_score. by rewrite (available_bare _ _ Hbare).
Qed.

(** X2.  Called with no nodes yet, as [main] calls it first,
    [generate_n_elimination_bracket_online] leaves the nodes of
    [generate_initial_pairing] and returns [False], or raises what
    [generate_initial_pairing] raises: no node is paired in that call.
    With no submissions that is the [ValueError] of [math.log2(0)]; and
    when leaves are returned there were two submissions at least, there is
    a leaf, and no leaf has a winner, a game or a source. *)
Theorem first_call_is_initial_pairing
    (shuffle : list Submission → list Submission)
    (subs : list Submission) (max_losses : Z) :
  generate_n_elimination_bracket_online shuffle subs [] max_losses
  = (leaves ← generate_initial_pairing shuffle subs; Ok (leaves, None)) ∧
  (length subs = 0%nat →
   generate_initial_pairing shuffle subs
   = Raise (ValueError "math domain error")) ∧
  (∀ leaves, generate_initial_pairing shuffle subs = Ok leaves →
             (2 ≤ length subs)%nat ∧ leaves ≠ [] ∧
             Forall (λ node, winner node = None ∧ games node = [] ∧
                             feeders node = [] ∧ inverted_feeders node = [])
                    leaves).
Proof.
  split_and!.
  - apply online_from_nothing.
  - intros Hlen. unfold generate_initial_pairing. by rewrite Hlen.
  - intros leaves Hl.
    destruct (generate_initial_pairing_bare _ _ _ Hl) as [Hne Hbare].
    split_and!; [|done|].
    + destruct subs as [|a [|b subs]]; simpl; [done| |lia].
      exfalso. revert Hl. unfold generate_initial_pairing. simpl.
      by destruct (shuffle [a]).
    + eapply Forall_impl; [exact Hbare|]. intros node ->. done.
Qed.

(** *** The node that is returned *)

Lemma pending_false nodes :
  pending nodes = false → Forall (λ node, is_Some (winner node)) nodes.
Proof.
  unfold pending. intros Hp. apply bool_decide_eq_false in Hp.
  apply Forall_forall. intros node Hin.
  destruct (winner node) eqn:Hw; [done|].
  exfalso. apply Hp, Exists_exists. by exists node.
Qed.

(** X3.  When [generate_n_elimination_bracket_online] returns a node, it
    has made no node and changed none, every node of the bracket has a
    winner, the node returned is the only one that a submission is
    available from (or the last node of the bracket, when none is), and it
    has a winner, whose name [main] logs. *)
Theorem returned_node_has_winner
    (shuffle : list Submission → list Submission) (subs : list Submission)
    (nodes nodes' : list Node) (max_losses : Z) (i : nat) :
  generate_n_elimination_bracket_online shuffle subs nodes max_losses
  = Ok (nodes', Some i) →
  nodes ≠ [] ∧ nodes' = nodes ∧
  Forall (λ node, is_Some (winner node)) nodes ∧
  ((∃ who, available max_losses nodes = [(i, who)]) ∨
   (available max_losses nodes = [] ∧ i = pred (length nodes))) ∧
  ∃ node, nodes !! i = Some node ∧ is_Some (winner node).
Proof.
  intros Hrun.
  destruct (decide (nodes = [])) as [->|Hne].
  { rewrite online_from_nothing in Hrun.
    by destruct (generate_initial_pairing shuffle subs). }
  revert Hrun. unfold generate_n_elimination_bracket_online, start.
  rewrite decide_False by done. cbn [mbind result_bind].
  destruct (decide (pending nodes = false ∧ _)) as [[Hp Hone]|_].
  - destruct (available max_losses nodes) as [|[j who] [|]] eqn:Hav;
      try done.
    simpl. intros [= <- <-].
    pose proof (pending_false _ Hp) as Hall.
    assert ((j, who) ∈ available max_losses nodes) as Hin
      by (rewrite Hav; left).
    apply elem_of_available in Hin as (node & Hj & _).
    split_and!; [done..|by left; exists who|].
    exists node. split; [done|].
    rewrite Forall_forall in Hall. apply Hall.
    by eapply list_elem_of_lookup_2.
  - destruct (decide (pending nodes = false ∧ _)) as [[Hp Hnone]|_];
      [|done].
    destruct nodes as [|n0 nodes0] eqn:Hnodes; [done|].
    rewrite <- Hnodes in *. intros [= <- <-].
    pose proof (pending_false _ Hp) as Hall.
    apply length_zero_iff_nil in Hnone.
    split_and!; [done..|by right|].
    destruct (lookup_lt_is_Some_2 nodes (pred (length nodes))) as [node Hn].
    { rewrite Hnodes. simpl. lia. }
    exists node. split; [done|].
    rewrite Forall_forall in Hall. apply Hall.
    by eapply list_elem_of_lookup_2.
Qed.

(** A bracket of one leaf, which 1 has won. *)
Definition played_out : list Node :=
  [decided_node [team 1; team 2] [] (team 1) (team 2) None].

(** X3 on that bracket with one loss allowed: the leaf is returned. *)
Lemma returned_node_has_winner_witness :
  generate_n_elimination_bracket_online (λ l, l) [] played_out 1
  = Ok (played_out, Some 0%nat) ∧
  ∃ node, played_out !! 0%nat = Some node ∧ is_Some (winner node).
Proof.
  assert (generate_n_elimination_bracket_online (λ l, l) [] played_out 1
          = Ok (played_out, Some 0%nat)) as Hrun by (vm_compute; reflexivity).
  split; [exact Hrun|].
  by destruct (returned_node_has_winner _ _ _ _ _ _ Hrun)
    as (_ & _ & _ & _ & ?).
Defined.

(** *** [update_game_status] *)

(** [{g.id: g for g in games}] keeps, of the rows with one id, the last. *)
Lemma by_id_last games k :
  by_id games !! k = last (filter (λ g, game_id g = k) games).
Proof.
  unfold by_id.
  assert (∀ m : gmap Z Game,
            foldl (λ m g, <[game_id g := g]> m) m games !! k
            = match last (filter (λ g, game_id g = k) games) with
              | Some g => Some g
              | None => m !! k
              end) as H.
  { induction games as [|g games IH]; intros m; simpl; [done|].
    rewrite IH, filter_cons.
    destruct (decide (game_id g = k)) as [Hk|Hk].
    - rewrite last_cons. destruct (last _); [done|].
      by rewrite Hk, lookup_insert_eq.
    - destruct (last _); [done|]. by rewrite lookup_insert_ne. }
  rewrite H. by destruct (last _).
Qed.

Lemma get_games_by_id db ids k :
  k ∈ ids →
  by_id (get_games db ids) !! k
  = last (filter (λ g, game_id g = k) (db_games db)).
Proof.
  intros Hk. rewrite by_id_last. unfold get_games. f_equal.
  induction (db_games db) as [|g l IH]; [done|].
  rewrite !filter_cons.
  destruct (decide (game_id g ∈ ids)) as [Hin|Hin].
  - rewrite filter_cons. case_decide; by rewrite IH.
  - rewrite IH. rewrite decide_False; [done|]. intros Heq. by rewrite Heq in Hin.
Qed.

Lemma get_games_by_id_None db ids k :
  k ∉ ids → by_id (get_games db ids) !! k = None.
Proof.
  intros Hk. destruct (by_id _ !! k) as [g|] eqn:Hg; [|done].
  apply by_id_lookup in Hg as [Hin <-].
  unfold get_games in Hin. by apply list_elem_of_filter in Hin as [? _].
Qed.

(** The entry of a game after [update_game_status] asked for [ids]. *)
Definition refreshed (db : DB) (ids : list Z) (game : Game) : Game :=
  default game (by_id (get_games db ids) !! game_id game).

Lemma refreshed_id db ids game :
  game_id (refreshed db ids game) = game_id game.
Proof.
  unfold refreshed. destruct (by_id _ !! _) as [g|] eqn:Hg; [|done].
  simpl. by apply by_id_lookup in Hg as [_ ?].
Qed.

Lemma update_game_status_refreshed db nodes :
  update_game_status db nodes
  = (λ node, set_games (refreshed db (unfinished_game_ids nodes)
                          <$> games node) node) <$> nodes.
Proof.
  unfold update_game_status. case_decide as Hids; [|done].
  rewrite Hids. symmetry. etrans; [|apply list_fmap_id].
  apply list_fmap_ext. intros j node _. simpl.
  assert (refreshed db [] <$> games node = games node) as ->.
  { etrans; [|apply list_fmap_id]. apply list_fmap_ext. intros p g _.
    unfold refreshed. by rewrite get_games_by_id_None by apply not_elem_of_nil. }
  by destruct node.
Qed.

(** X4.  [update_game_status] a second time on the same database changes
    nothing: the bracket is as the first call left it. *)
Theorem update_game_status_again (db : DB) (nodes : list Node) :
  update_game_status db (update_game_status db nodes)
  = update_game_status db nodes.
Proof.
  rewrite (update_game_status_refreshed db (update_game_status db nodes)).
  set (ids2 := unfinished_game_ids (update_game_status db nodes)).
  rewrite update_game_status_refreshed.
  set (ids1 := unfinished_game_ids nodes).
  assert (∀ z, z ∈ ids2 → z ∈ ids1) as Hsub.
  { intros z Hz. unfold ids2 in Hz.
    rewrite update_game_status_refreshed in Hz. fold ids1 in Hz.
    apply elem_of_unfinished_game_ids in Hz as (node' & g' & Hn' & Hg' & Hst & <-).
    apply list_elem_of_fmap in Hn' as (node & -> & Hn).
    simpl in Hg'. apply list_elem_of_fmap in Hg' as (g & -> & Hg).
    rewrite refreshed_id. unfold refreshed in Hst.
    destruct (by_id (get_games db ids1) !! game_id g) as [r|] eqn:Hr.
    - destruct (decide (game_id g ∈ ids1)) as [?|Hnot]; [done|].
      by rewrite get_games_by_id_None in Hr.
    - simpl in Hst. apply elem_of_unfinished_game_ids. by exists node, g. }
  rewrite <- list_fmap_compose. apply list_fmap_ext. intros j node _.
  unfold set_games. simpl. f_equal. rewrite <- list_fmap_compose.
  apply list_fmap_ext. intros p g _. simpl.
  unfold refreshed at 1. rewrite refreshed_id.
  destruct (decide (game_id g ∈ ids2)) as [Hin|Hnot].
  - rewrite get_games_by_id by done. unfold refreshed.
    rewrite get_games_by_id by by apply Hsub.
    by destruct (last _).
  - by rewrite get_games_by_id_None.
Qed.

(** X5.  [update_game_status] changes nothing of a node but the entries of
    its games, and those one by one: an entry keeps its id; an entry whose
    id is one of the ids that are asked for (the games of the bracket that
    are not finished) and that the table [games] has rows of becomes the
    last of these rows; every other entry stays as it is. *)
Theorem update_game_status_entries (db : DB) (nodes : list Node) :
  Forall2
    (λ node node',
       node' = set_games (games node') node ∧
       Forall2 (λ g g',
                  let rows := filter (λ r, game_id r = game_id g)
                                     (db_games db) in
                  game_id g' = game_id g ∧
                  if decide (game_id g ∈ unfinished_game_ids nodes ∧
                             rows ≠ [])
                  then last rows = Some g' else g' = g)
               (games node) (games node'))
    nodes (update_game_status db nodes).
Proof.
  rewrite update_game_status_refreshed.
  set (ids := unfinished_game_ids nodes).
  apply Forall2_fmap_r, Forall_Forall2_diag, Forall_forall.
  intros node _. split; [done|]. simpl.
  apply Forall2_fmap_r, Forall_Forall2_diag, Forall_forall.
  intros g _. split; [apply refreshed_id|].
  unfold refreshed.
  destruct (decide (game_id g ∈ ids)) as [Hin|Hnot].
  - rewrite get_games_by_id by done.
    destruct (filter _ (db_games db)) as [|r rows] eqn:Hrows.
    + by rewrite decide_False by (by intros [_ ?]).
    + rewrite decide_True by done.
      destruct (last_is_Some (r :: rows)) as [_ [g' Hg']]; [done|].
      by rewrite Hg'.
  - rewrite get_games_by_id_None by done.
    by rewrite decide_False by (by intros [? _]).
Qed.


(** *** What declaring winners leaves alone *)

(** The edges and the games of a node, and the submissions of a leaf. *)
Definition kept (node : Node)
    : list nat * list nat * list Game * option nat * option nat
      * list Submission :=
  (feeders node, inverted_feeders node, games node, winner_child node,
   loser_child node,
   if decide (feeders node = [] ∧ inverted_feeders node = [])
   then submissions node else []).

Lemma propogate_winners_kept i nodes :
  kept <$> propogate_winners i nodes = kept <$> nodes.
Proof.
  unfold propogate_winners. destruct (nodes !! i) as [node|] eqn:Hi; [|done].
  rewrite list_fmap_insert. apply list_insert_id.
  rewrite list_lookup_fmap, Hi. simpl. f_equal.
  unfold kept. simpl. f_equal.
  case_decide as Hleaf; [|done].
  destruct Hleaf as [-> ->]. simpl. by rewrite app_nil_r.
Qed.

Lemma handle_byes_kept node : kept (handle_byes node) = kept node.
Proof. unfold handle_byes. by repeat case_match. Qed.

Lemma handle_self_kept node : kept (handle_self node) = kept node.
Proof. unfold handle_self. by repeat case_match. Qed.

Lemma declare_from_counts_kept BEST_OF items : ∀ node node',
  declare_from_counts BEST_OF items node = Ok node' → kept node' = kept node.
Proof.
  induction items as [|[w wins] items IH]; intros node node' Hrun;
    simpl in Hrun; [by simplify_eq|].
  case_decide; [|by apply IH].
  destruct (find_side _ _); [|done]. by rewrite (IH _ _ Hrun).
Qed.

Lemma declare_from_games_kept BEST_OF node node' :
  declare_from_games BEST_OF node = Ok node' → kept node' = kept node.
Proof.
  unfold declare_from_games. destruct (winner node); [by intros [= <-]|].
  apply declare_from_counts_kept.
Qed.

Lemma declare_kept BEST_OF fuel : ∀ i nodes nodes',
  declare_and_propogate_winners BEST_OF fuel i nodes = Ok nodes' →
  kept <$> nodes' = kept <$> nodes.
Proof.
  induction fuel as [|fuel IH]; intros i nodes nodes' Hrun; [by simpl in Hrun|].
  simpl in Hrun.
  destruct (nodes !! i) as [node|] eqn:Hi; [|by simplify_eq].
  case_decide as Hdec; [by simplify_eq|].
  destruct (foldl _ _ _) as [nodes1| |] eqn:Hfold; try done.
  simpl in Hrun.
  assert (kept <$> nodes1 = kept <$> nodes) as H1.
  { eapply (foldl_bind_inv _ (λ a, kept <$> a = kept <$> nodes));
      [|done|exact Hfold].
    intros f a a' _ Ha Hstep. rewrite <- Ha. by eapply IH. }
  rewrite <- H1, <- (propogate_winners_kept i nodes1).
  destruct (propogate_winners i nodes1 !! i) as [node2|] eqn:Hi2;
    [|by simplify_eq].
  destruct (declare_from_games _ _) as [node3| |] eqn:Hg; simplify_eq/=.
  rewrite list_fmap_insert. apply list_insert_id.
  rewrite list_lookup_fmap, Hi2. simpl. f_equal.
  rewrite (declare_from_games_kept _ _ _ Hg).
  by rewrite handle_self_kept, handle_byes_kept.
Qed.

Lemma declare_all_kept BEST_OF nodes nodes' :
  declare_all BEST_OF nodes = Ok nodes' → kept <$> nodes' = kept <$> nodes.
Proof.
  unfold declare_all. intros Hrun.
  eapply (foldl_bind_inv _ (λ a, kept <$> a = kept <$> nodes));
    [|done|exact Hrun].
  intros i a a' _ Ha Hstep. rewrite <- Ha.
  exact (declare_kept _ _ _ _ _ Hstep).
Qed.

(** X6.  When [declare_and_propogate_winners] returns, the bracket has as
    many nodes as before, and every node has the feeders, the inverted
    feeders, the games, the [winner_child] and the [loser_child] it had; a
    node without sources also has the submissions it had. *)
Theorem declare_keeps_edges_and_games
    (BEST_OF : Z) (fuel i : nat) (nodes nodes' : list Node) :
  declare_and_propogate_winners BEST_OF fuel i nodes = Ok nodes' →
  Forall2
    (λ node node',
       feeders node' = feeders node ∧
       inverted_feeders node' = inverted_feeders node ∧
       games node' = games node ∧
       winner_child node' = winner_child node ∧
       loser_child node' = loser_child node ∧
       (feeders node = [] → inverted_feeders node = [] →
        submissions node' = submissions node))
    nodes nodes'.
Proof.
  intros Hrun. apply declare_kept in Hrun.
  apply Forall2_same_length_lookup. split.
  - by rewrite <- (length_fmap kept nodes), <- Hrun, length_fmap.
  - intros j node node' Hj Hj'.
    assert (kept node' = kept node) as Hk.
    { assert ((kept <$> nodes') !! j = (kept <$> nodes) !! j) as Hl
        by by rewrite Hrun.
      rewrite !list_lookup_fmap, Hj, Hj' in Hl.
      cbn [fmap option_fmap option_map] in Hl. congruence. }
    unfold kept in Hk. injection Hk as Hf Hi Hg Hw Hl Hs.
    split_and!; try done.
    intros Hf0 Hi0. rewrite Hf, Hi in Hs.
    by rewrite !decide_True in Hs by done.
Qed.

(** X6 on a leaf with the games won by 1, 2, 1 of a best of three. *)
Lemma declare_keeps_edges_and_games_witness :
  declare_and_propogate_winners 3 1 0
    [leaf [won_game 1 1; won_game 2 2; won_game 3 1]]
  = Ok [set_winner_loser (Some (team 1)) (Some (team 2))
          (leaf [won_game 1 1; won_game 2 2; won_game 3 1])] ∧
  Forall2
    (λ node node',
       feeders node' = feeders node ∧
       inverted_feeders node' = inverted_feeders node ∧
       games node' = games node ∧
       winner_child node' = winner_child node ∧
       loser_child node' = loser_child node ∧
       (feeders node = [] → inverted_feeders node = [] →
        submissions node' = submissions node))
    [leaf [won_game 1 1; won_game 2 2; won_game 3 1]]
    [set_winner_loser (Some (team 1)) (Some (team 2))
       (leaf [won_game 1 1; won_game 2 2; won_game 3 1])].
Proof.
  assert (declare_and_propogate_winners 3 1 0
            [leaf [won_game 1 1; won_game 2 2; won_game 3 1]]
          = Ok [set_winner_loser (Some (team 1)) (Some (team 2))
                  (leaf [won_game 1 1; won_game 2 2; won_game 3 1])])
    as Hrun by (vm_compute; reflexivity).
  split; [exact Hrun|].
  exact (declare_keeps_edges_and_games 3 1 0 _ _ Hrun).
Defined.


(** *** Byes *)

Lemma declare_unfold BEST_OF fuel i nodes :
  declare_and_propogate_winners BEST_OF (S fuel) i nodes
  = match nodes !! i with
    | None => Ok nodes
    | Some node =>
        if decide (is_Some (winner node) ∧ is_Some (loser node))
        then Ok nodes
        else
          nodes ← foldl (λ r f, r ≫= declare_and_propogate_winners
                                        BEST_OF fuel f)
                    (Ok nodes) (feeders node);
          let nodes := propogate_winners i nodes in
          match nodes !! i with
          | None => Ok nodes
          | Some node =>
              node ← declare_from_games BEST_OF
                       (handle_self (handle_byes node));
              Ok (<[i := node]> nodes)
          end
    end.
Proof. done. Qed.

Lemma declare_decided_feeders BEST_OF fuel nodes (fs : list nat) :
  (∀ f, f ∈ fs → ∃ nf, nodes !! f = Some nf ∧ decided nf) →
  foldl (λ r f, r ≫= declare_and_propogate_winners BEST_OF (S fuel) f)
        (Ok nodes) fs
  = Ok nodes.
Proof.
  induction fs as [|f fs IH]; intros Hfs; [done|].
  cbn [foldl mbind result_bind].
  destruct (Hfs f) as (nf & Hf & Hd); [left|].
  assert (declare_and_propogate_winners BEST_OF (S fuel) f nodes = Ok nodes)
    as ->.
  { rewrite declare_unfold, Hf. by rewrite decide_True by done. }
  apply IH. intros f' Hf'. apply Hfs. by right.
Qed.

(** X7.  A node without a winner, all of whose feeders are decided and
    whose submissions come to [a] and [b], one of them [BYE], is decided
    by [declare_and_propogate_winners] without a game: the other
    submission is its winner ([BYE] when both are [BYE]) and [BYE] its
    loser; no other node changes. *)
Theorem bye_advances_without_games
    (BEST_OF : Z) (fuel i : nat) (nodes : list Node) (node : Node)
    (a b : Submission) :
  nodes !! i = Some node →
  ¬ decided node →
  (∀ f, f ∈ feeders node → ∃ nf, nodes !! f = Some nf ∧ decided nf) →
  submissions <$> propogate_winners i nodes !! i = Some [a; b] →
  BYE ∈ [a; b] →
  declare_and_propogate_winners BEST_OF (S (S fuel)) i nodes
  = Ok (<[i := set_winner_loser (Some (if decide (a = BYE) then b else a))
                                (Some BYE) (set_submissions [a; b] node)]>
          nodes).
Proof.
  intros Hi Hdec Hfs Hsubs Hbye.
  rewrite declare_unfold, Hi.
  rewrite decide_False by done.
  rewrite (declare_decided_feeders _ _ _ _ Hfs). cbn [mbind result_bind].
  unfold propogate_winners in *. rewrite Hi in *.
  rewrite list_lookup_insert_eq in * by by eapply lookup_lt_Some.
  injection Hsubs as Hsubs. cbn [submissions set_submissions] in Hsubs.
  rewrite Hsubs.
  assert (declare_from_games BEST_OF
            (handle_self (handle_byes (set_submissions [a; b] node)))
          = Ok (set_winner_loser
                  (Some (if decide (a = BYE) then b else a)) (Some BYE)
                  (set_submissions [a; b] node))) as ->;
    [|cbn [mbind result_bind]; by rewrite list_insert_insert_eq].
  destruct a as [|ra], b as [|rb]; [done..|].
  exfalso. apply elem_of_cons in Hbye as [?|Hbye]; [done|].
  by apply list_elem_of_singleton in Hbye.
Qed.

(** A leaf of the submission 1 and a [BYE]. *)
Definition bye_leaf : Node := set_submissions [team 1; BYE] Node_init.

(** X7 on that leaf: 1 wins. *)
Lemma bye_advances_without_games_witness :
  declare_and_propogate_winners 3 2 0 [bye_leaf]
  = Ok [set_winner_loser (Some (team 1)) (Some BYE) bye_leaf].
Proof.
  refine (bye_advances_without_games 3 0 0 [bye_leaf] bye_leaf (team 1) BYE
            eq_refl _ _ eq_refl _).
  - by intros [[? ?] _].
  - intros f Hf. by apply elem_of_nil in Hf.
  - right. left.
Defined.


(** *** [get_unused_game] *)

(** X8.  [get_unused_game] returns one game at most.  A game it returns is
    a finished game of the database that both submissions are linked to
    and whose id is neither -1 nor one of [used_game_ids], and none of
    these games has a higher id; it returns no game only when there is no
    such game. *)
Theorem get_unused_game_highest
    (db : DB) (left right : Submission) (used_game_ids : list Z) :
  let found := get_unused_game db left right used_game_ids in
  (length found ≤ 1)%nat ∧
  (∀ g, g ∈ found →
        reusable db left right used_game_ids g ∧
        ∀ g', reusable db left right used_game_ids g' →
              game_id g' ≤ game_id g) ∧
  (found = [] → ∀ g, ¬ reusable db left right used_game_ids g).
Proof.
  intros found. subst found. split_and!.
  - unfold get_unused_game. rewrite length_take. lia.
  - intros g Hg.
    assert (head (get_unused_game db left right used_game_ids) = Some g)
      as Hhead.
    { unfold get_unused_game in *.
      destruct (sorted _ _) as [|g0 l]; [by apply elem_of_nil in Hg|].
      simpl in *. by apply list_elem_of_singleton in Hg as ->. }
    split; [by apply get_unused_game_Some|].
    intros g' (Hg' & Hl & Hr & Hf & Hu).
    unfold get_unused_game in Hhead.
    set (rows := filter _ (db_games db)) in Hhead.
    assert (head (sorted (λ g, - game_id g) rows) = Some g) as Hfirst.
    { destruct (sorted _ rows); simplify_eq/=. done. }
    pose proof (sorted_least_first (λ g, - game_id g) rows g g' Hfirst) as Hle.
    simpl in Hle. cut (- game_id g ≤ - game_id g'); [lia|]. apply Hle.
    apply sorted_elem_2, list_elem_of_filter. by split_and!.
  - intros Hnil g. apply get_unused_game_None. by rewrite Hnil.
Qed.

(** *** [create_needed_games]: which nodes, which rows *)

(** A node that [create_needed_games] looks at: no winner, two
    submissions, neither of them [BYE]. *)
Definition needs_games (node : Node) : Prop :=
  winner node = None ∧ length (submissions node) = 2%nat ∧
  BYE ∉ submissions node.

(** ... and that has its [BEST_OF] games. *)
Definition full (BEST_OF : Z) (node : Node) : Prop :=
  BEST_OF ≤ Z.of_nat (length (finished_or_queued (games node))).

Lemma needs_games_more_games extra node :
  needs_games (more_games extra node) ↔ needs_games node.
Proof. done. Qed.

(** From [st0] to [st]: the nodes that need no games are as they were,
    and every new row of [games_submissions] links a new game to a
    submission of a node that needs games. *)
Record enqueued (st0 st : list Node * DB) : Prop := {
  enq_extends : extends (λ _, True) st0 st;
  enq_idle : ∀ j node,
    st0.1 !! j = Some node → ¬ needs_games node → st.1 !! j = Some node;
  enq_rows : ∃ new_games new_rows,
    db_games st.2 = db_games st0.2 ++ new_games ∧
    db_games_submissions st.2 = db_games_submissions st0.2 ++ new_rows ∧
    ∀ row, row ∈ new_rows →
      row.1 ∈ game_id <$> new_games ∧
      ∃ node s, node ∈ st0.1 ∧ needs_games node ∧
                s ∈ submissions node ∧ row.2 = id s
}.

Lemma enqueued_refl st : enqueued st st.
Proof.
  split; [apply extends_refl|done|].
  exists [], []. rewrite !app_nil_r. split_and!; [done..|].
  intros row Hrow. by apply elem_of_nil in Hrow.
Qed.

Section enqueued.

Variables (REUSE_OLD_GAMES : bool) (BEST_OF : Z).

Lemma add_game_enqueued st0 ix st i node0 :
  st0.1 !! ix = Some node0 → needs_games node0 →
  enqueued st0 st → enqueued st0 (add_game REUSE_OLD_GAMES ix st i).
Proof.
  intros Hix Hneeds [Hext Hidle (ng & nr & Hng & Hnr & Hrows)].
  pose proof (add_game_extends REUSE_OLD_GAMES ix st i) as Hstep.
  split.
  - exact (extends_trans (λ _, True) (λ j, j = ix) (λ _, True) _ _ _
             (λ _ _, I) (λ _ _, I) Hext Hstep).
  - intros j node Hj Hno.
    assert (j ≠ ix) as Hne by (intros ->; by simplify_eq).
    rewrite (ext_same _ _ _ Hstep) by done. by apply Hidle.
  - destruct (ext_node _ _ _ Hext ix) as [e He]. rewrite Hix in He.
    simpl in He. unfold add_game. rewrite He.
    destruct Hneeds as (Hw & Hlen & Hbye).
    change (submissions (more_games e node0)) with (submissions node0).
    destruct (submissions node0) as [|s0 [|s1 [|]]] eqn:Hsubs; try done.
    set (sides := if decide (i `mod` 2 ≠ 0) then _ else _).
    assert (sides.1 ∈ [s0; s1] ∧ sides.2 ∈ [s0; s1]) as [Hs1 Hs2].
    { unfold sides. case_decide; simpl; split; set_solver. }
    cbn [fst snd].
    destruct (create_or_reuse_game_cases REUSE_OLD_GAMES st.1 st.2
                sides.1 sides.2) as [(_ & -> & _)|[-> _]].
    + by exists ng, nr.
    + simpl. eexists (ng ++ [_]), (nr ++ [_; _]).
      rewrite Hng, Hnr, <- !(assoc_L (++)). split_and!; [done..|].
      intros row. rewrite elem_of_app, fmap_app, elem_of_app.
      intros [Hrow|Hrow].
      * destruct (Hrows row Hrow) as [? ?]. split; [by left|done].
      * split.
        -- right. simpl. apply elem_of_cons in Hrow as [->|Hrow];
             [left|apply list_elem_of_singleton in Hrow as ->; left].
        -- exists node0. apply list_elem_of_lookup_2 in Hix.
           assert (needs_games node0) as Hneeds
             by (unfold needs_games; by rewrite Hsubs).
           apply elem_of_cons in Hrow as [->|Hrow];
             [|apply list_elem_of_singleton in Hrow as ->].
           ++ exists sides.1. by rewrite Hsubs.
           ++ exists sides.2. by rewrite Hsubs.
Qed.

Lemma create_games_of_enqueued st0 st ix :
  enqueued st0 st → enqueued st0 (create_games_of REUSE_OLD_GAMES BEST_OF st ix).
Proof.
  intros Hst. unfold create_games_of.
  destruct (st.1 !! ix) as [node|] eqn:Hix; [|done].
  destruct (ext_node _ _ _ (enq_extends _ _ Hst) ix) as [e He].
  rewrite Hix in He.
  destruct (st0.1 !! ix) as [node0|] eqn:Hix0; [|done].
  simpl in He. injection He as ->.
  case_decide as Hopen; [|done]. case_decide as Hbye; [done|].
  assert (needs_games node0) as Hneeds by (by destruct Hopen).
  generalize (seqZ (Z.of_nat (length (finished_or_queued
                                        (games (more_games e node0)))))
                (BEST_OF - Z.of_nat (length (finished_or_queued
                                        (games (more_games e node0)))))).
  intros slots. clear Hix. revert st Hst.
  induction slots as [|i slots IH]; intros st Hst; [done|].
  cbn [foldl]. apply IH. by eapply add_game_enqueued.
Qed.

Lemma create_needed_games_enqueued db nodes :
  enqueued (nodes, db) (create_needed_games REUSE_OLD_GAMES BEST_OF db nodes).
Proof.
  unfold create_needed_games. generalize (seq 0 (length nodes)).
  intros l.
  assert (∀ st, enqueued (nodes, db) st →
            enqueued (nodes, db)
              (foldl (create_games_of REUSE_OLD_GAMES BEST_OF) st l)) as H.
  { induction l as [|ix l IH]; intros st Hst; [done|].
    cbn [foldl]. by apply IH, create_games_of_enqueued. }
  apply H, enqueued_refl.
Qed.

End enqueued.

(** X9.  [create_needed_games] leaves every node as it is but for games
    appended to its games, and appends none to a node that has a winner,
    or has not two submissions, or has a [BYE].  It deletes and changes no
    row of the database: the rows it adds to [games] are queued, and every
    row it adds to [games_submissions] links one of these new games to a
    real submission of a node with no winner, two submissions and no
    [BYE]. *)
Theorem create_needed_games_only_open_matches
    (REUSE_OLD_GAMES : bool) (BEST_OF : Z) (db : DB) (nodes : list Node) :
  let st' := create_needed_games REUSE_OLD_GAMES BEST_OF db nodes in
  Forall2 (λ node node',
             ∃ extra, node' = set_games (games node ++ extra) node ∧
                      (¬ needs_games node → extra = []))
          nodes st'.1 ∧
  ∃ new_games new_rows,
    db_games st'.2 = db_games db ++ new_games ∧
    Forall (λ g, game_status g = "queued") new_games ∧
    db_games_submissions st'.2 = db_games_submissions db ++ new_rows ∧
    ∀ row, row ∈ new_rows →
      row.1 ∈ game_id <$> new_games ∧
      ∃ node s, node ∈ nodes ∧ needs_games node ∧
                s ∈ submissions node ∧ s ≠ BYE ∧ row.2 = id s.
Proof.
  intros st'.
  destruct (create_needed_games_enqueued REUSE_OLD_GAMES BEST_OF db nodes)
    as [Hext Hidle (ng & nr & Hng & Hnr & Hrows)].
  fold st' in Hext, Hidle, Hng, Hnr. cbn [fst snd] in *.
  split.
  - apply Forall2_same_length_lookup. split.
    + apply Nat.le_antisymm; apply Nat.nlt_ge; intros Hlt.
      * destruct (lookup_lt_is_Some_2 nodes (length st'.1) Hlt) as [n Hn].
        destruct (ext_node _ _ _ Hext (length st'.1)) as [e He].
        cbn [fst] in He. rewrite Hn in He.
        apply lookup_lt_Some in He. simpl in He. lia.
      * destruct (lookup_lt_is_Some_2 st'.1 (length nodes) Hlt) as [n Hn].
        destruct (ext_node _ _ _ Hext (length nodes)) as [e He].
        cbn [fst] in He. rewrite Hn in He.
        by rewrite lookup_ge_None_2 in He by done.
    + intros j node node' Hj Hj'.
      destruct (ext_node _ _ _ Hext j) as [e He]. cbn [fst] in He.
      rewrite Hj, Hj' in He. simpl in He. injection He as ->.
      destruct (decide (needs_games node)) as [Hneeds|Hno].
      * by exists e.
      * exists []. split; [|done]. rewrite (Hidle j node Hj Hno) in Hj'.
        injection Hj' as Heq. rewrite <- Heq, app_nil_r. by destruct node.
  - destruct (ext_games _ _ _ Hext) as (ng' & Hng' & Hq).
    cbn [fst snd] in Hng'. fold st' in Hng'.
    assert (ng' = ng) as -> by (rewrite Hng in Hng'; by simplify_list_eq).
    exists ng, nr. split_and!; [done..|].
    intros row Hrow.
    destruct (Hrows row Hrow) as (? & node & s & ? & Hneeds & Hs & ?).
    split; [done|]. exists node, s. split_and!; try done.
    intros ->. by destruct Hneeds as (_ & _ & ?).
Qed.


(** *** [create_needed_games], called again *)

Lemma extends_length changed st st' :
  extends changed st st' → length st'.1 = length st.1.
Proof.
  intros Hext. apply Nat.le_antisymm; apply Nat.nlt_ge; intros Hlt.
  - destruct (lookup_lt_is_Some_2 st'.1 (length st.1) Hlt) as [n Hn].
    destruct (ext_node _ _ _ Hext (length st.1)) as [e He].
    rewrite Hn in He. by rewrite lookup_ge_None_2 in He by done.
  - destruct (lookup_lt_is_Some_2 st.1 (length st'.1) Hlt) as [n Hn].
    destruct (ext_node _ _ _ Hext (length st'.1)) as [e He].
    rewrite Hn in He. apply lookup_lt_Some in He. simpl in He. lia.
Qed.

Lemma seqZ_nonpos (m len : Z) : len ≤ 0 → seqZ m len = [].
Proof. intros Hlen. unfold seqZ. by replace (Z.to_nat len) with 0%nat by lia. Qed.

Section again.

Variables (REUSE_OLD_GAMES : bool) (BEST_OF : Z).

Lemma create_games_of_full st ix n :
  (create_games_of REUSE_OLD_GAMES BEST_OF st ix).1 !! ix = Some n →
  needs_games n → full BEST_OF n.
Proof.
  unfold create_games_of.
  destruct (st.1 !! ix) as [node|] eqn:Hix; [|by rewrite Hix].
  case_decide as Hopen.
  - case_decide as Hbye.
    + rewrite Hix. intros [= <-] (_ & _ & ?). done.
    + set (n0 := Z.of_nat (length (finished_or_queued (games node)))).
      destruct (decide (BEST_OF ≤ n0)) as [Hfull|Hless].
      * rewrite seqZ_nonpos by lia. simpl. rewrite Hix. by intros [= <-] _.
      * destruct Hopen as [Hw Hlen].
        destruct (submissions node) as [|x [|y [|]]] eqn:Hsubs; try done.
        destruct (add_games_spec REUSE_OLD_GAMES x y st ix node Hsubs
                    (seqZ n0 (BEST_OF - n0)) st [])
          as (added & Hladded & Hk & Hslots).
        { apply extends_refl. }
        { by rewrite more_games_nil. }
        rewrite Hk. intros [= <-] _. unfold full. simpl.
        unfold finished_or_queued. rewrite filter_app, length_app.
        fold (finished_or_queued (games node)). fold n0.
        rewrite length_seqZ in Hladded.
        assert (filter (λ g, game_status g ∈ ["finished"; "queued"; "playing"])
                  added = added) as ->; [|lia].
        apply filter_all. apply Forall_lookup. intros j g Hg.
        assert (is_Some (seqZ n0 (BEST_OF - n0) !! j)) as [i Hi].
        { apply lookup_lt_is_Some. rewrite length_seqZ.
          apply lookup_lt_Some in Hg. lia. }
        destruct (Hslots j i g Hi Hg) as [(_ & -> & _)|(-> & _)].
        -- left.
        -- right. left.
  - rewrite Hix. intros [= <-] (? & ? & _). by destruct Hopen.
Qed.

Lemma create_games_full l : ∀ st,
  NoDup l →
  ∀ ix n, ix ∈ l →
    (foldl (create_games_of REUSE_OLD_GAMES BEST_OF) st l).1 !! ix = Some n →
    needs_games n → full BEST_OF n.
Proof.
  induction l as [|i l IH]; intros st Hnd ix n Hin;
    [by apply elem_of_nil in Hin|].
  apply NoDup_cons in Hnd as [Hi Hnd]. cbn [foldl].
  apply elem_of_cons in Hin as [->|Hin]; [|by apply IH].
  set (st1 := create_games_of REUSE_OLD_GAMES BEST_OF st i).
  assert (extends (λ j, j ∈ l) st1
            (foldl (create_games_of REUSE_OLD_GAMES BEST_OF) st1 l)) as Hext
    by by apply create_games_extends.
  rewrite (ext_same _ _ _ Hext) by done.
  apply create_games_of_full.
Qed.

Lemma create_needed_games_nothing db nodes :
  (∀ j n, nodes !! j = Some n → needs_games n → full BEST_OF n) →
  create_needed_games REUSE_OLD_GAMES BEST_OF db nodes = (nodes, db).
Proof.
  intros Hfull. unfold create_needed_games.
  induction (seq 0 (length nodes)) as [|ix l IH]; [done|].
  cbn [foldl].
  assert (create_games_of REUSE_OLD_GAMES BEST_OF (nodes, db) ix = (nodes, db))
    as ->; [|done].
  unfold create_games_of. cbn [fst].
  destruct (nodes !! ix) as [node|] eqn:Hix; [|done].
  case_decide as Hopen; [|done]. case_decide as Hbye; [done|].
  rewrite seqZ_nonpos; [done|].
  assert (full BEST_OF node) as Hf.
  { apply (Hfull ix); [done|]. by destruct Hopen. }
  unfold full in Hf. lia.
Qed.

End again.

(** X10.  [create_needed_games] on the bracket and the database that
    [create_needed_games] left changes neither: the games of a match are
    not enqueued a second time. *)
Theorem create_needed_games_again
    (REUSE_OLD_GAMES : bool) (BEST_OF : Z) (db : DB) (nodes : list Node) :
  let st' := create_needed_games REUSE_OLD_GAMES BEST_OF db nodes in
  create_needed_games REUSE_OLD_GAMES BEST_OF st'.2 st'.1 = st'.
Proof.
  intros st'.
  rewrite create_needed_games_nothing; [by destruct st'|].
  intros j n Hj.
  assert (length st'.1 = length nodes) as Hlen.
  { apply (extends_length (λ _, True) (nodes, db)).
    apply create_games_extends. done. }
  apply (create_games_full REUSE_OLD_GAMES BEST_OF (seq 0 (length nodes))
           (nodes, db) (NoDup_seq _ _) j n); [|done].
  apply elem_of_seq. apply lookup_lt_Some in Hj. lia.
Qed.


End BracketProofs.


(** ** The bracket over the turns of [main] *)

Module LoopProofs.
Import TournamentScheduler.
Import SortedProofs.
Import SchedulerProofs.
Import BracketProofs.

(** *** How a call grows the bracket *)

(** [node'] is [node] but for its [winner_child] and [loser_child]. *)
Definition same_but_children (node node' : Node) : Prop :=
  node' = set_winner_child (winner_child node')
            (set_loser_child (loser_child node') node).

(** A node made by the call: it has [k] sources, all below [bound], and
    nothing else. *)
Definition fresh_node (bound k : nat) (new : Node) : Prop :=
  submissions new = [] ∧ games new = [] ∧
  winner new = None ∧ loser new = None ∧
  winner_child new = None ∧ loser_child new = None ∧
  length (feeders new ++ inverted_feeders new) = k ∧
  ∀ f, f ∈ feeders new ++ inverted_feeders new → (f < bound)%nat.

Section wiring.

Variables (nodes0 : list Node) (max_losses : Z).

Definition wired (cur : list Node) : Prop :=
  (length nodes0 ≤ length cur)%nat ∧
  (∀ j node, nodes0 !! j = Some node →
     ∃ node', cur !! j = Some node' ∧ same_but_children node node') ∧
  (∀ p new, (length nodes0 ≤ p)%nat → cur !! p = Some new →
     fresh_node (length nodes0) 2 new).

Lemma wired_start : wired nodes0.
Proof.
  split_and!; [done| |].
  - intros j node Hj. exists node. split; [done|]. by destruct node.
  - intros p new Hp Hnew. apply lookup_lt_Some in Hnew. lia.
Qed.

Lemma attach_wired new_ix cur new src k :
  src ∈ available max_losses nodes0 →
  wired cur → fresh_node (length nodes0) k new →
  wired (attach new_ix (cur, new) src).1 ∧
  fresh_node (length nodes0) (S k) (attach new_ix (cur, new) src).2.
Proof.
  destruct src as [j who].
  intros Hav (Hlen & Hold & Hnew) (Hs & Hg & Hw & Hl & Hwc & Hlc & Hk & Hsrc).
  apply elem_of_available in Hav as (node & Hj & Hcase).
  destruct (Hold j node Hj) as (node' & Hj' & Hsame).
  assert (winner node' = winner node ∧ loser node' = loser node) as [Hw' Hl']
    by (by rewrite Hsame).
  assert (j < length nodes0)%nat as Hjlt by by eapply lookup_lt_Some.
  assert (∀ f : Node → Node,
            (∀ n, same_but_children node n → same_but_children node (f n)) →
            wired (alter f j cur)) as Hwired.
  { intros f Hf. split_and!.
    - by rewrite length_alter.
    - intros j0 node0 Hj0.
      destruct (Hold j0 node0 Hj0) as (n' & Hn' & Hsame0).
      destruct (decide (j = j0)) as [<-|Hne].
      + rewrite list_lookup_alter_eq, Hn'. simpl. eexists. split; [done|].
        simplify_eq. by apply Hf.
      + rewrite list_lookup_alter_ne by done. by exists n'.
    - intros p new' Hp Hp'.
      rewrite list_lookup_alter_ne in Hp' by lia. by eapply Hnew. }
  unfold attach. cbn [fst snd]. rewrite Hj'.
  destruct (decide (Some who = winner node')) as [Hwho|Hwho];
    [|destruct (decide (Some who = loser node')) as [Hlo|Hlo]]; cbn [fst snd].
  - split.
    + apply Hwired. intros n ->. done.
    + unfold fresh_node. simpl. split_and!; try done.
      * rewrite <- Hk, !length_app. simpl. lia.
      * intros f. rewrite !elem_of_app, list_elem_of_singleton.
        intros [[Hf| ->]|Hf]; [|done|]; apply Hsrc, elem_of_app; tauto.
  - split.
    + apply Hwired. intros n ->. done.
    + unfold fresh_node. simpl. split_and!; try done.
      * rewrite <- Hk, !length_app. simpl. lia.
      * intros f. rewrite (assoc_L (++)), elem_of_app, list_elem_of_singleton.
        intros [Hf| ->]; [by apply Hsrc|done].
  - exfalso. rewrite Hw' in Hwho. rewrite Hl' in Hlo.
    destruct Hcase as [[? _]|[? _]]; congruence.
Qed.

Lemma make_node_wired cur pair :
  pair.1 ∈ available max_losses nodes0 →
  pair.2 ∈ available max_losses nodes0 →
  wired cur → wired (make_node cur pair).
Proof.
  intros H1 H2 Hcur. unfold make_node.
  assert (fresh_node (length nodes0) 0 Node_init) as Hinit.
  { unfold fresh_node. simpl. split_and!; try done.
    intros f Hf. by apply elem_of_nil in Hf. }
  destruct (attach_wired (length cur) cur Node_init pair.1 0 H1 Hcur Hinit)
    as [Hc1 Hn1].
  destruct (attach (length cur) (cur, Node_init) pair.1) as [cur1 new1].
  destruct (attach_wired (length cur) cur1 new1 pair.2 1 H2 Hc1 Hn1)
    as [Hc2 Hn2].
  destruct (attach (length cur) (cur1, new1) pair.2) as [cur2 new2].
  cbn [fst snd] in *.
  destruct Hc2 as (Hlen & Hold & Hnew). split_and!.
  - rewrite length_app. lia.
  - intros j node Hj. destruct (Hold j node Hj) as (n' & Hn' & ?).
    exists n'. split; [|done]. by apply lookup_app_l_Some.
  - intros p new Hp Hp'.
    apply lookup_snoc_Some in Hp' as [[_ Hp']|[_ <-]]; [by eapply Hnew|done].
Qed.

(** What every new node keeps true is true when the walk is over. *)
Lemma walk_groups_inv (P : list Node → Prop) :
  (∀ cur pair,
     pair.1 ∈ available max_losses nodes0 →
     pair.2 ∈ available max_losses nodes0 →
     P cur → P (make_node cur pair)) →
  ∀ st : list Node * bool,
    P st.1 →
    P (walk_groups [available_by_score max_losses nodes0;
                    available_by_losses max_losses nodes0;
                    available_sorted max_losses nodes0] st).
Proof.
  intros Hmake.
  assert (∀ srcs cur,
            (∀ src, src ∈ srcs → src ∈ available max_losses nodes0) →
            P cur → P (walk_sources cur srcs)) as Hsources.
  { intros srcs cur Hsub. unfold walk_sources.
    assert (∀ pair, pair ∈ pairwise srcs →
              pair.1 ∈ available max_losses nodes0 ∧
              pair.2 ∈ available max_losses nodes0) as Hpairs.
    { intros [a b] Hab. apply elem_of_pairwise in Hab as [Ha Hb].
      split; by apply Hsub. }
    revert cur Hpairs.
    induction (pairwise srcs) as [|pair pairs IH]; intros cur Hpairs Hcur;
      [done|].
    simpl. apply IH.
    - intros pair' Hin. apply Hpairs. by right.
    - destruct (Hpairs pair) as [? ?]; [left|]. by apply Hmake. }
  assert (∀ group cur,
            (∀ srcs src, srcs ∈ group → src ∈ srcs →
                         src ∈ available max_losses nodes0) →
            P cur → P (walk_group cur group)) as Hgroup.
  { induction group as [|srcs group IH]; intros cur Hsub Hcur; [done|].
    rewrite walk_group_cons. apply IH.
    - intros srcs' src Hs. apply Hsub. by right.
    - apply Hsources; [|done]. intros src. apply Hsub. left. }
  assert (∀ groups (st : list Node * bool),
            (∀ group srcs src, group ∈ groups → srcs ∈ group → src ∈ srcs →
                               src ∈ available max_losses nodes0) →
            P st.1 → P (walk_groups groups st)) as Hgroups.
  { induction groups as [|group groups IH]; intros st Hsub Hst; [done|].
    rewrite walk_groups_first. case_decide.
    - apply Hgroup; [|done]. intros srcs src. apply Hsub. left.
    - apply IH; [|done]. intros g srcs src Hg. apply Hsub. by right. }
  intros st. apply Hgroups. apply groups_of_available.
Qed.

End wiring.

(** The sources of a node come before it. *)
Definition edges_before (nodes : list Node) : Prop :=
  ∀ i node f, nodes !! i = Some node →
    f ∈ feeders node ++ inverted_feeders node → (f < i)%nat.

Lemma edges_before_feeders nodes : edges_before nodes → feeders_before nodes.
Proof.
  intros Hwf i node f Hi Hf. eapply Hwf; [done|]. apply elem_of_app. by left.
Qed.

Lemma wired_edges_before nodes0 cur :
  wired nodes0 cur → edges_before nodes0 → edges_before cur.
Proof.
  intros (Hlen & Hold & Hnew) Hwf i node f Hi Hf.
  destruct (decide (i < length nodes0)%nat) as [Hlt|Hge].
  - destruct (lookup_lt_is_Some_2 nodes0 i Hlt) as [node0 Hi0].
    destruct (Hold i node0 Hi0) as (n' & Hn' & Hsame). simplify_eq.
    apply (Hwf i node0 f Hi0). by rewrite Hsame in Hf.
  - destruct (Hnew i node) as (_ & _ & _ & _ & _ & _ & _ & Hsrc); [lia|done|].
    specialize (Hsrc f Hf). lia.
Qed.

Lemma online_wired (shuffle : list Submission → list Submission)
    (subs : list Submission) (nodes nodes0 nodes' : list Node)
    (max_losses : Z) (r : option nat) :
  start shuffle subs nodes = Ok nodes0 →
  generate_n_elimination_bracket_online shuffle subs nodes max_losses
  = Ok (nodes', r) →
  wired nodes0 nodes'.
Proof.
  intros Hstart Hrun.
  unfold generate_n_elimination_bracket_online in Hrun.
  rewrite Hstart in Hrun. cbn [mbind result_bind] in Hrun.
  repeat case_decide.
  - simplify_eq. apply wired_start.
  - destruct nodes0; simplify_eq. apply wired_start.
  - assert (nodes' = walk_groups
                       [available_by_score max_losses nodes0;
                        available_by_losses max_losses nodes0;
                        available_sorted max_losses nodes0]
                       (nodes0, pending nodes0)) as -> by congruence.
    apply (walk_groups_inv nodes0 max_losses (wired nodes0));
      [apply make_node_wired|apply wired_start].
Qed.

(** X11.  [generate_n_elimination_bracket_online] only adds nodes at the
    end of the bracket.  Every node that there was (after the initial
    pairing, when the bracket was empty) keeps its place, its submissions,
    games, winner and loser, and its feeders and inverted feeders.  Every
    node it adds has no submissions, games, winner, loser or children, and
    two sources, feeders and inverted feeders together, which are nodes
    that there were before.  So when the sources of every node came before
    the node, they still do. *)
Theorem online_grows_bracket
    (shuffle : list Submission → list Submission) (subs : list Submission)
    (nodes nodes0 nodes' : list Node) (max_losses : Z) (r : option nat) :
  start shuffle subs nodes = Ok nodes0 →
  generate_n_elimination_bracket_online shuffle subs nodes max_losses
  = Ok (nodes', r) →
  (∀ j node, nodes0 !! j = Some node →
     ∃ node', nodes' !! j = Some node' ∧
       submissions node' = submissions node ∧ games node' = games node ∧
       winner node' = winner node ∧ loser node' = loser node ∧
       feeders node' = feeders node ∧
       inverted_feeders node' = inverted_feeders node) ∧
  (∀ p new, (length nodes0 ≤ p)%nat → nodes' !! p = Some new →
     submissions new = [] ∧ games new = [] ∧
     winner new = None ∧ loser new = None ∧
     winner_child new = None ∧ loser_child new = None ∧
     length (feeders new ++ inverted_feeders new) = 2%nat ∧
     ∀ f, f ∈ feeders new ++ inverted_feeders new →
          (f < length nodes0)%nat) ∧
  (edges_before nodes0 → edges_before nodes').
Proof.
  intros Hstart Hrun.
  pose proof (online_wired _ _ _ _ _ _ _ Hstart Hrun) as Hwired.
  split_and!.
  - intros j node Hj. destruct Hwired as (_ & Hold & _).
    destruct (Hold j node Hj) as (node' & Hj' & Hsame).
    exists node'. split; [done|]. by rewrite Hsame.
  - intros p new Hp Hnew. destruct Hwired as (_ & _ & Hfresh).
    by apply (Hfresh p new Hp Hnew).
  - by apply wired_edges_before.
Qed.

(** X11 on two decided leaves with two losses allowed: the two nodes made
    are fed by the leaves. *)
Lemma online_grows_bracket_witness :
  ∃ nodes',
    generate_n_elimination_bracket_online (λ l, l) [] two_leaves 2
    = Ok (nodes', None) ∧
    length nodes' = 4%nat ∧
    ∀ p new, (2 ≤ p)%nat → nodes' !! p = Some new →
      submissions new = [] ∧ games new = [] ∧
      winner new = None ∧ loser new = None ∧
      winner_child new = None ∧ loser_child new = None ∧
      length (feeders new ++ inverted_feeders new) = 2%nat ∧
      ∀ f, f ∈ feeders new ++ inverted_feeders new → (f < 2)%nat.
Proof.
  eexists. split; [vm_compute; reflexivity|]. split; [reflexivity|].
  destruct (online_grows_bracket (λ l, l) [] two_leaves two_leaves _ 2 None
              eq_refl ltac:(vm_compute; reflexivity)) as (_ & Hnew & _).
  exact Hnew.
Defined.

(** *** The loop of [main] *)

Lemma append_in_turn_fuel shuffled nodes : ∀ i,
  append_in_turn shuffled i nodes ≠ OutOfFuel.
Proof.
  induction nodes as [|node nodes IH]; intros i; simpl; [done|].
  destruct (shuffled !! i); [|done].
  specialize (IH (S i)). by destruct (append_in_turn shuffled (S i) nodes).
Qed.

Lemma generate_initial_pairing_fuel shuffle subs :
  generate_initial_pairing shuffle subs ≠ OutOfFuel.
Proof.
  unfold generate_initial_pairing, ceil_log2. case_decide; [|done].
  cbn [mbind result_bind].
  destruct (seq_mul _ _) as [pad| |] eqn:Hpad; [|done|].
  - cbn [mbind result_bind].
    destruct (range _) as [idxs| |] eqn:Hidxs; [|done|].
    + cbn [mbind result_bind].
      destruct (append_in_turn _ 0 _) as [r1| |] eqn:H1; [|done|].
      * cbn [mbind result_bind].
        destruct (append_in_turn _ r1.2 _) as [r2| |] eqn:H2; [done..|].
        by apply append_in_turn_fuel in H2.
      * by apply append_in_turn_fuel in H1.
    + unfold range in Hidxs. by destruct (pow2 _).
  - unfold seq_mul in Hpad. by destruct (num_sub _ _).
Qed.

Lemma online_fuel shuffle subs nodes max_losses :
  generate_n_elimination_bracket_online shuffle subs nodes max_losses
  ≠ OutOfFuel.
Proof.
  unfold generate_n_elimination_bracket_online, start.
  case_decide.
  - pose proof (generate_initial_pairing_fuel shuffle subs).
    destruct (generate_initial_pairing shuffle subs) as [leaves| |];
      [|done..].
    cbn [mbind result_bind]. repeat case_decide; try done.
    by destruct (_ ++ leaves).
  - cbn [mbind result_bind]. repeat case_decide; try done. by destruct nodes.
Qed.

Lemma declare_all_fuel BEST_OF nodes :
  feeders_before nodes → declare_all BEST_OF nodes ≠ OutOfFuel.
Proof.
  intros Hwf. unfold declare_all.
  apply (foldl_bind_fuel _ (λ a, feeders <$> a = feeders <$> nodes));
    [| |done].
  - intros i a a' _ Ha Hstep. rewrite <- Ha.
    exact (declare_feeders _ _ _ _ _ Hstep).
  - intros i a _ Ha. apply declare_enough_fuel; [|lia].
    by eapply feeders_before_ext.
Qed.

(** [nodes'] has the nodes of [nodes], with the same edges. *)
Definition same_edges (nodes nodes' : list Node) : Prop :=
  Forall2 (λ node node',
             feeders node' = feeders node ∧
             inverted_feeders node' = inverted_feeders node) nodes nodes'.

Lemma same_edges_before nodes nodes' :
  same_edges nodes nodes' → edges_before nodes → edges_before nodes'.
Proof.
  intros Hsame Hwf i node' f Hi Hf.
  destruct (Forall2_lookup_r _ _ _ _ _ Hsame Hi) as (node & Hn & Hfe & Hinv).
  apply (Hwf i node f Hn). by rewrite <- Hfe, <- Hinv.
Qed.

Lemma same_edges_nil nodes nodes' :
  same_edges nodes nodes' → nodes ≠ [] → nodes' ≠ [].
Proof. intros Hsame Hne ->. apply Forall2_nil_inv_r in Hsame. done. Qed.

Lemma update_game_status_same_edges db nodes :
  same_edges nodes (update_game_status db nodes).
Proof.
  rewrite update_game_status_refreshed.
  apply Forall2_fmap_r, Forall_Forall2_diag, Forall_forall. by intros node _.
Qed.

Lemma kept_same_edges nodes nodes' :
  kept <$> nodes' = kept <$> nodes → same_edges nodes nodes'.
Proof.
  intros Hkept. apply Forall2_same_length_lookup. split.
  - by rewrite <- (length_fmap kept nodes), <- Hkept, length_fmap.
  - intros j node node' Hj Hj'.
    assert ((kept <$> nodes') !! j = (kept <$> nodes) !! j) as Hl
      by by rewrite Hkept.
    rewrite !list_lookup_fmap, Hj, Hj' in Hl.
    cbn [fmap option_fmap option_map] in Hl.
    unfold kept in Hl. by simplify_eq.
Qed.

Lemma extends_same_edges changed st st' :
  extends changed st st' → same_edges st.1 st'.1.
Proof.
  intros Hext. apply Forall2_same_length_lookup. split.
  - symmetry. by eapply extends_length.
  - intros j node node' Hj Hj'.
    destruct (ext_node _ _ _ Hext j) as [e He].
    rewrite Hj, Hj' in He. by simplify_eq/=.
Qed.

Section main_loop.

Variable shuffle : list Submission → list Submission.
Variables (N_ELIMINATION BEST_OF : Z) (REUSE_OLD_GAMES : bool).
Variable subs : list Submission.

(** The brackets that [main] gets to, whatever the database holds at each
    turn. *)
Inductive reachable : list Node → Prop :=
| reachable_start nodes :
    main_start shuffle N_ELIMINATION subs = Ok nodes →
    reachable nodes
| reachable_turn db nodes nodes' db' :
    reachable nodes →
    main_turn shuffle N_ELIMINATION BEST_OF REUSE_OLD_GAMES subs
      db nodes = Ok (nodes', db', None) →
    reachable nodes'.

Lemma main_turn_edges db nodes nodes' db' r :
  main_turn shuffle N_ELIMINATION BEST_OF REUSE_OLD_GAMES subs
    db nodes = Ok (nodes', db', r) →
  nodes ≠ [] → edges_before nodes →
  nodes' ≠ [] ∧ edges_before nodes'.
Proof.
  unfold main_turn. intros Hrun Hne Hwf.
  pose proof (update_game_status_same_edges db nodes) as H1.
  destruct (declare_all _ _) as [nodes2| |] eqn:H2; try done.
  cbn [mbind result_bind] in Hrun.
  apply declare_all_kept, kept_same_edges in H2.
  destruct (generate_n_elimination_bracket_online _ _ _ _)
    as [[nodes3 w]| |] eqn:H3; try done.
  cbn [mbind result_bind fst snd] in Hrun.
  assert (nodes2 ≠ []) as Hne2 by eauto using same_edges_nil.
  assert (edges_before nodes2) as Hwf2 by eauto using same_edges_before.
  assert (start shuffle subs nodes2 = Ok nodes2) as Hstart
    by (unfold start; by rewrite decide_False).
  pose proof (online_wired _ _ _ _ _ _ _ Hstart H3) as Hwired.
  assert (nodes3 ≠ [] ∧ edges_before nodes3) as [Hne3 Hwf3].
  { split; [|by eapply wired_edges_before].
    destruct Hwired as (Hlen & _ & _). intros ->.
    destruct nodes2; [done|]. simpl in Hlen. lia. }
  destruct w as [w|]; [by simplify_eq|].
  injection Hrun as <- <-.
  pose proof (create_games_extends REUSE_OLD_GAMES BEST_OF (λ _, True)
                (seq 0 (length nodes3)) (nodes3, db) (λ _ _, I)) as Hext.
  apply extends_same_edges in Hext. cbn [fst] in Hext.
  split; [by eapply same_edges_nil|by eapply same_edges_before].
Qed.

Lemma main_start_edges nodes :
  main_start shuffle N_ELIMINATION subs = Ok nodes →
  nodes ≠ [] ∧ edges_before nodes.
Proof.
  unfold main_start. rewrite online_from_nothing.
  destruct (generate_initial_pairing shuffle subs) as [leaves| |] eqn:Hl;
    try done.
  cbn [mbind result_bind fst]. intros [= <-].
  destruct (generate_initial_pairing_bare _ _ _ Hl) as [Hne Hbare].
  split; [done|]. intros i node f Hi Hf.
  rewrite Forall_lookup in Hbare. rewrite (Hbare i node Hi) in Hf.
  by apply elem_of_nil in Hf.
Qed.

Lemma reachable_edges nodes :
  reachable nodes → nodes ≠ [] ∧ edges_before nodes.
Proof.
  induction 1 as [nodes Hstart|db nodes nodes' db' _ [Hne Hwf] Hturn].
  - by apply main_start_edges.
  - by eapply main_turn_edges.
Qed.

Lemma main_turn_fuel db nodes :
  edges_before nodes →
  main_turn shuffle N_ELIMINATION BEST_OF REUSE_OLD_GAMES subs
    db nodes ≠ OutOfFuel.
Proof.
  intros Hwf. unfold main_turn.
  pose proof (update_game_status_same_edges db nodes) as H1.
  assert (declare_all BEST_OF (update_game_status db nodes) ≠ OutOfFuel)
    as Hfuel.
  { apply declare_all_fuel, edges_before_feeders.
    by eapply same_edges_before. }
  destruct (declare_all _ _) as [nodes2| |]; [|done..].
  cbn [mbind result_bind].
  pose proof (online_fuel shuffle subs nodes2 N_ELIMINATION) as Hon.
  destruct (generate_n_elimination_bracket_online _ _ _ _)
    as [[nodes3 [w|]]| |]; done.
Qed.

End main_loop.

(** X12.  Every bracket that the loop of [main] gets to, from the first
    call of [generate_n_elimination_bracket_online] and by any number of
    turns, whatever the database holds at each of them, has a node, and
    the sources of each of its nodes come before the node.  So the
    recursion of [declare_and_propogate_winners] through the feeders comes
    to an end at every node (the node at [i] needs no more than [i + 1]
    levels), and so does the next turn of the loop, which returns or
    raises. *)
Theorem main_loop_recursion_ends
    (shuffle : list Submission → list Submission)
    (N_ELIMINATION BEST_OF : Z) (REUSE_OLD_GAMES : bool)
    (subs : list Submission) (nodes : list Node) :
  reachable shuffle N_ELIMINATION BEST_OF REUSE_OLD_GAMES subs nodes →
  nodes ≠ [] ∧ edges_before nodes ∧
  (∀ i, declare_and_propogate_winners BEST_OF (S i) i nodes ≠ OutOfFuel) ∧
  ∀ db, main_turn shuffle N_ELIMINATION BEST_OF REUSE_OLD_GAMES subs
          db nodes ≠ OutOfFuel.
Proof.
  intros Hreach. apply reachable_edges in Hreach as [Hne Hwf].
  split_and!; [done..| |].
  - intros i. apply declare_enough_fuel; [|lia].
    by apply edges_before_feeders.
  - intros db. by apply main_turn_fuel.
Qed.

(** X12 on the bracket that [main] starts with for the five submissions,
    two losses allowed and a best of three. *)
Lemma main_loop_recursion_ends_witness :
  ∃ nodes,
    main_start (@rev _) 2 five_submissions = Ok nodes ∧
    length nodes = 4%nat ∧
    ∀ db, main_turn (@rev _) 2 3 false five_submissions db nodes
          ≠ OutOfFuel.
Proof.
  eexists. split; [vm_compute; reflexivity|]. split; [reflexivity|].
  apply (main_loop_recursion_ends (@rev _) 2 3 false five_submissions).
  apply reachable_start. vm_compute. reflexivity.
Defined.

(** X13.  A turn of the loop of [main] takes no node away, and a node
    that had a winner and a loser before the turn has after it the same
    winner, loser and submissions, the same feeders and inverted feeders,
    and games of the same ids in the same order, whatever the database
    holds. *)
Theorem main_turn_keeps_results
    (shuffle : list Submission → list Submission)
    (N_ELIMINATION BEST_OF : Z) (REUSE_OLD_GAMES : bool)
    (subs : list Submission) (db db' : DB)
    (nodes nodes' : list Node) (r : option nat) :
  main_turn shuffle N_ELIMINATION BEST_OF REUSE_OLD_GAMES subs
    db nodes = Ok (nodes', db', r) →
  (length nodes ≤ length nodes')%nat ∧
  ∀ j node, nodes !! j = Some node → decided node →
    ∃ node', nodes' !! j = Some node' ∧
      winner node' = winner node ∧ loser node' = loser node ∧
      submissions node' = submissions node ∧
      feeders node' = feeders node ∧
      inverted_feeders node' = inverted_feeders node ∧
      game_id <$> games node' = game_id <$> games node.
Proof.
  destruct (decide (nodes = [])) as [->|Hne];
    [intros _; split; [simpl; lia|by intros j node Hj]|].
  unfold main_turn. intros Hrun.
  pose proof (update_game_status_refreshed db nodes) as H1.
  set (nodes1 := update_game_status db nodes) in *.
  destruct (declare_all _ _) as [nodes2| |] eqn:H2; try done.
  cbn [mbind result_bind] in Hrun.
  destruct (generate_n_elimination_bracket_online _ _ _ _)
    as [[nodes3 w]| |] eqn:H3; try done.
  cbn [mbind result_bind fst snd] in Hrun.
  assert (length nodes1 = length nodes) as Hl1
    by (by rewrite H1, length_fmap).
  assert (length nodes2 = length nodes1) as Hl2.
  { apply declare_all_kept in H2.
    by rewrite <- (length_fmap kept nodes2), H2, length_fmap. }
  assert (nodes2 ≠ []) as Hne2.
  { intros ->. destruct nodes; [done|]. simpl in *. lia. }
  assert (start shuffle subs nodes2 = Ok nodes2) as Hstart
    by (unfold start; by rewrite decide_False).
  destruct (online_wired _ _ _ _ _ _ _ Hstart H3) as (Hl3 & Hold & _).
  set (st := create_needed_games REUSE_OLD_GAMES BEST_OF db nodes3) in *.
  assert (nodes' = nodes3 ∨ nodes' = st.1) as Hlast
    by (destruct w; simplify_eq; tauto).
  destruct (create_needed_games_enqueued REUSE_OLD_GAMES BEST_OF db nodes3)
    as [Hext Hidle _]. fold st in Hext, Hidle. cbn [fst] in Hidle.
  split.
  - destruct Hlast as [->| ->]; [lia|].
    rewrite (extends_length _ _ _ Hext). simpl. lia.
  - intros j node Hj Hdec.
    set (node1 := set_games (refreshed db (unfinished_game_ids nodes)
                               <$> games node) node).
    assert (nodes1 !! j = Some node1) as Hj1
      by (by rewrite H1, list_lookup_fmap, Hj).
    assert (decided node1) as Hdec1 by done.
    assert (nodes2 !! j = Some node1) as Hj2.
    { revert H2. unfold declare_all.
      apply (foldl_bind_inv _ (λ a, a !! j = Some node1)); [|done].
      intros i a a' _ Ha Hstep.
      exact (declare_keeps_decided _ _ _ _ _ Hstep j node1 Ha Hdec1). }
    destruct (Hold j node1 Hj2) as (node3 & Hj3 & Hsame).
    assert (nodes' !! j = Some node3) as Hj'.
    { destruct Hlast as [->| ->]; [done|].
      apply Hidle; [done|]. intros (Hw & _).
      rewrite Hsame in Hw. destruct Hdec as [[? Hw'] _].
      simpl in Hw. congruence. }
    exists node3. split; [done|]. rewrite Hsame. simpl.
    split_and!; try done.
    rewrite <- list_fmap_compose. apply list_fmap_ext.
    intros p g _. simpl. apply refreshed_id.
Qed.

(** A database without games. *)
Definition no_games : DB :=
  {| db_games := []; db_games_submissions := []; db_games_id_seq := 0 |}.

(** X13 on two decided leaves: after the turn that pairs their winners
    and their losers, the first leaf is still won by 1. *)
Lemma main_turn_keeps_results_witness :
  ∃ nodes' db',
    main_turn (λ l, l) 2 3 false [] no_games two_leaves
    = Ok (nodes', db', None) ∧
    (length two_leaves ≤ length nodes')%nat ∧
    ∃ node', nodes' !! 0%nat = Some node' ∧
             winner node' = Some (team 1) ∧ loser node' = Some (team 2).
Proof.
  eexists _, _. split; [vm_compute; reflexivity|].
  destruct (main_turn_keeps_results (λ l, l) 2 3 false [] no_games _
              two_leaves _ None ltac:(vm_compute; reflexivity))
    as [Hlen Hkept].
  split; [exact Hlen|].
  destruct (Hkept 0%nat _ eq_refl) as (node' & Hn & Hw & Hl & _).
  { split; by eexists. }
  exists node'. split; [exact Hn|]. split; [exact Hw|exact Hl].
Defined.


End LoopProofs.


(** ** What a tournament starts from *)

Module SeedingProofs.
Import TournamentScheduler.
Import SortedProofs.
Import SchedulerProofs.
Import BracketProofs.

(** *** The single-elimination bracket *)

(** The node that [make_level] makes for the index [i]. *)
Definition fed_by (lower_level : list nat) (i : nat) : Node :=
  set_feeders [default 0%nat (lower_level !! (i * 2)%nat);
               default 0%nat (lower_level !! (i * 2 + 1)%nat)] Node_init.

Lemma make_level_spec lower_level idxs : ∀ made,
  (∀ i, i ∈ idxs → (i * 2 + 1 < length lower_level)%nat) →
  make_level made lower_level idxs
  = Ok (made ++ (fed_by lower_level <$> idxs),
        seq (length made) (length idxs)).
Proof.
  induction idxs as [|i idxs IH]; intros made Hin; simpl.
  - by rewrite app_nil_r.
  - assert (i * 2 + 1 < length lower_level)%nat as Hi by (apply Hin; left).
    destruct (lookup_lt_is_Some_2 lower_level (i * 2)) as [a Ha]; [lia|].
    destruct (lookup_lt_is_Some_2 lower_level (i * 2 + 1)) as [b Hb]; [lia|].
    rewrite Ha, Hb.
    rewrite IH by (intros i' Hi'; apply Hin; by right).
    cbn [mbind result_bind fst snd]. rewrite <- (assoc_L (++)).
    rewrite length_app. simpl. unfold fed_by. rewrite Ha, Hb. simpl.
    by rewrite Nat.add_1_r.
Qed.

(** The level [level] is made of [lower_level]: its node of index [i] is
    fed by the nodes of indices [2 i] and [2 i + 1] of [lower_level]. *)
Definition fed (made : list Node) (lower_level level : list nat) : Prop :=
  (length level * 2 = length lower_level)%nat ∧
  ∀ i p, level !! i = Some p →
    ∃ a b, lower_level !! (2 * i)%nat = Some a ∧
           lower_level !! (2 * i + 1)%nat = Some b ∧
           made !! p = Some (set_feeders [a; b] Node_init).

Fixpoint chain (made : list Node) (lower_level : list nat)
    (levels : list (list nat)) : Prop :=
  match levels with
  | [] => True
  | level :: levels' => fed made lower_level level ∧ chain made level levels'
  end.

Lemma fed_more made more lower_level level :
  fed made lower_level level → fed (made ++ more) lower_level level.
Proof.
  intros [Hlen Hfed]. split; [done|]. intros i p Hp.
  destruct (Hfed i p Hp) as (a & b & Ha & Hb & Hn).
  exists a, b. split_and!; [done..|]. by apply lookup_app_l_Some.
Qed.

Lemma chain_more made more levels : ∀ lower_level,
  chain made lower_level levels → chain (made ++ more) lower_level levels.
Proof.
  induction levels as [|level levels IH]; intros lower_level; [done|].
  intros [Hfed Hchain]. split; [by apply fed_more|by apply IH].
Qed.

Lemma halve_levels_spec (e : nat) : ∀ fuel made lower_level levels,
  (e ≤ fuel)%nat →
  length lower_level = (2 ^ e)%nat →
  ∃ more news,
    halve_levels fuel (2 ^ Z.of_nat e) made lower_level levels
    = Ok (made ++ more, levels ++ news) ∧
    length news = e ∧
    (length more + 1 = 2 ^ e)%nat ∧
    chain (made ++ more) lower_level news ∧
    ∀ k level, news !! k = Some level →
               length level = (2 ^ (e - 1 - k))%nat.
Proof.
  induction e as [|e IH]; intros fuel made lower_level levels Hfuel Hlen.
  - exists [], []. rewrite !app_nil_r.
    split_and!; [by destruct fuel|done..].
  - destruct fuel as [|fuel]; [lia|].
    cbn [halve_levels].
    assert (1 < 2 ^ Z.of_nat (S e)) as Hw.
    { apply Z.pow_gt_1; lia. }
    rewrite decide_True by done.
    assert (2 ^ Z.of_nat (S e) `div` 2 = 2 ^ Z.of_nat e) as ->.
    { rewrite Nat2Z.inj_succ, Z.pow_succ_r by lia.
      rewrite Z.mul_comm. apply Z.div_mul. lia. }
    assert (Z.to_nat (2 ^ Z.of_nat e) = (2 ^ e)%nat) as ->.
    { rewrite <- (Nat2Z.id (2 ^ e)). f_equal.
      by rewrite Nat2Z.inj_pow. }
    rewrite make_level_spec.
    2:{ intros i Hi. apply elem_of_seq in Hi. rewrite Hlen. simpl. lia. }
    cbn [mbind result_bind fst snd]. rewrite length_seq.
    set (ns := fed_by lower_level <$> seq 0 (2 ^ e)).
    set (level := seq (length made) (2 ^ e)).
    destruct (IH fuel (made ++ ns) level (levels ++ [level]))
      as (more & news & Hrun & Hnews & Hmore & Hchain & Hsizes).
    { lia. }
    { unfold level. by rewrite length_seq. }
    exists (ns ++ more), (level :: news).
    rewrite (assoc_L (++)), Hrun, <- (assoc_L (++) levels). simpl.
    assert (length ns = (2 ^ e)%nat) as Hns
      by (unfold ns; by rewrite length_fmap, length_seq).
    split; [done|]. split; [by rewrite Hnews|].
    split; [|split].
    + rewrite length_app, Hns. lia.
    + split; [|done]. apply fed_more. split.
      * unfold level. rewrite length_seq, Hlen. simpl. lia.
      * intros i p Hp. unfold level in Hp.
        apply lookup_seq in Hp as [-> Hi].
        destruct (lookup_lt_is_Some_2 lower_level (2 * i)) as [a Ha];
          [rewrite Hlen; simpl; lia|].
        destruct (lookup_lt_is_Some_2 lower_level (2 * i + 1)) as [b Hb];
          [rewrite Hlen; simpl; lia|].
        exists a, b. split_and!; [done..|].
        rewrite lookup_app_r by lia.
        replace (length made + i - length made)%nat with i by lia.
        unfold ns. rewrite list_lookup_fmap, lookup_seq_lt by done.
        simpl. unfold fed_by.
        replace (i * 2)%nat with (2 * i)%nat by lia.
        by rewrite Ha, Hb.
    + intros [|k] lvl Hk; simpl in Hk.
      * injection Hk as <-. unfold level. rewrite length_seq.
        f_equal. lia.
      * rewrite (Hsizes k lvl Hk). f_equal. lia.
Qed.

Lemma chain_lookup made levels : ∀ lower_level k lower level,
  chain made lower_level levels →
  (lower_level :: levels) !! k = Some lower →
  levels !! k = Some level →
  fed made lower level.
Proof.
  induction levels as [|l levels IH]; intros lower_level k lower level;
    [by intros _ _ ?|].
  intros [Hfed Hchain] Hlower Hlevel. destruct k as [|k]; simpl in *.
  - by simplify_eq.
  - by eapply IH.
Qed.

Lemma halved_levels
    (shuffle : list Submission → list Submission)
    (subs : list Submission) (leaves : list Node) :
  generate_initial_pairing shuffle subs = Ok leaves →
  let c := Z.to_nat (Z.log2_up (Z.of_nat (length subs))) in
  ∃ more levels,
    generate_single_elimination_bracket shuffle subs
    = Ok (leaves ++ more, levels) ∧
    length levels = c ∧
    length (leaves ++ more) = (2 ^ c - 1)%nat ∧
    (∀ k level, levels !! k = Some level →
                length level = (2 ^ (c - 1 - k))%nat) ∧
    levels !! 0%nat = Some (seq 0 (length leaves)) ∧
    ∀ k lower level i p,
      levels !! k = Some lower → levels !! S k = Some level →
      level !! i = Some p →
      ∃ a b, lower !! (2 * i)%nat = Some a ∧
             lower !! (2 * i + 1)%nat = Some b ∧
             (leaves ++ more) !! p = Some (set_feeders [a; b] Node_init).
Proof.
  intros Hleaves c.
  destruct (generate_initial_pairing_width _ _ _ Hleaves) as [Hc Hwidth].
  unfold generate_single_elimination_bracket. rewrite Hleaves.
  unfold ceil_log2.
  rewrite decide_True by (destruct subs; simpl in *; [done|lia]).
  cbn [mbind result_bind]. unfold pow2. rewrite decide_True by lia.
  set (e := (c - 1)%nat).
  assert (Z.log2_up (Z.of_nat (length subs)) - 1 = Z.of_nat e) as He
    by (unfold e, c; lia).
  rewrite He in Hwidth |- *.
  assert (Z.to_nat (2 ^ Z.of_nat e) = (2 ^ e)%nat) as Hpow.
  { rewrite <- (Nat2Z.id (2 ^ e)). f_equal. by rewrite Nat2Z.inj_pow. }
  rewrite Hpow in Hwidth |- *.
  destruct (halve_levels_spec e (2 ^ e) leaves (seq 0 (length leaves))
              [seq 0 (length leaves)])
    as (more & news & Hrun & Hnews & Hmore & Hchain & Hsizes).
  { pose proof (Nat.pow_gt_lin_r 2 e). lia. }
  { by rewrite length_seq. }
  exists more, ([seq 0 (length leaves)] ++ news).
  assert (c = S e) as Hce by (unfold e, c; lia).
  split_and!; [done| | | |done|].
  - simpl. lia.
  - rewrite length_app, Hwidth, Hce. simpl. lia.
  - intros [|k] level Hk; simpl in Hk.
    + injection Hk as <-. rewrite length_seq, Hwidth. f_equal. lia.
    + rewrite (Hsizes k level Hk). f_equal. lia.
  - intros k lower level i p Hlower Hlevel Hp. simpl in Hlevel.
    destruct (chain_lookup _ _ _ k lower level Hchain Hlower Hlevel)
      as [_ Hfed].
    by apply Hfed.
Qed.


(** X14.  When [generate_initial_pairing] returns the leaves,
    [generate_single_elimination_bracket] returns [c] levels, [c] being
    [ceil(log2(n))] for [n] submissions: the first level is the leaves,
    the level [k] has [2 ^ (c - 1 - k)] nodes and the bracket
    [2 ^ c - 1] nodes in all, and the node [i] of a level above the leaves
    has the nodes [2 i] and [2 i + 1] of the level below it as its
    feeders, in that order, and nothing else.  When
    [generate_initial_pairing] raises, it raises the same. *)
Theorem single_elimination_levels
    (shuffle : list Submission → list Submission)
    (subs : list Submission) :
  let c := Z.to_nat (Z.log2_up (Z.of_nat (length subs))) in
  (∀ leaves,
     generate_initial_pairing shuffle subs = Ok leaves →
     ∃ more levels,
       generate_single_elimination_bracket shuffle subs
       = Ok (leaves ++ more, levels) ∧
       length levels = c ∧
       length (leaves ++ more) = (2 ^ c - 1)%nat ∧
       (∀ k level, levels !! k = Some level →
                   length level = (2 ^ (c - 1 - k))%nat) ∧
       levels !! 0%nat = Some (seq 0 (length leaves)) ∧
       ∀ k lower level i p,
         levels !! k = Some lower → levels !! S k = Some level →
         level !! i = Some p →
         ∃ a b, lower !! (2 * i)%nat = Some a ∧
                lower !! (2 * i + 1)%nat = Some b ∧
                (leaves ++ more) !! p = Some (set_feeders [a; b] Node_init)) ∧
  (∀ e, generate_initial_pairing shuffle subs = Raise e →
        generate_single_elimination_bracket shuffle subs = Raise e).
Proof.
  intros c. split; [intros leaves; apply halved_levels|].
  intros e He. unfold generate_single_elimination_bracket.
  rewrite He. revert He. unfold generate_initial_pairing.
  destruct (ceil_log2 _); cbn [mbind result_bind];
    [intros _; reflexivity|intros [= ->]; reflexivity|discriminate].
Qed.

(** *** Grouping *)

Lemma group_add_keys {K A} `{EqDecision K} (k : K) (a : A) d :
  (group_add k a d).*1 = if decide (k ∈ d.*1) then d.*1 else d.*1 ++ [k].
Proof.
  induction d as [|[k' l] d IH]; [done|].
  cbn [group_add]. rewrite !fmap_cons. cbn [fst].
  destruct (decide (k = k')) as [->|Hne].
  - rewrite fmap_cons. cbn [fst]. by rewrite decide_True by left.
  - rewrite fmap_cons, IH. cbn [fst].
    destruct (decide (k ∈ d.*1)) as [Hin|Hin].
    + by rewrite decide_True by by right.
    + rewrite decide_False; [done|].
      intros [?|?]%elem_of_cons; done.
Qed.

Lemma group_add_elem_of {K A} `{EqDecision K} (k : K) (a : A) d k' l' :
  NoDup d.*1 →
  (k', l') ∈ group_add k a d ↔
  (k' ≠ k ∧ (k', l') ∈ d) ∨
  (k' = k ∧ ((∃ l, (k, l) ∈ d ∧ l' = l ++ [a]) ∨ ((k ∉ d.*1) ∧ l' = [a]))).
Proof.
  induction d as [|[k0 l0] d IH]; simpl; intros Hnd.
  - rewrite list_elem_of_singleton. split.
    + intros [= -> ->]. right. split; [done|]. right.
      split; [apply not_elem_of_nil|done].
    + intros [[_ Hin]|[-> [(l & Hin & _)|[_ ->]]]];
        [by apply elem_of_nil in Hin..|done].
  - apply NoDup_cons in Hnd as [Hk0 Hnd].
    destruct (decide (k = k0)) as [->|Hne]; rewrite !elem_of_cons.
    + split.
      * intros [[= -> ->]|Hin].
        -- right. split; [done|]. left. exists l0. split; [left|done].
        -- left. split; [|by right]. intros ->. apply Hk0.
           apply list_elem_of_fmap. by exists (k0, l').
      * intros [[Hk [?|Hin]]|[-> [(l & Hin & ->)|[Hnot _]]]].
        -- by simplify_eq.
        -- by right.
        -- apply elem_of_cons in Hin as [[= ->]|Hin]; [by left|].
           exfalso. apply Hk0. apply list_elem_of_fmap. by exists (k0, l).
        -- exfalso. apply Hnot. by left.
    + rewrite (IH Hnd). split.
      * intros [[= -> ->]|[[Hk Hin]|[-> Hcase]]].
        -- left. split; [done|by left].
        -- left. split; [done|by right].
        -- right. split; [done|].
           destruct Hcase as [(l & Hin & ->)|[Hnot ->]].
           ++ left. exists l. split; [by right|done].
           ++ right. split; [|done]. by intros [?|?].
      * intros [[Hk [[= -> ->]|Hin]]|[-> Hcase]].
        -- by left.
        -- right. left. by split.
        -- right. right. split; [done|].
           destruct Hcase as [(l & Hin & ->)|[Hnot ->]].
           ++ apply elem_of_cons in Hin as [[= ? ?]|Hin]; [done|].
              left. by exists l.
           ++ right. split; [|done]. intros Hin. apply Hnot. by right.
Qed.

(** [group_by]: one group for every key, in the order in which the keys
    first come; a group holds the elements of its key, in their order. *)
Lemma group_by_spec {K A} `{EqDecision K} (key : A → K) (l : list A) :
  NoDup (group_by key l).*1 ∧
  (∀ k, k ∈ (group_by key l).*1 ↔ k ∈ key <$> l) ∧
  ∀ k grp, (k, grp) ∈ group_by key l →
           grp = filter (λ a, key a = k) l ∧ grp ≠ [].
Proof.
  induction l as [|a l IH] using rev_ind.
  - split_and!; [constructor|done|].
    intros k grp Hin. by apply elem_of_nil in Hin.
  - destruct IH as (Hnd & Hkeys & Hgrp).
    unfold group_by in *. rewrite foldl_app. cbn [foldl].
    set (d := foldl _ [] l) in *.
    split_and!.
    + rewrite group_add_keys. case_decide as Hin; [done|].
      apply NoDup_app. split_and!; [done| |apply NoDup_singleton].
      intros k Hk ->%list_elem_of_singleton. done.
    + intros k. rewrite group_add_keys, fmap_app, elem_of_app.
      simpl. rewrite list_elem_of_singleton, <- Hkeys.
      case_decide as Hin; [|by rewrite elem_of_app, list_elem_of_singleton].
      split; [tauto|]. by intros [?| ->].
    + intros k grp. rewrite (group_add_elem_of _ _ _ _ _ Hnd).
      rewrite filter_app, filter_cons, filter_nil.
      intros [[Hne Hin]|[-> [(g & Hin & ->)|[Hnot ->]]]].
      * destruct (Hgrp k grp Hin) as [-> ?].
        rewrite decide_False by done. by rewrite app_nil_r.
      * destruct (Hgrp _ g Hin) as [-> ?].
        rewrite decide_True by done. split; [done|].
        intros Heq. by apply app_eq_nil in Heq as [_ ?].
      * rewrite decide_True by done. split; [|done].
        rewrite PyrenaProofs.filter_none; [done|].
        intros a' Ha' Hk. apply Hnot, Hkeys.
        rewrite <- Hk. by apply list_elem_of_fmap_2.
Qed.

(** *** [get_latest_submissions] *)

Lemma foldl_max_spec (vs : list Z) : ∀ v,
  (foldl Z.max v vs = v ∨ foldl Z.max v vs ∈ vs) ∧
  v ≤ foldl Z.max v vs ∧ ∀ x, x ∈ vs → x ≤ foldl Z.max v vs.
Proof.
  induction vs as [|y vs IH]; intros v; simpl.
  - split_and!; [by left|lia|]. intros x Hx. by apply elem_of_nil in Hx.
  - destruct (IH (Z.max v y)) as (Hin & Hle & Hall). split_and!.
    + destruct Hin as [->|Hin]; [|right; by right].
      destruct (Z.max_spec v y) as [[_ ->]|[_ ->]]; [right; left|by left].
    + lia.
    + intros x [->|Hx]%elem_of_cons; [lia|by apply Hall].
Qed.

Lemma MAX_spec (vs : list Z) (m : Z) :
  MAX vs = Some m ↔ m ∈ vs ∧ ∀ x, x ∈ vs → x ≤ m.
Proof.
  destruct vs as [|v vs]; simpl.
  - split; [done|]. intros [Hin _]. by apply elem_of_nil in Hin.
  - destruct (foldl_max_spec vs v) as (Hin & Hle & Hall). split.
    + intros [= <-]. split.
      * destruct Hin as [->|Hin]; [left|by right].
      * intros x [->|Hx]%elem_of_cons; [done|by apply Hall].
    + intros [Hm Hmax]. f_equal. apply Z.le_antisymm.
      * apply Hmax. destruct Hin as [->|Hin]; [left|by right].
      * apply elem_of_cons in Hm as [->|Hm]; [done|by apply Hall].
Qed.

(** A row of the result, from the submission [s] of the team [t]. *)
Definition latest_row (s : SubmissionsRow) (t : TeamsRow) : SubmissionRow :=
  {| sub_id := s_id s; sub_name := t_name t; sub_version := s_version s;
     sub_status := s_status s; sub_created_at := s_created_at s |}.

Lemma latest_versions_spec submissions team version :
  (team, version) ∈ latest_versions submissions ↔
  ∃ m, version = Some m ∧
    (∃ s, s ∈ submissions ∧ s_status s ≠ "failed" ∧
          s_team_id s = team ∧ s_version s = m) ∧
    ∀ s, s ∈ submissions → s_status s ≠ "failed" → s_team_id s = team →
         s_version s ≤ m.
Proof.
  unfold latest_versions.
  set (ok := filter (λ s, s_status s ≠ "failed") submissions).
  destruct (group_by_spec s_team_id ok) as (Hnd & Hkeys & Hgrp).
  assert (∀ grp v, grp = filter (λ a, s_team_id a = team) ok →
            (v ∈ s_version <$> grp ↔
             ∃ s, s ∈ submissions ∧ s_status s ≠ "failed" ∧
                  s_team_id s = team ∧ s_version s = v)) as Hvs.
  { intros grp v ->. rewrite list_elem_of_fmap. unfold ok.
    setoid_rewrite list_elem_of_filter. setoid_rewrite list_elem_of_filter.
    naive_solver. }
  rewrite list_elem_of_fmap. split.
  - intros ([k grp] & [= -> ->] & Hin). simpl.
    destruct (Hgrp k grp Hin) as [Heq Hne].
    destruct (MAX (s_version <$> grp)) as [m|] eqn:Hmax.
    + exists m. split; [done|]. apply MAX_spec in Hmax as [Hm Hall].
      split; [by apply (Hvs grp m Heq)|].
      intros s Hs Hok Hteam. apply Hall, (Hvs grp _ Heq). by exists s.
    + destruct grp; done.
  - intros (m & -> & (s & Hs & Hok & Hteam & Hv) & Hall).
    assert (team ∈ (group_by s_team_id ok).*1) as Hk.
    { apply Hkeys. apply list_elem_of_fmap. exists s. split; [done|].
      by apply list_elem_of_filter. }
    apply list_elem_of_fmap in Hk as ([k grp] & -> & Hin). simpl in *.
    exists (k, grp). split; [|done]. simpl. f_equal.
    destruct (Hgrp k grp Hin) as [Heq Hne]. symmetry. apply MAX_spec. split.
    + apply (Hvs grp m Heq). by exists s.
    + intros x Hx. apply (Hvs grp x Heq) in Hx as (s' & ? & ? & ? & <-).
      by apply Hall.
Qed.

(** X15.  A row is returned by [get_latest_submissions] exactly when it
    has the id, version, status and date of a submission and the name of
    the team of that submission, the team has a captain and is eligible,
    the submission has not failed, and no submission of that team that has
    not failed has a higher version. *)
Theorem get_latest_submissions_rows
    (submissions : list SubmissionsRow) (teams : list TeamsRow)
    (r : SubmissionRow) :
  r ∈ get_latest_submissions submissions teams ↔
  ∃ s t,
    s ∈ submissions ∧ t ∈ teams ∧ r = latest_row s t ∧
    s_team_id s = t_id t ∧
    is_Some (t_team_captain_id t) ∧ t_is_eligible t = true ∧
    s_status s ≠ "failed" ∧
    ∀ s', s' ∈ submissions → s_status s' ≠ "failed" →
          s_team_id s' = s_team_id s → s_version s' ≤ s_version s.
Proof.
  unfold get_latest_submissions. rewrite list_elem_of_bind.
  setoid_rewrite list_elem_of_bind. setoid_rewrite list_elem_of_bind.
  split.
  - intros (s & ([team version] & (t & Hr & Ht) & Hm) & Hs).
    case_decide as Hc; [|by apply elem_of_nil in Hr].
    apply list_elem_of_singleton in Hr. simpl in Hc.
    destruct Hc as (Hteam & Hv & Hst & Hcap & Hel & Hok).
    apply latest_versions_spec in Hm as (m & -> & _ & Hall).
    injection Hv as Hv. exists s, t. split_and!; try done.
    intros s' Hs' Hok' Hteam'. rewrite Hv. apply Hall; [done..|congruence].
  - intros (s & t & Hs & Ht & -> & Hst & Hcap & Hel & Hok & Hall).
    exists s. split; [|done].
    exists (s_team_id s, Some (s_version s)). split.
    + exists t. split; [|done]. rewrite decide_True by done. left.
    + apply latest_versions_spec. exists (s_version s). split; [done|].
      split; [by exists s|]. intros s' ? ? ?. by apply Hall.
Qed.

Lemma latest_versions_keys submissions :
  NoDup (latest_versions submissions).*1.
Proof.
  unfold latest_versions. rewrite <- list_fmap_compose.
  set (ok := filter _ submissions).
  destruct (group_by_spec s_team_id ok) as (Hnd & _ & _).
  by erewrite list_fmap_ext; [exact Hnd|].
Qed.

(** X16.  When no two rows of [submissions] have the same id and no two
    rows of [teams] have the same id, no two rows that
    [get_latest_submissions] returns have the same id. *)
Theorem get_latest_submissions_distinct
    (submissions : list SubmissionsRow) (teams : list TeamsRow) :
  NoDup (s_id <$> submissions) →
  NoDup (t_id <$> teams) →
  NoDup (sub_id <$> get_latest_submissions submissions teams).
Proof.
  intros Hsubs Hteams. unfold get_latest_submissions.
  pose proof (latest_versions_keys submissions) as Hkeys.
  revert Hkeys. generalize (latest_versions submissions). intros ms Hkeys.
  (* one team at most for a submission *)
  assert (∀ s (m : Z * option Z) ts, NoDup (t_id <$> ts) →
            ∃ rows, (t ← ts;
                     if decide (s_team_id s = m.1 ∧ Some (s_version s) = m.2 ∧
                                s_team_id s = t_id t ∧
                                is_Some (t_team_captain_id t) ∧
                                t_is_eligible t = true ∧
                                s_status s ≠ "failed")
                     then [latest_row s t] else []) = rows ∧
                    (length rows ≤ 1)%nat ∧
                    (s_team_id s ≠ m.1 → rows = []) ∧
                    ∀ r, r ∈ rows → sub_id r = s_id s) as Hone.
  { intros s m ts. induction ts as [|t ts IH]; intros Hnd.
    - exists []. split_and!; [done|simpl; lia|done|].
      intros r Hr. by apply elem_of_nil in Hr.
    - rewrite fmap_cons in Hnd. apply NoDup_cons in Hnd as [Ht Hnd].
      destruct (IH Hnd) as (rows & Hrows & Hlen & Hnone & Hids).
      csimpl. rewrite Hrows.
      destruct (decide _) as [Hc|Hc].
      + assert (rows = []) as ->.
        { rewrite <- Hrows. clear -Hc Ht.
          destruct Hc as (_ & _ & Hteam & _).
          induction ts as [|t' ts IH]; [done|]. csimpl.
          rewrite fmap_cons in Ht. apply not_elem_of_cons in Ht as [Hne Ht].
          rewrite decide_False by (intros (_ & _ & ? & _); congruence).
          by apply IH. }
        eexists. split; [done|]. split_and!; [simpl; lia| |].
        * intros Hne. by destruct Hc as [? _].
        * intros r Hr%list_elem_of_singleton. by subst.
      + exists rows. by split_and!. }
  assert (∀ s l, NoDup l.*1 →
            ∃ rows, (m ← l; t ← teams;
                     if decide (s_team_id s = m.1 ∧ Some (s_version s) = m.2 ∧
                                s_team_id s = t_id t ∧
                                is_Some (t_team_captain_id t) ∧
                                t_is_eligible t = true ∧
                                s_status s ≠ "failed")
                     then [latest_row s t] else []) = rows ∧
                    (length rows ≤ 1)%nat ∧
                    (s_team_id s ∉ l.*1 → rows = []) ∧
                    ∀ r, r ∈ rows → sub_id r = s_id s) as Htwo.
  { intros s l. induction l as [|m l IH]; intros Hnd.
    - exists []. split_and!; [done|simpl; lia|done|].
      intros r Hr. by apply elem_of_nil in Hr.
    - rewrite fmap_cons in Hnd. apply NoDup_cons in Hnd as [Hm Hnd].
      destruct (IH Hnd) as (rows & Hrows & Hlen & Hnone & Hids).
      destruct (Hone s m teams Hteams) as (r1 & Hr1 & Hl1 & Hn1 & Hi1).
      csimpl. rewrite Hrows, Hr1.
      destruct (decide (s_team_id s = m.1)) as [Heq|Hne].
      + rewrite Hnone by (by rewrite Heq). rewrite app_nil_r.
        exists r1. split_and!; [done..| |done].
        intros Hnot. exfalso. apply Hnot. rewrite Heq. left.
      + rewrite (Hn1 Hne). exists rows. split_and!; [done..| |done].
        intros Hnot. apply Hnone.
        by apply not_elem_of_cons in Hnot as [_ ?]. }
  induction submissions as [|s submissions IH]; [constructor|].
  rewrite fmap_cons in Hsubs. apply NoDup_cons in Hsubs as [Hs Hsubs].
  destruct (Htwo s ms Hkeys) as (rows & Hrows & Hlen & _ & Hids).
  csimpl. rewrite fmap_app.
  change (λ s0 t, latest_row s0 t) with latest_row in *.
  apply NoDup_app. split_and!.
  - unfold latest_row in Hrows. rewrite Hrows.
    destruct rows as [|r [|]]; simpl in *;
      [constructor|apply NoDup_singleton|lia].
  - intros z Hz Hz'. apply Hs.
    unfold latest_row in Hrows. rewrite Hrows in Hz.
    apply list_elem_of_fmap in Hz as (r & -> & Hr).
    rewrite (Hids r Hr) in Hz'.
    apply list_elem_of_fmap in Hz' as (r' & Heq & Hr').
    apply list_elem_of_bind in Hr' as (s' & Hr' & Hs').
    apply list_elem_of_bind in Hr' as (m & Hr' & _).
    apply list_elem_of_bind in Hr' as (t & Hr' & _).
    case_decide; [|by apply elem_of_nil in Hr'].
    apply list_elem_of_singleton in Hr' as ->. simpl in Heq.
    rewrite Heq. by apply list_elem_of_fmap_2.
  - by apply IH.
Qed.

(** Three submissions of two teams, and the teams. *)
Definition submissions_table : list SubmissionsRow :=
  [{| s_id := 1; s_team_id := 1; s_version := 1; s_status := "finished";
      s_created_at := 0 |};
   {| s_id := 2; s_team_id := 1; s_version := 2; s_status := "finished";
      s_created_at := 1 |};
   {| s_id := 3; s_team_id := 2; s_version := 1; s_status := "finished";
      s_created_at := 2 |}].

Definition teams_table : list TeamsRow :=
  [{| t_id := 1; t_name := "one"; t_team_captain_id := Some 7;
      t_is_eligible := true |};
   {| t_id := 2; t_name := "two"; t_team_captain_id := Some 8;
      t_is_eligible := true |}].

(** X16 on these tables: the submissions 2 and 3 are returned. *)
Lemma get_latest_submissions_distinct_witness :
  sub_id <$> get_latest_submissions submissions_table teams_table = [2; 3] ∧
  NoDup (sub_id <$> get_latest_submissions submissions_table teams_table).
Proof.
  split; [vm_compute; reflexivity|].
  apply get_latest_submissions_distinct;
    apply (bool_decide_unpack _); vm_compute; exact I.
Defined.


End SeedingProofs.


(** ** The arena: recent games, the queue, submissions, matches *)

Module ArenaProofs.
Import Pyrena.
Import SortedProofs.
Import PyrenaProofs.

(** *** Strings *)

(** The character [c] does not occur in [s]. *)
Fixpoint free (c : ascii) (s : string) : Prop :=
  match s with
  | EmptyString => True
  | String d s' => d ≠ c ∧ free c s'
  end.

Lemma free_app c s t : free c (s +:+ t) ↔ free c s ∧ free c t.
Proof. induction s as [|d s IH]; simpl; [tauto|]. rewrite IH. tauto. Qed.

Lemma split_free c s : free c s → split c s = [s].
Proof.
  induction s as [|d s IH]; simpl; [done|]. intros [Hd Hs].
  rewrite decide_False by done. by rewrite IH.
Qed.

Lemma split_app c s t :
  free c s → split c (s +:+ String c t) = s :: split c t.
Proof.
  induction s as [|d s IH]; simpl.
  - intros _. by rewrite decide_True.
  - intros [Hd Hs]. rewrite decide_False by done. by rewrite IH.
Qed.

Lemma split_ne_nil c s : split c s ≠ [].
Proof.
  destruct s as [|d s]; simpl; [done|]. case_decide; [done|].
  by destruct (split c s).
Qed.

Lemma split_two c s t :
  ∃ h l, split c (s +:+ String c t) = h :: l ∧ l ≠ [].
Proof.
  induction s as [|d s (h & l & IH & Hl)]; simpl.
  - rewrite decide_True by done. eexists _, _. split; [done|].
    apply split_ne_nil.
  - rewrite IH. case_decide; eexists _, _; (split; [done|]); done.
Qed.

(** What comes after the last [c] is the last piece. *)
Lemma last_split c s t :
  free c t → last (split c (s +:+ String c t)) = Some t.
Proof.
  intros Ht. induction s as [|d s IH]; simpl.
  - rewrite decide_True by done. by rewrite split_free.
  - destruct (split_two c s t) as (h & l & Hsplit & Hl).
    rewrite Hsplit in IH |- *. destruct l as [|h' l]; [done|].
    case_decide; exact IH.
Qed.

(** *** Numbers as text *)

Lemma digit_pretty_N_char (m : N) :
  (m < 10)%N → digit (pretty_N_char m) = Some (Z.of_N m).
Proof.
  intros Hm.
  assert (m = 0 ∨ m = 1 ∨ m = 2 ∨ m = 3 ∨ m = 4 ∨ m = 5 ∨ m = 6 ∨ m = 7 ∨
          m = 8 ∨ m = 9)%N as Hcases by lia.
  repeat (destruct Hcases as [->|Hcases]; [done|]). by subst.
Qed.

Lemma digits_pretty_N_go (x : N) : ∀ s,
  digits 0 (pretty_N_go x s) = digits (Z.of_N x) s.
Proof.
  induction (N.lt_wf_0 x) as [x _ IH]. intros s.
  assert (x = 0 ∨ 0 < x)%N as [->|Hx] by lia; [done|].
  rewrite pretty_N_go_step by done.
  rewrite IH by (by apply N.div_lt).
  cbn [digits]. rewrite digit_pretty_N_char by (by apply N.mod_lt).
  cbn [mbind option_bind]. f_equal.
  pose proof (N.div_mod x 10). lia.
Qed.

Lemma digits_free c s : ∀ acc r,
  digits acc s = Some r → digit c = None → free c s.
Proof.
  induction s as [|d s IH]; intros acc r Hr Hc; simpl in *; [done|].
  destruct (digit d) as [v|] eqn:Hd; [|done]. simpl in Hr.
  split; [congruence|]. by eapply IH.
Qed.

Lemma pretty_pos (p : positive) :
  digits 0 (pretty (N.pos p)) = Some (Z.pos p) ∧
  pretty (N.pos p) ≠ "" ∧
  ∀ s', pretty (N.pos p) ≠ String "-" s'.
Proof.
  unfold pretty, pretty_N. rewrite decide_False by done.
  pose proof (digits_pretty_N_go (N.pos p) "") as Hd. simpl in Hd.
  split_and!; [done| |].
  - intros Heq. rewrite Heq in Hd. done.
  - intros s'. by apply (pretty_N_go_ne_dash (N.pos p) "" s').
Qed.

(** [int] reads back what the database writes for an integer. *)
Lemma int_pretty (z : Z) : int (pretty z) = Ok z.
Proof.
  destruct z as [|p|p]; [done| |].
  - change (pretty (Z.pos p)) with (pretty (N.pos p)).
    destruct (pretty_pos p) as (Hd & Hne & Hdash).
    destruct (pretty (N.pos p)) as [|c s] eqn:Hp; [done|].
    unfold int. rewrite decide_False by (intros ->; by eapply Hdash).
    by rewrite Hd.
  - change (pretty (Z.neg p)) with (String "-" (pretty (N.pos p))).
    destruct (pretty_pos p) as (Hd & Hne & Hdash).
    unfold int. rewrite decide_True by done.
    destruct (pretty (N.pos p)) as [|c s] eqn:Hp; [done|].
    by rewrite Hd.
Qed.

Lemma pretty_free (c : ascii) (z : Z) :
  digit c = None → c ≠ "-"%char → free c (pretty z).
Proof.
  intros Hc Hdash. destruct z as [|p|p].
  - change (pretty 0) with "0". simpl. split; [|done]. intros <-. done.
  - change (pretty (Z.pos p)) with (pretty (N.pos p)).
    destruct (pretty_pos p) as (Hd & _). by eapply digits_free.
  - change (pretty (Z.neg p)) with (String "-" (pretty (N.pos p))).
    destruct (pretty_pos p) as (Hd & _).
    split; [done|]. by eapply digits_free.
Qed.

Lemma split_string_agg (c : ascii) (l : list string) :
  l ≠ [] → Forall (free c) l →
  split c (string_agg (String c "") l) = l.
Proof.
  induction l as [|s [|s' l] IH]; intros Hne Hfree; [done| |].
  - apply Forall_cons in Hfree as [Hs _]. simpl. by apply split_free.
  - apply Forall_cons in Hfree as [Hs Hfree].
    change (string_agg (String c "") (s :: s' :: l))
      with (s +:+ String c (string_agg (String c "") (s' :: l))).
    rewrite split_app by done. f_equal. by apply IH.
Qed.

Lemma for_each_int_pretty (ids : list Z) :
  for_each int (pretty <$> ids) = Ok ids.
Proof.
  induction ids as [|z ids IH]; [done|].
  csimpl. rewrite int_pretty. cbn [mbind result_bind]. by rewrite IH.
Qed.

Lemma submission_ids_round_trip_ (ids : list Z) :
  ids ≠ [] →
  for_each int (split ","%char (string_agg "," (pretty <$> ids))) = Ok ids.
Proof.
  intros Hne. rewrite split_string_agg.
  - apply for_each_int_pretty.
  - by destruct ids.
  - apply Forall_fmap, Forall_forall. intros z _. by apply pretty_free.
Qed.

(** *** [get_recent_games], and the pairing that follows it *)

Section recent.

Variable created_at : Game → Z.
Variable current_timestamp : Z.

(** The rows of the join for the games [games]. *)
Definition joined (db : DB) (time_backward : Z) (games : list Game)
    : list (Game * (Z * Z)) :=
  g ← games; gs ← db_games_submissions db;
  if decide (game_id g = gs.1 ∧
             current_timestamp - time_backward < created_at g)
  then [(g, gs)] else [].

Lemma joined_cons db time_backward g games :
  joined db time_backward (g :: games)
  = joined db time_backward [g] ++ joined db time_backward games.
Proof. unfold joined. csimpl. by rewrite app_nil_r. Qed.

Lemma joined_other db time_backward (k : Z * string) games :
  k.1 ∉ game_id <$> games →
  filter (λ r : Game * (Z * Z), (game_id r.1, game_status r.1) = k)
         (joined db time_backward games) = [].
Proof.
  intros Hk. apply filter_none. intros [g gs] Hin Hkey.
  unfold joined in Hin. apply list_elem_of_bind in Hin as (g' & Hin & Hg').
  apply list_elem_of_bind in Hin as (gs' & Hin & _).
  case_decide; [|by apply elem_of_nil in Hin].
  apply list_elem_of_singleton in Hin. simplify_eq/=.
  apply Hk. by apply list_elem_of_fmap_2.
Qed.

Lemma joined_one db time_backward g :
  current_timestamp - time_backward < created_at g →
  (λ r : Game * (Z * Z), r.2.2)
    <$> filter (λ r : Game * (Z * Z),
                  (game_id r.1, game_status r.1)
                  = (game_id g, game_status g))
               (joined db time_backward [g])
  = snd <$> filter (λ gs, gs.1 = game_id g) (db_games_submissions db).
Proof.
  intros Hrecent. unfold joined. csimpl. rewrite app_nil_r.
  induction (db_games_submissions db) as [|gs l IH]; [done|].
  csimpl. rewrite filter_app, fmap_app, IH, (filter_cons _ gs).
  destruct (decide (gs.1 = game_id g)) as [Heq|Hne].
  - rewrite decide_True by done. rewrite filter_cons, decide_True by done.
    done.
  - rewrite decide_False by (intros [? _]; congruence). done.
Qed.

Lemma joined_game db time_backward g games :
  NoDup (game_id <$> games) → g ∈ games →
  current_timestamp - time_backward < created_at g →
  (λ r : Game * (Z * Z), r.2.2)
    <$> filter (λ r : Game * (Z * Z),
                  (game_id r.1, game_status r.1)
                  = (game_id g, game_status g))
               (joined db time_backward games)
  = snd <$> filter (λ gs, gs.1 = game_id g) (db_games_submissions db).
Proof.
  intros Hnd Hg Hrecent.
  induction games as [|g' games IH]; [by apply elem_of_nil in Hg|].
  rewrite fmap_cons in Hnd. apply NoDup_cons in Hnd as [Hg' Hnd].
  rewrite joined_cons, filter_app, fmap_app.
  apply elem_of_cons in Hg as [<-|Hg].
  - rewrite (joined_other _ _ (game_id g, game_status g) games) by done.
    rewrite app_nil_r. by apply joined_one.
  - rewrite IH by done.
    rewrite (joined_other _ _ (game_id g, game_status g) [g']); [done|].
    simpl. intros Hin%list_elem_of_singleton. apply Hg'. rewrite <- Hin.
    by apply list_elem_of_fmap_2.
Qed.

(** The row of a recent game that has rows in [games_submissions]. *)
Lemma get_recent_games_row db time_backward g ids :
  NoDup (game_id <$> db_games db) → g ∈ db_games db →
  current_timestamp - time_backward < created_at g →
  snd <$> filter (λ gs, gs.1 = game_id g) (db_games_submissions db) = ids →
  ids ≠ [] →
  {| rg_id := game_id g; rg_status := game_status g;
     rg_submission_ids := string_agg "," (pretty <$> ids) |}
  ∈ get_recent_games created_at current_timestamp db time_backward.
Proof.
  intros Hnd Hg Hrecent Hids Hne. unfold get_recent_games.
  fold (joined db time_backward (db_games db)).
  set (key := λ r : Game * (Z * Z), (game_id r.1, game_status r.1)).
  destruct (SeedingProofs.group_by_spec key
              (joined db time_backward (db_games db)))
    as (_ & Hkeys & Hgrp).
  assert ((game_id g, game_status g)
          ∈ (TournamentScheduler.group_by key
               (joined db time_backward (db_games db))).*1) as Hk.
  { apply Hkeys.
    destruct (filter (λ gs, gs.1 = game_id g) (db_games_submissions db))
      as [|gs l] eqn:Hf; [by subst|].
    assert (gs ∈ filter (λ gs, gs.1 = game_id g) (db_games_submissions db))
      as Hgs by (rewrite Hf; left).
    apply list_elem_of_filter in Hgs as [Hgs1 Hgs].
    apply list_elem_of_fmap. exists (g, gs). split; [done|].
    unfold joined. apply list_elem_of_bind. exists g. split; [|done].
    apply list_elem_of_bind. exists gs. split; [|done].
    rewrite decide_True by done. left. }
  apply list_elem_of_fmap in Hk as ([k grp] & Hkey & Hin). simpl in Hkey.
  subst k. apply list_elem_of_fmap. eexists. split; [|exact Hin]. simpl.
  do 2 f_equal. destruct (Hgrp _ _ Hin) as [-> _].
  rewrite <- Hids, <- (joined_game db time_backward g (db_games db)) by done.
  by rewrite <- list_fmap_compose.
Qed.

(** X18.  A game of the database that was created within the time looked
    back, is not queued, has an id that no other game has, and is linked
    to two submissions [a] and [b]: when [generate_nonrecent_pairing], on
    what [get_recent_games] returns for that database, returns a pair,
    the pair is not [a] and [b], in either order. *)
Theorem recent_game_not_paired_again
    (db : DB) (time_backward : Z) (submissions : list SubmissionRow)
    (t t' : tape) (found : list SubmissionRow) (g : Game) (a b : Z) :
  generate_nonrecent_pairing submissions
    (get_recent_games created_at current_timestamp db time_backward) t
  = Ok (found, t') →
  NoDup (game_id <$> db_games db) →
  g ∈ db_games db →
  game_status g ≠ "queued" →
  current_timestamp - time_backward < created_at g →
  snd <$> filter (λ gs, gs.1 = game_id g) (db_games_submissions db)
  = [a; b] →
  sub_id <$> found ≠ [a; b] ∧ sub_id <$> found ≠ [b; a].
Proof.
  intros Hrun Hnd Hg Hstatus Hrecent Hids.
  pose proof (get_recent_games_row db time_backward g [a; b]
                Hnd Hg Hrecent Hids ltac:(done)) as Hrow.
  revert Hrun. unfold generate_nonrecent_pairing.
  destruct (recent_pairs _) as [pairs| |] eqn:Hpairs; try done.
  cbn [mbind result_bind].
  destruct (generate_pairing submissions t) as [[p tp]| |] eqn:Hp; try done.
  cbn [mbind result_bind fst snd].
  destruct (try_again submissions pairs 200 p tp) as [[q tq]| |] eqn:Hq;
    try done.
  cbn [mbind result_bind fst snd].
  apply generate_pairing_pair in Hp.
  apply try_again_fresh in Hq as [(c & d & -> & Hcd & _ & _) Hfresh];
    [|done].
  destruct (for_each _ [c; d]) as [ss| |] eqn:Hss; try done.
  cbn [mbind result_bind]. intros [= <- <-].
  apply for_each_Ok in Hss.
  apply Forall2_cons_inv_l in Hss as (s1 & ss1 & Hs1 & Hss & ->).
  apply Forall2_cons_inv_l in Hss as (s2 & ss2 & Hs2 & Hss & ->).
  apply Forall2_nil_inv_l in Hss as ->.
  destruct (id_to_submissions submissions !! c) as [s1'|] eqn:Hc; [|done].
  destruct (id_to_submissions submissions !! d) as [s2'|] eqn:Hd; [|done].
  simpl in Hs1, Hs2. simplify_eq.
  apply id_to_submissions_lookup in Hc as [_ Hid1], Hd as [_ Hid2].
  assert (sorted (λ i, i) [a; b] ∈ pairs) as Hin.
  { unfold recent_pairs in Hpairs. apply for_each_Ok in Hpairs.
    set (row := {| rg_id := game_id g; rg_status := game_status g;
                   rg_submission_ids := string_agg "," (pretty <$> [a; b]) |})
      in *.
    assert (row ∈ filter (λ g, rg_status g ≠ "queued")
                    (get_recent_games created_at current_timestamp db
                       time_backward)) as Hrow'
      by by apply list_elem_of_filter.
    apply list_elem_of_lookup in Hrow' as [j Hj].
    destruct (Forall2_lookup_l _ _ _ _ _ Hpairs Hj) as (pair & Hpair & Hread).
    unfold row in Hread. cbn [rg_submission_ids] in Hread.
    rewrite submission_ids_round_trip_ in Hread by done.
    cbn [mbind result_bind] in Hread. injection Hread as <-.
    by eapply list_elem_of_lookup_2. }
  simpl. rewrite Hid1, Hid2.
  change (sorted (λ i, i) [a; b] ∈ pairs) in Hin. rewrite sorted_two in Hin.
  split; intros [= -> ->]; apply Hfresh; revert Hin; case_decide;
    try done; lia.
Qed.

End recent.

(** A database with one game, which 20 and 10 have played. *)
Definition played_db : DB :=
  {| db_games := [{| game_id := 1; game_status := "finished";
                     winner_id := Some 20; log_url := None |}];
     db_games_submissions := [(1, 20); (1, 10)];
     db_games_id_seq := 1 |}.

(** X18 on that database, the game being 10 seconds old and an hour
    looked back, with three submissions and the random numbers 0, 1, 0,
    2: the pair (10, 20) is drawn and dropped, the pair (10, 30) is
    returned. *)
Lemma recent_game_not_paired_again_witness :
  get_recent_games (λ _, 100) 110 played_db 3600
  = [{| rg_id := 1; rg_status := "finished";
        rg_submission_ids := "20,10" |}] ∧
  generate_nonrecent_pairing (submission <$> [10; 20; 30])
    (get_recent_games (λ _, 100) 110 played_db 3600) [0; 1; 0; 2]%nat
  = Ok ([submission 10; submission 30], []) ∧
  sub_id <$> [submission 10; submission 30] ≠ [20; 10] ∧
  sub_id <$> [submission 10; submission 30] ≠ [10; 20].
Proof.
  split; [vm_compute; reflexivity|].
  assert (generate_nonrecent_pairing (submission <$> [10; 20; 30])
            (get_recent_games (λ _, 100) 110 played_db 3600)
            [0; 1; 0; 2]%nat
          = Ok ([submission 10; submission 30], [])) as Hrun
    by (vm_compute; reflexivity).
  split; [exact Hrun|].
  refine (recent_game_not_paired_again (λ _, 100) 110 played_db 3600
            _ _ _ _ {| game_id := 1; game_status := "finished";
                       winner_id := Some 20; log_url := None |} 20 10
            Hrun _ _ _ _ eq_refl).
  - apply (bool_decide_unpack _). vm_compute. exact I.
  - left.
  - discriminate.
  - simpl. lia.
Defined.


(** *** The queue between the two programs *)

Lemma head_sorted_snoc {A} (key : A → Z) (l : list A) (x : A) :
  (∀ y, y ∈ l → key y ≤ key x) →
  head (sorted key (l ++ [x])) = Some (default x (head (sorted key l))).
Proof.
  intros Hle. unfold sorted. rewrite foldl_app. cbn [foldl].
  fold (sorted key l).
  destruct (sorted key l) as [|b acc] eqn:Hacc; [done|].
  simpl. rewrite decide_False; [done|].
  assert (b ∈ l) as Hb by (apply (sorted_elem key); rewrite Hacc; left).
  specialize (Hle b Hb). lia.
Qed.

(** The serial of [games.id] is ahead of every id in use. *)
Definition serial_ahead (db : DB) : Prop :=
  (∀ g, g ∈ db_games db → game_id g ≤ db_games_id_seq db) ∧
  (∀ gs, gs ∈ db_games_submissions db → gs.1 ≤ db_games_id_seq db).

Lemma select_queued_new db (new : Game) :
  (∀ g, g ∈ db_games db → game_id g ≤ game_id new) →
  select_queued {| db_games := db_games db ++ [new];
                   db_games_submissions := db_games_submissions db;
                   db_games_id_seq := db_games_id_seq db |}
  = if decide (game_status new = "queued")
    then Some (default (game_id new) (select_queued db))
    else select_queued db.
Proof.
  intros Hle. unfold select_queued. cbn [db_games].
  rewrite filter_app, filter_cons, filter_nil.
  case_decide; [|by rewrite app_nil_r].
  rewrite fmap_app. simpl. apply (head_sorted_snoc (λ i, i)).
  intros y Hy. apply list_elem_of_fmap in Hy as (g & -> & Hg).
  apply list_elem_of_filter in Hg as [_ Hg]. by apply Hle.
Qed.

Lemma select_queued_ext db db' :
  db_games db' = db_games db → select_queued db' = select_queued db.
Proof. unfold select_queued. by intros ->. Qed.

(** X19.  When the serial of [games.id] is ahead of every id in use, and
    the scheduler's [create_queued_game] has enqueued a game, the game
    that the arena's [grab_queued_game] takes next is the queued game of
    the lowest id that there was, and the new game when there was none; in
    that case [grab_queued_game] returns the id of the new game with those
    of the given submissions that have the ids of the two submissions it
    was enqueued for. *)
Theorem queued_games_are_grabbed_in_turn
    (db : DB) (left right : TournamentScheduler.Submission)
    (submissions : list SubmissionRow) :
  serial_ahead db →
  let r := TournamentScheduler.create_queued_game db left right in
  select_queued r.1 = Some (default (game_id r.2) (select_queued db)) ∧
  (select_queued db = None →
   (grab_queued_game r.1 submissions).2
   = (Some (game_id r.2),
      Some (filter (λ s, sub_id s ∈ [TournamentScheduler.id left;
                                      TournamentScheduler.id right])
                   submissions))).
Proof.
  intros [Hgames Hrows] r. subst r.
  unfold TournamentScheduler.create_queued_game. cbn [fst snd game_id].
  set (new := {| game_id := db_games_id_seq db + 1; game_status := "queued";
                 winner_id := None; log_url := None |}).
  set (db1 := {| db_games := db_games db ++ [new];
                 db_games_submissions := _; db_games_id_seq := _ |}).
  assert (select_queued db1
          = Some (default (db_games_id_seq db + 1) (select_queued db)))
    as Hsel.
  { etrans; [|apply (select_queued_new db new)].
    - by apply select_queued_ext.
    - intros g Hg. specialize (Hgames g Hg). simpl. lia. }
  split; [exact Hsel|].
  intros Hnone. rewrite Hnone in Hsel. simpl in Hsel.
  unfold grab_queued_game, claim_queued. rewrite Hsel.
  cbn [fst snd db_games db_games_submissions db1].
  assert (filter (λ g, game_id g = db_games_id_seq db + 1)
                 (db_games db ++ [new]) = [new]) as ->.
  { rewrite filter_app, filter_none.
    - rewrite filter_cons, filter_nil. by rewrite decide_True.
    - intros g Hg Hid. specialize (Hgames g Hg). lia. }
  change (head (game_id <$> [new])) with (Some (db_games_id_seq db + 1)).
  cbn [snd]. do 3 f_equal.
  assert (filter (λ gs : Z * Z, gs.1 = db_games_id_seq db + 1)
                 (db_games_submissions db ++
                  [(db_games_id_seq db + 1, TournamentScheduler.id left);
                   (db_games_id_seq db + 1, TournamentScheduler.id right)])
          = [(db_games_id_seq db + 1, TournamentScheduler.id left);
             (db_games_id_seq db + 1, TournamentScheduler.id right)]) as ->;
    [|done].
  rewrite filter_app, filter_none.
  - rewrite !filter_cons, filter_nil. by rewrite !decide_True by done.
  - intros gs Hgs Hid. specialize (Hrows gs Hgs). lia.
Qed.

(** The submission [i] as the scheduler has it. *)
Definition entrant (i : Z) : TournamentScheduler.Submission :=
  TournamentScheduler.Real (submission i).

Lemma serial_ahead_played_db : serial_ahead played_db.
Proof.
  split; intros x Hx; repeat (apply elem_of_cons in Hx as [->|Hx]);
    try (by apply elem_of_nil in Hx); simpl; lia.
Defined.

(** X19 on the database of one finished game: the game that is enqueued
    for 10 and 30 is the game 2, and it is grabbed with these two. *)
Lemma queued_games_are_grabbed_in_turn_witness :
  (grab_queued_game
     (TournamentScheduler.create_queued_game played_db
        (entrant 10) (entrant 30)).1
     (submission <$> [10; 20; 30])).2
  = (Some 2, Some [submission 10; submission 30]).
Proof.
  destruct (queued_games_are_grabbed_in_turn played_db
              (entrant 10) (entrant 30)
              (submission <$> [10; 20; 30]) serial_ahead_played_db)
    as [_ Hgrab].
  exact (Hgrab eq_refl).
Defined.

(** X20.  When the serial of [games.id] is ahead of every id in use,
    [insert_new_game_row] adds one game, with an id that no game had and
    the status [playing], linked to the first two submissions of the pair
    in their order, and the serial is ahead as before.  The game is not
    queued: the queued game that is next is the same as before, and
    [grab_queued_game] returns what it would have returned before. *)
Theorem arena_game_is_not_queued
    (db db' : DB) (pair submissions : list SubmissionRow) (new_id : Z) :
  insert_new_game_row db pair = Ok (db', new_id) →
  serial_ahead db →
  serial_ahead db' ∧
  (new_id ∉ game_id <$> db_games db) ∧
  select_queued db' = select_queued db ∧
  (grab_queued_game db' submissions).2 = (grab_queued_game db submissions).2 ∧
  ∃ s0 s1 rest,
    pair = s0 :: s1 :: rest ∧
    filter (λ g, game_id g = new_id) (db_games db')
    = [{| game_id := new_id; game_status := "playing"; winner_id := None;
          log_url := None |}] ∧
    filter (λ gs, gs.1 = new_id) (db_games_submissions db')
    = [(new_id, sub_id s0); (new_id, sub_id s1)].
Proof.
  unfold insert_new_game_row. intros Hrun [Hgames Hrows].
  destruct pair as [|s0 [|s1 rest]]; try done.
  injection Hrun as <- <-.
  set (new := {| game_id := db_games_id_seq db + 1; game_status := "playing";
                 winner_id := None; log_url := None |}).
  assert (∀ db0, select_queued
                   {| db_games := db_games db ++ [new];
                      db_games_submissions := db0;
                      db_games_id_seq := db_games_id_seq db + 1 |}
                 = select_queued db) as Hsel.
  { intros db0. etrans; [|etrans; [apply (select_queued_new db new)|done]].
    - by apply select_queued_ext.
    - intros g Hg. specialize (Hgames g Hg). simpl. lia. }
  assert (∀ m, m ≤ db_games_id_seq db →
            filter (λ g, game_id g = m) (db_games db ++ [new])
            = filter (λ g, game_id g = m) (db_games db)) as Hold.
  { intros m Hm. rewrite filter_app, filter_cons, filter_nil.
    rewrite decide_False by (simpl; lia). by rewrite app_nil_r. }
  split_and!.
  - split; cbn [db_games db_games_submissions db_games_id_seq].
    + intros g [Hg| ->%list_elem_of_singleton]%elem_of_app;
        [specialize (Hgames g Hg)|simpl]; lia.
    + intros gs [Hgs|Hgs]%elem_of_app; [specialize (Hrows gs Hgs); lia|].
      apply elem_of_cons in Hgs as [->|Hgs];
        [|apply list_elem_of_singleton in Hgs as ->]; simpl; lia.
  - intros Hin. apply list_elem_of_fmap in Hin as (g & Hid & Hg).
    specialize (Hgames g Hg). lia.
  - apply Hsel.
  - unfold grab_queued_game, claim_queued. rewrite Hsel.
    destruct (select_queued db) as [m|] eqn:Hm; [|done].
    cbn [fst snd db_games db_games_submissions].
    assert (m ≤ db_games_id_seq db) as Hle.
    { apply select_queued_Some in Hm as [(g & Hg & _ & <-) _].
      by apply Hgames. }
    rewrite (Hold m Hle).
    destruct (head _) as [result_id|] eqn:Hhead; [|done].
    assert (result_id = m) as ->.
    { destruct (filter _ (db_games db)) as [|g0 l] eqn:Hf; [done|].
      assert (g0 ∈ filter (λ g, game_id g = m) (db_games db)) as Hg0
        by (rewrite Hf; left).
      apply list_elem_of_filter in Hg0 as [Hg0 _]. simpl in Hhead.
      congruence. }
    cbn [snd]. do 2 f_equal.
    assert (∀ l, filter (λ gs : Z * Z, gs.1 = m)
                   (db_games_submissions db ++
                    [(db_games_id_seq db + 1, sub_id s0);
                     (db_games_id_seq db + 1, sub_id s1)])
                 = l → l = filter (λ gs : Z * Z, gs.1 = m)
                             (db_games_submissions db)) as Hsame.
    { intros l <-. rewrite filter_app, !filter_cons, filter_nil.
      rewrite !decide_False by (simpl; lia). by rewrite app_nil_r. }
    by rewrite (Hsame _ eq_refl).
  - exists s0, s1, rest. split; [done|].
    cbn [db_games db_games_submissions]. split.
    + rewrite filter_app, filter_none.
      * rewrite filter_cons, filter_nil. by rewrite decide_True.
      * intros g Hg Hid. specialize (Hgames g Hg). lia.
    + rewrite filter_app, filter_none.
      * rewrite !filter_cons, filter_nil. by rewrite !decide_True by done.
      * intros gs Hgs Hid. specialize (Hrows gs Hgs). lia.
Qed.

Lemma serial_ahead_queue_db : serial_ahead queue_db.
Proof.
  split; intros x Hx; repeat (apply elem_of_cons in Hx as [->|Hx]);
    try (by apply elem_of_nil in Hx); simpl; lia.
Defined.

(** X20 on the database with the queued games 4 and 3: the arena's game
    of 20 and 30 is the game 5, and the game 3 is still the next. *)
Lemma arena_game_is_not_queued_witness :
  ∃ db',
    insert_new_game_row queue_db [submission 20; submission 30]
    = Ok (db', 5) ∧
    select_queued db' = Some 3 ∧
    (grab_queued_game db' (submission <$> [10; 20; 30])).2
    = (Some 3, Some [submission 10; submission 30]).
Proof.
  eexists. split; [reflexivity|].
  destruct (arena_game_is_not_queued queue_db _
              [submission 20; submission 30] (submission <$> [10; 20; 30])
              5 eq_refl serial_ahead_queue_db)
    as (_ & _ & Hsel & Hgrab & _).
  split; [exact Hsel|exact Hgrab].
Defined.


(** *** The Joueur folder and its Dockerfile *)

Lemma substring_all (s : string) : String.substring 0 (String.length s) s = s.
Proof. induction s as [|c s IH]; simpl; [done|]. by rewrite IH. Qed.

Lemma append_assoc (a b c : string) : (a +:+ b) +:+ c = a +:+ (b +:+ c).
Proof.
  induction a as [|x a IH]; [done|].
  change (String x ((a +:+ b) +:+ c) = String x (a +:+ (b +:+ c))).
  by f_equal.
Qed.

(** A string that starts with [p] is [p] and the rest. *)
Lemma prefix_substring (p : string) : ∀ s : string,
  String.prefix p s = true →
  s = p +:+ String.substring (String.length p)
                             (String.length s - String.length p) s.
Proof.
  induction p as [|a p IH]; intros s Hp.
  - cbn [String.length]. rewrite Nat.sub_0_r. by rewrite substring_all.
  - destruct s as [|b s]; [done|]. cbn [String.prefix] in Hp.
    destruct (Ascii.ascii_dec a b) as [<-|]; [|done].
    cbn [String.length String.substring Nat.sub].
    change (String a p +:+ ?t) with (String a (p +:+ t)).
    f_equal. by apply IH.
Qed.

Lemma prefix_Joueur (dirname : string) :
  String.prefix "Joueur." dirname = true →
  dirname
  = "Joueur." +:+ String.substring 7 (String.length dirname - 7) dirname.
Proof. apply (prefix_substring "Joueur."). Qed.

Lemma known_extension (ext : string) :
  ext ∈ KNOWN_LANGUAGE_EXTENSIONS →
  free "." ext ∧ String.prefix "/" ext = false.
Proof.
  unfold KNOWN_LANGUAGE_EXTENSIONS. rewrite !elem_of_cons, elem_of_nil.
  intros [->|[->|[->|[->|[->|[->|[->|[]]]]]]]]; (split; [|done]);
    simpl; repeat split; discriminate.
Qed.

Section joueur.

Variables (SUBMISSION_CACHE_PATH : string).
Variable os_walk : string → option (list string * list string).

(** What [find_joueur] comes to: the first name that starts with
    [Joueur.] decides. *)
Lemma find_joueur_first submission_id unzipped_folder dirpath
    (before : list string) (dirname : string) (after : list string) :
  Forall (λ d, String.prefix "Joueur." d = false) before →
  String.prefix "Joueur." dirname = true →
  find_joueur submission_id unzipped_folder dirpath
    (before ++ dirname :: after)
  = if decide (String.substring 7 (String.length dirname - 7) dirname
               ∈ KNOWN_LANGUAGE_EXTENSIONS)
    then Ok (path_join dirpath dirname)
    else Raise (Exception ("Submission " +:+ pretty submission_id +:+
                           " using unkown language: " +:+ dirname)).
Proof.
  intros Hbefore Hp. induction Hbefore as [|d before Hd _ IH]; simpl.
  - by rewrite Hp.
  - by rewrite Hd.
Qed.

Lemma find_joueur_none submission_id unzipped_folder dirpath dirnames :
  Forall (λ d, String.prefix "Joueur." d = false) dirnames →
  find_joueur submission_id unzipped_folder dirpath dirnames
  = Raise (Exception ("Submission " +:+ unzipped_folder +:+
                      " does not unzip to top-level Joueur.xx")).
Proof. induction 1 as [|d l Hd _ IH]; simpl; [done|]. by rewrite Hd. Qed.

Lemma find_joueur_Ok submission_id unzipped_folder dirpath dirnames path :
  find_joueur submission_id unzipped_folder dirpath dirnames = Ok path →
  ∃ ext, ext ∈ KNOWN_LANGUAGE_EXTENSIONS ∧
         "Joueur." +:+ ext ∈ dirnames ∧
         path = path_join dirpath ("Joueur." +:+ ext).
Proof.
  induction dirnames as [|d l IH]; simpl; [done|].
  destruct (String.prefix "Joueur." d) eqn:Hp.
  - case_decide as Hext; [|done]. intros [= <-].
    eexists. split; [exact Hext|].
    rewrite <- (prefix_Joueur d Hp). split; [left|done].
  - intros Hrun. destruct (IH Hrun) as (ext & ? & ? & ?).
    exists ext. split_and!; [done|by right|done].
Qed.

(** X21.  [submission_joueur_folder] goes by the first directory of the
    unpacked submission whose name starts with [Joueur.], whatever
    directories come after it: when the rest of that name is a known
    language extension, the path of that directory is returned, and
    otherwise an [Exception] that names the directory is raised.  When no
    directory starts with [Joueur.], the [Exception] that the submission
    does not unzip to a top-level Joueur.xx is raised. *)
Theorem submission_joueur_folder_first_match
    (submission_id : Z) (dirnames filenames : list string) :
  let top := unzipped_submission_folder SUBMISSION_CACHE_PATH submission_id in
  os_walk top = Some (dirnames, filenames) →
  (∀ before dirname after,
     dirnames = before ++ dirname :: after →
     Forall (λ d, String.prefix "Joueur." d = false) before →
     String.prefix "Joueur." dirname = true →
     submission_joueur_folder SUBMISSION_CACHE_PATH os_walk submission_id
     = if decide (String.substring 7 (String.length dirname - 7) dirname
                  ∈ KNOWN_LANGUAGE_EXTENSIONS)
       then Ok (path_join top dirname)
       else Raise (Exception ("Submission " +:+ pretty submission_id +:+
                              " using unkown language: " +:+ dirname))) ∧
  (Forall (λ d, String.prefix "Joueur." d = false) dirnames →
   submission_joueur_folder SUBMISSION_CACHE_PATH os_walk submission_id
   = Raise (Exception ("Submission " +:+ top +:+
                       " does not unzip to top-level Joueur.xx"))).
Proof.
  intros top Hwalk. unfold submission_joueur_folder, next_walk.
  fold top. rewrite Hwalk. cbn [mbind result_bind fst snd]. split.
  - intros before dirname after -> Hbefore Hp.
    by apply find_joueur_first.
  - apply find_joueur_none.
Qed.

Section dockerfile.

Variable DOCKERFILE_PATH : string.
Variable isfile : string → bool.
Variable copy2 : string → string → result (string → bool).

(** X22.  When [submission_joueur_folder] returns a path, the path is
    that of [Joueur.] and a known language extension in the folder of the
    submission, and [replace_dockerfile] goes by that extension, whatever
    dots the path has elsewhere: it raises the [Exception] that the
    Dockerfile is not found when [DOCKERFILE_PATH/<extension>/Dockerfile]
    is no file; otherwise it copies that file to [Dockerfile] in the
    Joueur folder, and raises the [Exception] that the copy failed when
    there is no such file afterwards. *)
Theorem replace_dockerfile_known_language
    (submission_id : Z) (joueur_path : string) :
  submission_joueur_folder SUBMISSION_CACHE_PATH os_walk submission_id
  = Ok joueur_path →
  ∃ ext,
    ext ∈ KNOWN_LANGUAGE_EXTENSIONS ∧
    joueur_path
    = path_join (unzipped_submission_folder SUBMISSION_CACHE_PATH
                   submission_id) ("Joueur." +:+ ext) ∧
    let safe := path_join (path_join DOCKERFILE_PATH ext) "Dockerfile" in
    let target := path_join joueur_path "Dockerfile" in
    replace_dockerfile SUBMISSION_CACHE_PATH DOCKERFILE_PATH os_walk isfile
      copy2 submission_id
    = if isfile safe then
        copy2 safe target
          ≫= λ isfile' : string → bool,
               if isfile' target then Ok isfile'
               else Raise (Exception ("Failed to copy dockerfile to " +:+
                                      target))
      else Raise (Exception ("Dockerfile not found at " +:+ safe)).
Proof.
  intros Hfolder. pose proof Hfolder as Hrun.
  unfold submission_joueur_folder, next_walk in Hrun.
  destruct (os_walk _) as [w|]; [|done].
  cbn [mbind result_bind fst snd] in Hrun.
  apply find_joueur_Ok in Hrun as (ext & Hext & _ & Hpath).
  exists ext. split_and!; [done..|].
  destruct (known_extension ext Hext) as [Hfree Hslash].
  intros safe target. unfold replace_dockerfile. rewrite Hfolder.
  cbn [mbind result_bind].
  assert (∃ pre, joueur_path = pre +:+ String "." ext) as [pre Hpre].
  { rewrite Hpath. unfold path_join.
    set (top := unzipped_submission_folder _ _).
    case_decide;
      [exists (top +:+ "Joueur")|exists ((top +:+ "/") +:+ "Joueur")];
      by rewrite !append_assoc. }
  assert (last (split "." joueur_path) = Some ext) as ->
    by (rewrite Hpre; by apply last_split).
  cbn [default id]. unfold os_path_join. rewrite Hslash. done.
Qed.

End dockerfile.

Variable global_text : string → string.

(** X23.  [verify_submission_contents] returns, raising nothing, exactly
    when [submission_joueur_folder] returns a path, the path is a
    directory, and the files of that directory have [Makefile] or
    [makefile] among them, and [run]. *)
Theorem verify_submission_contents_passes (submission_id : Z) :
  verify_submission_contents SUBMISSION_CACHE_PATH os_walk global_text
    submission_id = Ok () ↔
  ∃ joueur_path dirnames filenames,
    submission_joueur_folder SUBMISSION_CACHE_PATH os_walk submission_id
    = Ok joueur_path ∧
    os_walk joueur_path = Some (dirnames, filenames) ∧
    ("Makefile" ∈ filenames ∨ "makefile" ∈ filenames) ∧
    "run" ∈ filenames.
Proof.
  unfold verify_submission_contents.
  destruct (submission_joueur_folder _ _ _) as [joueur_path| |];
    [|split; [done|by intros (? & ? & ? & ? & _)]..].
  cbn [mbind result_bind]. unfold next_walk.
  destruct (os_walk joueur_path) as [[dirnames filenames]|] eqn:Hwalk.
  - cbn [mbind result_bind fst snd].
    assert (load_global global_text "unzipped_folder"
            = Raise (NameError "unzipped_folder")) as ->
      by (vm_compute; reflexivity).
    cbn [mbind result_bind]. split.
    + repeat case_decide; try done. intros _.
      exists joueur_path, dirnames, filenames. split_and!; [done..| |].
      * destruct (decide ("Makefile" ∈ filenames)); [by left|].
        destruct (decide ("makefile" ∈ filenames)); [by right|].
        exfalso. tauto.
      * by destruct (decide ("run" ∈ filenames)).
    + intros (p & ds & fs & [= <-] & Hw & Hmake & Hrun).
      rewrite Hwalk in Hw. injection Hw as <- <-.
      rewrite decide_False by tauto. by rewrite decide_False by tauto.
  - split; [done|]. intros (p & ds & fs & [= <-] & Hw & _).
    by rewrite Hwalk in Hw.
Qed.

End joueur.

(** The Dockerfiles that there are, and [shutil.copy2] when it works. *)
Definition dockerfiles (path : string) : bool :=
  bool_decide (path = "/per_language_dockerfiles/py/Dockerfile").

Definition copied (src dst : string) : result (string → bool) :=
  Ok (λ path, bool_decide (path = dst) || dockerfiles path).

(** X22 on the submission 7, which unpacks to [Joueur.py]: the Dockerfile
    of [py] is copied. *)
Lemma replace_dockerfile_known_language_witness :
  (∃ ext,
     ext ∈ KNOWN_LANGUAGE_EXTENSIONS ∧
     "/tmp/submission_cache/submission_7/Joueur.py"
     = path_join (unzipped_submission_folder "/tmp/submission_cache" 7)
         ("Joueur." +:+ ext)) ∧
  ∃ isfile',
    replace_dockerfile "/tmp/submission_cache" "/per_language_dockerfiles"
      files_of_7 dockerfiles copied 7 = Ok isfile' ∧
    isfile' "/tmp/submission_cache/submission_7/Joueur.py/Dockerfile" = true.
Proof.
  split.
  - destruct (replace_dockerfile_known_language "/tmp/submission_cache"
                files_of_7 "/per_language_dockerfiles" dockerfiles copied 7
                "/tmp/submission_cache/submission_7/Joueur.py"
                ltac:(vm_compute; reflexivity)) as (ext & Hext & Hpath & _).
    exists ext. split; [exact Hext|exact Hpath].
  - eexists. split; vm_compute; reflexivity.
Defined.

(** X21 on the submission 7, which unpacks to [Joueur.py]. *)
Lemma submission_joueur_folder_first_match_witness :
  submission_joueur_folder "/tmp/submission_cache" files_of_7 7
  = Ok "/tmp/submission_cache/submission_7/Joueur.py".
Proof.
  destruct (submission_joueur_folder_first_match "/tmp/submission_cache"
              files_of_7 7 ["Joueur.py"] []
              ltac:(vm_compute; reflexivity)) as [Hfirst _].
  rewrite (Hfirst [] "Joueur.py" [] eq_refl (Forall_nil_2 _) eq_refl).
  vm_compute. reflexivity.
Defined.


(** *** The names of a match *)

Lemma ends_with_slash (a : string) :
  last (list_ascii_of_string a) = Some "/"%char → ∃ a', a = a' +:+ "/".
Proof.
  induction a as [|x [|y a] IH]; [done| |].
  - intros [= ->]. by exists "".
  - intros Hlast. destruct IH as [a' Ha']; [exact Hlast|].
    exists (String x a'). rewrite Ha'. done.
Qed.

Lemma session_name_free (game_id : Z) (pair : list SubmissionRow)
    (session : string) :
  session_name game_id pair = Ok session → free "/" session.
Proof.
  unfold session_name. destruct pair as [|s0 [|s1 rest]]; try done.
  intros [= <-]. rewrite !free_app.
  split_and!; try (by apply pretty_free); simpl; split_and!; done.
Qed.

(** X24.  The name under which [main] uploads what a client has written,
    the part of [match_stdout_path] after its last [/], is
    [stdout_stderr_<submission id>_<session>], whatever [LOGFILE_PATH]
    is, for every session that [session_name] names. *)
Theorem droopy_filename_is_last_part
    (LOGFILE_PATH : string) (game_id : Z) (pair : list SubmissionRow)
    (submission : SubmissionRow) (session : string) :
  session_name game_id pair = Ok session →
  droopy_filename (match_stdout_path LOGFILE_PATH submission session)
  = "stdout_stderr_" +:+ pretty (sub_id submission) +:+ "_" +:+ session.
Proof.
  intros Hsession%session_name_free.
  unfold droopy_filename, match_stdout_path, os_path_join.
  set (name := "stdout_stderr_" +:+ _).
  assert (free "/" name) as Hname.
  { unfold name. rewrite !free_app.
    split_and!; try (by apply pretty_free); try done;
      simpl; split_and!; done. }
  change (String.prefix "/" name) with false. cbn iota.
  unfold path_join. case_decide as Hjoin.
  - destruct Hjoin as [->|[a' ->]%ends_with_slash].
    + change ("" +:+ name) with name. by rewrite split_free.
    + rewrite append_assoc. change ("/" +:+ name) with (String "/" name).
      by rewrite last_split.
  - change ("/" +:+ name) with (String "/" name). by rewrite last_split.
Qed.

(** X24 on the game 5 of the submissions 10 and 20. *)
Lemma droopy_filename_is_last_part_witness :
  session_name 5 [submission 10; submission 20] = Ok "arena_5_10v20" ∧
  droopy_filename (match_stdout_path "/tmp/pyrena_logfiles" (submission 10)
                     "arena_5_10v20")
  = "stdout_stderr_10_arena_5_10v20".
Proof.
  assert (session_name 5 [submission 10; submission 20]
          = Ok "arena_5_10v20") as Hsession by (vm_compute; reflexivity).
  split; [exact Hsession|].
  rewrite (droopy_filename_is_last_part "/tmp/pyrena_logfiles" 5
             [submission 10; submission 20] (submission 10) "arena_5_10v20"
             Hsession).
  vm_compute. reflexivity.
Defined.

(** *** The result of a match *)

(** The game server has not finished with the match, or has no game log
    of it yet. *)
Definition unfinished (match_status : MatchStatus) : Prop :=
  ms_status match_status ≠ "over" ∨ ms_gamelogFilename match_status = None.

Section polling.

Variable global_text : string → string.

Lemma poll_gamelog_finished tries match_status st :
  ¬ unfinished match_status →
  poll_gamelog global_text tries match_status st = Ok (match_status, st).
Proof. intros Hf. destruct tries; simpl; by rewrite decide_False. Qed.

Lemma poll_gamelog_again tries match_status st :
  unfinished match_status →
  poll_gamelog global_text (S (S tries)) match_status st
  = get_match_status global_text st.1
      ≫= λ r, poll_gamelog global_text (S tries) r.1
                (r.2, st.2 + Z.of_nat (S tries)).
Proof. intros Hu. cbn [poll_gamelog]. by rewrite decide_True. Qed.

Lemma poll_gamelog_gives_up match_status st :
  unfinished match_status →
  poll_gamelog global_text 1 match_status st
  = Raise (Exception "Gameserver did not respond with match results").
Proof. intros Hu. cbn [poll_gamelog]. by rewrite decide_True. Qed.

Lemma get_match_status_HTTPError text server :
  get_match_status global_text (HTTPError text :: server)
  = Raise (NameError "body").
Proof. reflexivity. Qed.

Ltac poll :=
  repeat first
    [ rewrite poll_gamelog_again by done
    | rewrite poll_gamelog_gives_up by done
    | rewrite poll_gamelog_finished by done
    | progress cbn [get_match_status mbind result_bind fst snd fmap list_fmap
                    app] ].

(** X25.  [wait_for_gameserver_gamelog] asks the game server up to five
    times.  It returns the first reply that is [over] and has the name of
    a game log, when four replies at most come before it, having slept 0,
    4, 7, 9 or 10 seconds for the 0 to 4 replies before it.  When a
    request fails with an [HTTPError] before such a reply, four replies at
    most before it, it raises the [NameError] of the name [body], which
    the handler reads and the function does not assign, not an
    [Exception] with the text of the error.  After five replies without
    such a reply it raises the [Exception] that the game server did not
    respond with match results. *)
Theorem wait_for_gameserver_gamelog_polls
    (waiting : list MatchStatus) (slept : Z) :
  Forall unfinished waiting →
  (∀ match_status server,
     ¬ unfinished match_status → (length waiting ≤ 4)%nat →
     wait_for_gameserver_gamelog global_text
       ((Response <$> waiting) ++ Response match_status :: server, slept)
     = Ok (match_status,
           (server,
            slept + default 0 ([0; 4; 7; 9; 10] !! length waiting)))) ∧
  (∀ text server,
     (length waiting ≤ 4)%nat →
     wait_for_gameserver_gamelog global_text
       ((Response <$> waiting) ++ HTTPError text :: server, slept)
     = Raise (NameError "body")) ∧
  (∀ server,
     (5 ≤ length waiting)%nat →
     wait_for_gameserver_gamelog global_text
       ((Response <$> waiting) ++ server, slept)
     = Raise (Exception "Gameserver did not respond with match results")).
Proof.
  intros Hw. unfold wait_for_gameserver_gamelog.
  destruct Hw as [|w0 ? H0 [|w1 ? H1 [|w2 ? H2 [|w3 ? H3 [|w4 ? H4 Hw]]]]].
  all: split_and!; [intros ms server Hms Hlen|intros text server Hlen|
                    intros server Hlen]; simpl in Hlen; try lia.
  all: poll; try done; cbn [length lookup list_lookup default id];
    do 3 f_equal; lia.
Qed.

End polling.

(** What the game server says of a match that is on, and of one that 10
    has won. *)
Definition match_on : MatchStatus :=
  {| ms_status := "playing"; ms_gamelogFilename := None; ms_clients := [] |}.

Definition match_won : MatchStatus :=
  {| ms_status := "over"; ms_gamelogFilename := Some "5.json";
     ms_clients := [{| ci_name := "ten"; ci_won := true; ci_lost := false;
                       ci_reason := "checkmate" |};
                    {| ci_name := "twenty"; ci_won := false; ci_lost := true;
                       ci_reason := "checkmate" |}] |}.

(** X25 on a match that is over at the third request: 4 and 3 seconds
    are slept. *)
Lemma wait_for_gameserver_gamelog_polls_witness :
  wait_for_gameserver_gamelog (λ n, n)
    ([Response match_on; Response match_on; Response match_won], 0)
  = Ok (match_won, ([], 7)) ∧
  wait_for_gameserver_gamelog (λ n, n)
    ([Response match_on; Response match_on; HTTPError "no such match"], 0)
  = Raise (NameError "body").
Proof.
  destruct (wait_for_gameserver_gamelog_polls (λ n, n) [match_on; match_on] 0)
    as (Hover & Herror & _).
  { repeat constructor; by left. }
  split.
  - refine (Hover match_won [] _ _); [by intros [?|?]|simpl; lia].
  - refine (Herror "no such match" [] _). simpl. lia.
Defined.

Lemma winner_name_of_lost (clients : list ClientInfo) :
  ∀ winner_name,
    Forall (λ c, ci_won c = false) clients →
    winner_name_of clients winner_name = winner_name.
Proof.
  induction clients as [|c clients IH]; intros winner_name Hlost; [done|].
  apply Forall_cons in Hlost as [Hc Hlost].
  unfold winner_name_of in *. simpl. rewrite Hc. by apply IH.
Qed.

(** X26.  After the loop of [main] over the clients of a match, the
    winner is the last client that won: [winner_id] is the id of the
    first submission of the pair that has the name of that client, and
    [next] raises [StopIteration] when no submission of the pair has that
    name.  When no client won, as in a draw, [StopIteration] is raised
    whatever the pair is. *)
Theorem winner_is_last_client_that_won
    (pair : list SubmissionRow) (match_status : MatchStatus) :
  (Forall (λ c, ci_won c = false) (ms_clients match_status) →
   winner_id_of pair match_status = Raise StopIteration) ∧
  (∀ before client after,
     ms_clients match_status = before ++ client :: after →
     ci_won client = true →
     Forall (λ c, ci_won c = false) after →
     winner_id_of pair match_status
     = from_option (λ s, Ok (sub_id s)) (Raise StopIteration)
         (head (filter (λ s, sub_name s = ci_name client) pair))).
Proof.
  unfold winner_id_of. split.
  - intros Hlost. rewrite winner_name_of_lost by done.
    rewrite filter_none; [done|]. by intros s _ ?.
  - intros before client after -> Hwon Hlost.
    unfold winner_name_of. rewrite foldl_app. cbn [foldl]. rewrite Hwon.
    fold (winner_name_of after (Some (ci_name client))).
    rewrite winner_name_of_lost by done.
    assert (filter (λ s, Some (sub_name s) = Some (ci_name client)) pair
            = filter (λ s, sub_name s = ci_name client) pair) as ->.
    { apply list_filter_iff. intros s. split; [by intros [= ->]|by intros ->]. }
    by destruct (filter _ pair).
Qed.

(** *** The ids of a recent game, written and read *)

(** X17.  The ids of a game as [get_recent_games] writes them, each in
    decimal and a comma between two of them, are read back by
    [generate_nonrecent_pairing], which splits the text at the commas and
    takes [int] of every part, as the same ids in the same order, for
    every game with a row in [games_submissions]. *)
Theorem submission_ids_round_trip (ids : list Z) :
  ids ≠ [] →
  for_each int (split ","%char (string_agg "," (pretty <$> ids))) = Ok ids.
Proof. apply submission_ids_round_trip_. Qed.

(** X17 on the ids 20, -3 and 10. *)
Lemma submission_ids_round_trip_witness :
  string_agg "," (pretty <$> [20; -3; 10]) = "20,-3,10" ∧
  for_each int (split ","%char (string_agg "," (pretty <$> [20; -3; 10])))
  = Ok [20; -3; 10].
Proof.
  split; [vm_compute; reflexivity|].
  by apply submission_ids_round_trip.
Defined.


End ArenaProofs.
